(** * Wespoke Web SDK: session lifecycle and message de-duplication

    A shallow embedding of the SDK's controller (class [Wespoke]), its error
    taxonomy ([errors.ts]) and the parts of the JavaScript runtime they rely
    on, followed by the properties of the specification that concern them.

    Conventions.
    - A JavaScript value that comes out of [JSON.parse] or [response.json()]
      is a [value]; numbers are restricted to the integers that JavaScript
      holds exactly (magnitude at most 2^53), which ToString prints digit by
      digit.
    - Strings are byte strings holding UTF-8; [trim] strips the white space
      and the line terminators of ECMAScript in that encoding, and
      [toLowerCase] acts on ASCII letters.
    - An [async] method is a computation in the monad [M]: it reads and
      writes the controller's fields, appends what it emits and what it does
      to the outside world to a trace, and returns or throws.  The result of
      every awaited external call (fetch, transport connect, microphone
      acquisition) is an argument of the method.
    - Between two awaits the JavaScript event loop runs a method without
      interruption.  A method is modelled as running to completion once its
      external results are known, except where the source itself provides for
      another call arriving while it waits: [endCall()] during the connect
      retries of [startCall] (the abort check of [connectToRoom]) and
      [endChatSession()], any number of times, during the creation request
      of [startChatSession] (the flag [shouldEndChatAfterStart]).  There the
      interleaved calls are an argument too.
    - A handler that the transport runs while one of its calls is awaited
      (the room's Disconnected handler during [room.disconnect()]) is an
      event of its own, [onRoomDisconnected], apart from the method that
      waits.
    - [emit] stands for [EventEmitter.emit], which calls every handler
      registered for the event once, in registration order, and catches what
      a handler throws; handlers are taken not to call back into the
      controller while they run.
    - [retryDelay * Math.pow(1.5, attempt - 1)] is computed in exact rational
      arithmetic and [maxRetryAttempts] is an integer. *)

From Stdlib Require Import ZArith QArith Lia Ascii String DecimalString.
From stdpp Require Import base strings gmap list.

Local Open Scope string_scope.
Local Open Scope Z_scope.

#[local] Set Warnings "-register-all".

(** ** JavaScript values *)

Module JS.

Inductive value : Type :=
| VUndefined
| VNull
| VBool (b : bool)
| VNum (n : Z)
| VStr (s : string)
| VArr (items : list value)
| VObj (fields : list (string * value)).

(** ToBoolean. *)
Definition truthy (v : value) : bool :=
  match v with
  | VUndefined | VNull => false
  | VBool b => b
  | VNum n => negb (n =? 0)
  | VStr s => negb (String.eqb s "")
  | VArr _ | VObj _ => true
  end.

(** [a || b]. *)
Definition or_else (a b : value) : value := if truthy a then a else b.

Fixpoint assoc (k : string) (fields : list (string * value)) : value :=
  match fields with
  | [] => VUndefined
  | (k', v) :: rest => if String.eqb k k' then v else assoc k rest
  end.

(** [v.k]: reading a property of [null] or [undefined] throws a TypeError
    ([None]); a primitive or an array has none of the keys read here. *)
Definition prop (v : value) (k : string) : option value :=
  match v with
  | VUndefined | VNull => None
  | VObj fields => Some (assoc k fields)
  | _ => Some VUndefined
  end.

(** [v?.k]. *)
Definition optprop (v : value) (k : string) : value :=
  match prop v k with
  | Some x => x
  | None => VUndefined
  end.

Definition string_of_Z (n : Z) : string := NilZero.string_of_int (Z.to_int n).

Definition join (sep : string) (parts : list string) : string :=
  match parts with
  | [] => ""
  | p :: ps => fold_left (fun acc q => acc ++ sep ++ q) ps p
  end.

(** ToString, as a template literal or the [Error] constructor applies it. *)
Fixpoint toString (v : value) : string :=
  match v with
  | VUndefined => "undefined"
  | VNull => "null"
  | VBool true => "true"
  | VBool false => "false"
  | VNum n => string_of_Z n
  | VStr s => s
  | VArr items =>
      join "," (map (fun x => match x with
                              | VUndefined | VNull => ""
                              | _ => toString x
                              end) items)
  | VObj _ => "[object Object]"
  end.

(** [s.toLowerCase()] on ASCII letters. *)
Definition lower_ascii (c : ascii) : ascii :=
  let n := nat_of_ascii c in
  if ((65 <=? n)%nat && (n <=? 90)%nat)%bool then ascii_of_nat (n + 32) else c.

Fixpoint toLowerCase (s : string) : string :=
  match s with
  | EmptyString => EmptyString
  | String c rest => String (lower_ascii c) (toLowerCase rest)
  end.

(** [s.includes(needle)]. *)
Fixpoint includes (needle s : string) : bool :=
  if String.prefix needle s then true
  else match s with
       | EmptyString => false
       | String _ rest => includes needle rest
       end.

(** [s.startsWith(p)] and [s.replace(p, "")] for a prefix [p]. *)
Definition startsWith (p s : string) : bool := String.prefix p s.

Definition strip_prefix (p s : string) : string :=
  if String.prefix p s
  then String.substring (String.length p) (String.length s - String.length p) s
  else s.

End JS.

Import JS.

(** ** Error taxonomy ([errors.ts]) *)

(** An error that does not come from the SDK: what [fetch], the transport or
    the browser throws. *)
Record NativeError := mkNative { native_name : string; native_message : string }.

Inductive detail :=
| DResponse (body : value)
| DCause (cause : NativeError)
| DAssistant (assistantId : value).

Record WespokeError := mkError {
  name : string;
  message : string;
  code : value;
  statusCode : option Z;
  details : option detail;
  retryAfter : value;
  resetAt : value
}.

Definition baseError (msg : string) (c : value) (status : option Z)
    (d : option detail) : WespokeError :=
  {| name := "WespokeError"; message := msg; code := c; statusCode := status;
     details := d; retryAfter := VUndefined; resetAt := VUndefined |}.

Definition withName (n : string) (e : WespokeError) : WespokeError :=
  {| name := n; message := message e; code := code e;
     statusCode := statusCode e; details := details e;
     retryAfter := retryAfter e; resetAt := resetAt e |}.

Definition AuthenticationError (msg : string) (d : option detail) :=
  withName "AuthenticationError"
    (baseError msg (VStr "AUTHENTICATION_ERROR") (Some 403) d).

Definition InsufficientCreditsError (msg : string) (d : option detail) :=
  withName "InsufficientCreditsError"
    (baseError msg (VStr "INSUFFICIENT_CREDITS") (Some 402) d).

Definition RateLimitError (msg : string) (after reset : value)
    (d : option detail) : WespokeError :=
  {| name := "RateLimitError"; message := msg;
     code := VStr "RATE_LIMIT_EXCEEDED"; statusCode := Some 429;
     details := d; retryAfter := after; resetAt := reset |}.

Definition ConnectionError (msg : string) (d : option detail) :=
  withName "ConnectionError" (baseError msg (VStr "CONNECTION_ERROR") None d).

Definition ConfigurationError (msg : string) (d : option detail) :=
  withName "ConfigurationError"
    (baseError msg (VStr "CONFIGURATION_ERROR") None d).

Definition AssistantNotFoundError (assistantId : value) :=
  withName "AssistantNotFoundError"
    (baseError ("Assistant not found: " ++ toString assistantId)
       (VStr "ASSISTANT_NOT_FOUND") (Some 404) (Some (DAssistant assistantId))).

Definition MediaDevicesError (msg : string) (d : option detail) :=
  withName "MediaDevicesError"
    (baseError msg (VStr "MEDIA_DEVICES_ERROR") None d).

Definition APIError (msg : string) (c : value) (status : option Z)
    (d : option detail) :=
  withName "APIError" (baseError msg c status d).

(** [parseAPIError(response, statusCode)]. *)
Definition parseAPIError (response : value) (status : Z) : WespokeError :=
  let err := optprop response "error" in
  let errorMessage := or_else (optprop err "message") (VStr "Unknown API error") in
  let errorCode := or_else (optprop err "code") (VStr "UNKNOWN_ERROR") in
  if (status =? 401) || (status =? 403) then
    AuthenticationError (toString errorMessage) (Some (DResponse response))
  else if status =? 402 then
    InsufficientCreditsError (toString errorMessage) (Some (DResponse response))
  else if status =? 404 then
    AssistantNotFoundError errorMessage
  else if status =? 429 then
    RateLimitError (toString errorMessage) (optprop err "retryAfter")
      (optprop err "resetAt") (Some (DResponse response))
  else
    APIError (toString errorMessage) errorCode (Some status)
      (Some (DResponse response)).

(** ** The controller's data ([types.ts], [Wespoke.ts]) *)

Inductive CallState :=
| IDLE | CONNECTING | CONNECTED | DISCONNECTING | DISCONNECTED | ERROR.

#[global] Instance CallState_eq_dec : EqDecision CallState.
Proof. solve_decision. Defined.

(** What a [catch] clause can receive. *)
Inductive exn :=
| SDK (e : WespokeError)
| Native (e : NativeError).

(** The events of [WespokeEvents] with their payloads. *)
Inductive event :=
| EvStateChange (s : CallState)
| EvConnected
| EvDisconnected (reason : option string)
| EvReconnecting
| EvReconnected
| EvConnectionStateChanged (state : string)
| EvConnectionQualityChanged (quality : string)
| EvError (e : exn)
| EvMessage (m : value)
| EvTranscription (t : value)
| EvAssistantSpeaking (speaking : bool)
| EvMicrophoneMuted (muted : bool)
| EvToolEvent (t : value)
| EvKnowledgeUsed (k : value)
| EvMetrics (m : value)
| EvBargeIn (d : value)
| EvCallEnding (c : value).

(** What the controller does to the browser, the transport and the control
    API. *)
Inductive effect :=
| Post (path : string) (body : value)
| Get (path : string)
| SetInterval (ms : Z)
| ClearInterval
| NewRoom
| RoomConnect (attempt : Z)
| RoomDisconnect
| Sleep (ms : Q)
| AbortConnect
| AbortChatRequest
| CreateLocalAudioTrack
| PublishTrack
| UnpublishTrack
| StopLocalTrack
| MuteLocalTrack
| UnmuteLocalTrack
| AttachTrack (sid : string)
| DetachElement (sid : string)
| ListenSpeaking (participant : nat)
| ReleaseReaderLock.

Inductive obs :=
| Emit (e : event)
| Do (a : effect).

Record Config := mkConfig {
  apiKey : string;
  apiUrl : string;
  debug : bool;
  maxRetryAttempts : Z;
  retryDelay : Q
}.

Inductive Room := TheRoom.
Record LocalAudioTrack := mkLocalTrack { isMuted : bool }.
Record AbortController := mkAbort { aborted : bool }.
Inductive Timer := TheTimer.
Inductive AudioElement := TheElement.

Inductive TrackKind := Audio | Video.

(** A remote track; [sid] is the empty string when the transport has not
    assigned one (an absent and an empty sid are both falsy). *)
Record RemoteTrack := mkTrack { sid : string; kind : TrackKind }.

(** A remote participant.  [ref] stands for the object's identity ([===]);
    [metadata] is [None] when the metadata string is empty or absent,
    [Some None] when it is not JSON, [Some (Some v)] when it parses to [v]. *)
Record RemoteParticipant := mkParticipant {
  ref : nat;
  identity : string;
  metadata : option (option value);
  trackPublications : list (option RemoteTrack)
}.

(** Keys of [seenMessageIds]: a [Set] compares strings, numbers and booleans
    by value; an object or array is only equal to itself and a decoded
    payload is a fresh object every time. *)
Definition key : Type := string + Z + bool.

Definition key_of (v : value) : option key :=
  match v with
  | VStr s => Some (inl (inl s))
  | VNum n => Some (inl (inr n))
  | VBool b => Some (inr b)
  | _ => None
  end.

Record Wespoke := mkWespoke {
  config : Config;
  room : option Room;
  localAudioTrack : option LocalAudioTrack;
  assistantParticipant : option RemoteParticipant;
  attachedTracks : list (string * AudioElement);
  callState : CallState;
  currentCallId : value;
  currentChatId : value;
  abortController : option AbortController;
  chatAbortController : option AbortController;
  pollInterval : option Timer;
  seenMessageIds : gset key;
  shouldEndChatAfterStart : bool
}.

Definition set_room x s := mkWespoke (config s) x (localAudioTrack s)
  (assistantParticipant s) (attachedTracks s) (callState s) (currentCallId s)
  (currentChatId s) (abortController s) (chatAbortController s)
  (pollInterval s) (seenMessageIds s) (shouldEndChatAfterStart s).
Definition set_localAudioTrack x s := mkWespoke (config s) (room s) x
  (assistantParticipant s) (attachedTracks s) (callState s) (currentCallId s)
  (currentChatId s) (abortController s) (chatAbortController s)
  (pollInterval s) (seenMessageIds s) (shouldEndChatAfterStart s).
Definition set_assistantParticipant x s := mkWespoke (config s) (room s)
  (localAudioTrack s) x (attachedTracks s) (callState s) (currentCallId s)
  (currentChatId s) (abortController s) (chatAbortController s)
  (pollInterval s) (seenMessageIds s) (shouldEndChatAfterStart s).
Definition set_attachedTracks x s := mkWespoke (config s) (room s)
  (localAudioTrack s) (assistantParticipant s) x (callState s)
  (currentCallId s) (currentChatId s) (abortController s)
  (chatAbortController s) (pollInterval s) (seenMessageIds s)
  (shouldEndChatAfterStart s).
Definition set_callState x s := mkWespoke (config s) (room s)
  (localAudioTrack s) (assistantParticipant s) (attachedTracks s) x
  (currentCallId s) (currentChatId s) (abortController s)
  (chatAbortController s) (pollInterval s) (seenMessageIds s)
  (shouldEndChatAfterStart s).
Definition set_currentCallId x s := mkWespoke (config s) (room s)
  (localAudioTrack s) (assistantParticipant s) (attachedTracks s)
  (callState s) x (currentChatId s) (abortController s)
  (chatAbortController s) (pollInterval s) (seenMessageIds s)
  (shouldEndChatAfterStart s).
Definition set_currentChatId x s := mkWespoke (config s) (room s)
  (localAudioTrack s) (assistantParticipant s) (attachedTracks s)
  (callState s) (currentCallId s) x (abortController s)
  (chatAbortController s) (pollInterval s) (seenMessageIds s)
  (shouldEndChatAfterStart s).
Definition set_abortController x s := mkWespoke (config s) (room s)
  (localAudioTrack s) (assistantParticipant s) (attachedTracks s)
  (callState s) (currentCallId s) (currentChatId s) x
  (chatAbortController s) (pollInterval s) (seenMessageIds s)
  (shouldEndChatAfterStart s).
Definition set_chatAbortController x s := mkWespoke (config s) (room s)
  (localAudioTrack s) (assistantParticipant s) (attachedTracks s)
  (callState s) (currentCallId s) (currentChatId s) (abortController s) x
  (pollInterval s) (seenMessageIds s) (shouldEndChatAfterStart s).
Definition set_pollInterval x s := mkWespoke (config s) (room s)
  (localAudioTrack s) (assistantParticipant s) (attachedTracks s)
  (callState s) (currentCallId s) (currentChatId s) (abortController s)
  (chatAbortController s) x (seenMessageIds s) (shouldEndChatAfterStart s).
Definition set_seenMessageIds x s := mkWespoke (config s) (room s)
  (localAudioTrack s) (assistantParticipant s) (attachedTracks s)
  (callState s) (currentCallId s) (currentChatId s) (abortController s)
  (chatAbortController s) (pollInterval s) x (shouldEndChatAfterStart s).
Definition set_shouldEndChatAfterStart x s := mkWespoke (config s) (room s)
  (localAudioTrack s) (assistantParticipant s) (attachedTracks s)
  (callState s) (currentCallId s) (currentChatId s) (abortController s)
  (chatAbortController s) (pollInterval s) (seenMessageIds s) x.

(** ** Computations: state, trace and exceptions *)

Inductive result (A : Type) :=
| Returned (a : A)
| Threw (e : exn).
Arguments Returned {A} a.
Arguments Threw {A} e.

Record Out (A : Type) := mkOut {
  outcome : result A;
  final : Wespoke;
  trace : list obs
}.
Arguments mkOut {A} _ _ _.
Arguments outcome {A} _.
Arguments final {A} _.
Arguments trace {A} _.

Definition M (A : Type) : Type := Wespoke -> Out A.

Definition ret {A} (a : A) : M A := fun s => mkOut (Returned a) s [].

Definition throw {A} (e : exn) : M A := fun s => mkOut (Threw e) s [].

Definition bind {A B} (m : M A) (k : A -> M B) : M B := fun s =>
  match m s with
  | mkOut (Returned a) s1 t1 =>
      match k a s1 with
      | mkOut r s2 t2 => mkOut r s2 (t1 ++ t2)
      end
  | mkOut (Threw e) s1 t1 => mkOut (Threw e) s1 t1
  end.

(** [try { m } catch (error) { h error }]. *)
Definition try_catch {A} (m : M A) (h : exn -> M A) : M A := fun s =>
  match m s with
  | mkOut (Returned a) s1 t1 => mkOut (Returned a) s1 t1
  | mkOut (Threw e) s1 t1 =>
      match h e s1 with
      | mkOut r s2 t2 => mkOut r s2 (t1 ++ t2)
      end
  end.

(** [try { m } finally { f }], for an [f] that does not throw. *)
Definition finally {A} (m : M A) (f : M unit) : M A := fun s =>
  match m s with
  | mkOut r s1 t1 =>
      match f s1 with
      | mkOut _ s2 t2 => mkOut r s2 (t1 ++ t2)
      end
  end.

Definition read {A} (f : Wespoke -> A) : M A := fun s => mkOut (Returned (f s)) s [].
Definition write (f : Wespoke -> Wespoke) : M unit := fun s => mkOut (Returned tt) (f s) [].
Definition emit (e : event) : M unit := fun s => mkOut (Returned tt) s [Emit e].
Definition perform (a : effect) : M unit := fun s => mkOut (Returned tt) s [Do a].

Declare Scope wespoke_scope.
Delimit Scope wespoke_scope with js.
Notation "x ← m ; k" := (bind m (fun x => k))
  (at level 20, m at level 100, k at level 200, only parsing) : wespoke_scope.
Notation "m ;; k" := (bind m (fun _ => k))
  (at level 100, k at level 200, right associativity, only parsing) : wespoke_scope.

Definition TypeError : exn :=
  Native (mkNative "TypeError" "Cannot read properties of null or undefined").

(** [v.k] inside a computation. *)
Definition field (v : value) (k : string) : M value :=
  match prop v k with
  | Some x => ret x
  | None => throw TypeError
  end.

Definition when (b : bool) (m : M unit) : M unit := if b then m else ret tt.

(** [xs.forEach(f)] and [for (const x of xs) f(x)]. *)
Fixpoint forEach {A} (xs : list A) (f : A -> M unit) : M unit :=
  match xs with
  | [] => ret tt
  | x :: rest => bind (f x) (fun _ => forEach rest f)
  end.

Local Open Scope wespoke_scope.

(** ** External results *)

(** The result of [await fetch(...)] followed by [await response.json()]:
    the request is rejected (network failure, abort), or a response arrives
    whose body decodes to a value or fails to decode. *)
Inductive fetched :=
| Rejected (e : NativeError)
| Responded (status : Z) (body : NativeError + value).

(** [response.ok]. *)
Definition ok (status : Z) : bool := (200 <=? status) && (status <=? 299).

Definition awaitFetch (r : fetched) : M (Z * (NativeError + value)) :=
  match r with
  | Rejected e => throw (Native e)
  | Responded status body => ret (status, body)
  end.

Definition json (body : NativeError + value) : M value :=
  match body with
  | inl e => throw (Native e)
  | inr v => ret v
  end.

(** [await f()] for an external call that either succeeds or rejects. *)
Definition await (r : option NativeError) : M unit :=
  match r with
  | None => ret tt
  | Some e => throw (Native e)
  end.

(** [if (!response.ok || !data.success) throw parseAPIError(data, response.status)]. *)
Definition checkResponse (status : Z) (data : value) : M unit :=
  if negb (ok status) then throw (SDK (parseAPIError data status))
  else
    success ← field data "success";
    if truthy success then ret tt
    else throw (SDK (parseAPIError data status)).

(** [try { m } catch (error) { this.log(...); throw error }]. *)
Definition logged {A} (m : M A) : M A := try_catch m (fun error => throw error).

Definition is_str (v : value) (s : string) : bool :=
  match v with
  | VStr t => String.eqb t s
  | _ => false
  end.

(** ** The dedup ledger [seenMessageIds] *)

Definition has (id : value) (seen : gset key) : bool :=
  match key_of id with
  | Some k => bool_decide (k ∈ seen)
  | None => false
  end.

Definition add (id : value) (seen : gset key) : gset key :=
  match key_of id with
  | Some k => {[ k ]} ∪ seen
  | None => seen
  end.

(** ** Methods of [Wespoke] *)

Definition plainError (msg c : string) : exn :=
  SDK (baseError msg (VStr c) None None).

Definition cause_of (e : exn) : option detail :=
  match e with
  | Native n => Some (DCause n)
  | SDK w => Some (DCause (mkNative (name w) (message w)))
  end.

Definition setState (newState : CallState) : M unit :=
  current ← read callState;
  if decide (current = newState) then ret tt
  else (write (set_callState newState);; emit (EvStateChange newState)).

Definition getState : M CallState := read callState.
Definition getCallId : M value := read currentCallId.
Definition getChatId : M value := read currentChatId.

Definition startMessagePolling : M unit :=
  perform (SetInterval 2000);;
  write (set_pollInterval (Some TheTimer)).

Definition stopMessagePolling : M unit :=
  timer ← read pollInterval;
  match timer with
  | Some _ => perform ClearInterval;; write (set_pollInterval None)
  | None => ret tt
  end.

Definition callPath (s : Wespoke) (suffix : string) : string :=
  apiUrl (config s) ++ "/api/v1/embed/calls/" ++ toString (currentCallId s) ++ suffix.

Definition chatPath (s : Wespoke) (suffix : string) : string :=
  apiUrl (config s) ++ "/api/v1/embed/chat" ++ suffix.

Definition fetchToken (assistantId : string) (callMetadata : value) (r : fetched) : M value :=
  url ← read (fun s => apiUrl (config s) ++ "/api/v1/embed/token");
  perform (Post url (VObj [("assistantId", VStr assistantId);
                           ("metadata", or_else callMetadata (VObj []))]));;
  resp ← awaitFetch r;
  data ← json (snd resp);
  checkResponse (fst resp) data;;
  field data "data".

Definition getMessages (limit offset : Z) (r : fetched) : M value :=
  id ← read currentCallId;
  if negb (truthy id) then throw (plainError "No active call" "NO_ACTIVE_CALL")
  else logged (
    url ← read (fun s => callPath s ("/messages?limit=" ++ string_of_Z limit
                                      ++ "&offset=" ++ string_of_Z offset));
    perform (Get url);;
    resp ← awaitFetch r;
    data ← json (snd resp);
    checkResponse (fst resp) data;;
    d ← field data "data";
    field d "messages").

(** [message.content?.substring(0, 50)], evaluated for the log line: a
    content that is neither nullish nor a string has no [substring]. *)
Definition previewContent (content : value) : M unit :=
  match content with
  | VUndefined | VNull | VStr _ => ret tt
  | _ => throw TypeError
  end.

(** The function that the polling callback applies to every fetched
    message. *)
Definition emitIfNew (message : value) : M unit :=
  mid ← field message "id";
  seen ← read seenMessageIds;
  if truthy mid && negb (has mid seen) then
    write (fun s => set_seenMessageIds (add mid (seenMessageIds s)) s);;
    content ← field message "content";
    previewContent content;;
    emit (EvMessage message)
  else ret tt.

(** The callback that [startMessagePolling] hands to [setInterval], with the
    result of its [getMessages(50, 0)]. *)
Definition pollTick (r : fetched) : M unit :=
  id ← read currentCallId;
  st ← read callState;
  if truthy id && bool_decide (st = CONNECTED) then
    try_catch (
      messages ← getMessages 50 0 r;
      match messages with
      | VArr items => forEach items emitIfNew
      | _ => throw TypeError
      end)
    (fun _ => ret tt)
  else ret tt.

(** The [ConversationMessage] that the data-channel handler builds from a
    payload. *)
Definition conversationMessageOf (data : value) : value :=
  VObj [
    ("id", optprop data "id");
    ("role", optprop data "role");
    ("content", optprop data "content");
    ("timestamp", optprop data "timestamp");
    ("isComplete", optprop data "isComplete");
    ("isFirstChunk", optprop data "isFirstChunk");
    ("isStreaming", optprop data "isStreaming")].

(** [handleDataChannelMessage(payload)]; [decoded] is the result of
    [JSON.parse(new TextDecoder().decode(payload))], [None] when it throws. *)
Definition handleDataChannelMessage (decoded : option value) : M unit :=
  try_catch (
    match decoded with
    | None => throw (Native (mkNative "SyntaxError" "Unexpected token"))
    | Some data =>
        type ← field data "type";
        if is_str type "message" || is_str type "conversation_item" then
          seen ← read seenMessageIds;
          if truthy (optprop data "id") && has (optprop data "id") seen
             && negb (truthy (optprop data "isComplete"))
          then ret tt
          else
            emit (EvMessage (conversationMessageOf data));;
            when (truthy (optprop data "id") && truthy (optprop data "isComplete"))
              (write (fun s => set_seenMessageIds
                                 (add (optprop data "id") (seenMessageIds s)) s))
        else if is_str type "transcription_stream" then
          emit (EvTranscription (VObj [
            ("text", optprop data "text");
            ("transcriptionId", optprop data "transcriptionId");
            ("isFinal", optprop data "isFinal");
            ("timestamp", optprop data "timestamp");
            ("sequence", optprop data "sequence");
            ("isStreaming", optprop data "isStreaming")]))
        else if is_str type "tool_start" || is_str type "tool_complete"
                || is_str type "tool_failed" || is_str type "tool_delayed" then
          emit (EvToolEvent (VObj [
            ("type", VStr (strip_prefix "tool_" (toString type)));
            ("toolName", optprop data "toolName");
            ("toolType", optprop data "toolType");
            ("timestamp", optprop data "timestamp");
            ("toolDetails", or_else (optprop data "toolDetails") (VObj []))]))
        else if is_str type "metrics" then emit (EvMetrics data)
        else if is_str type "barge_in" then emit (EvBargeIn data)
        else if is_str type "call_ending" then
          emit (EvCallEnding (VObj [
            ("reason", optprop data "reason");
            ("message", optprop data "message");
            ("timestamp", optprop data "timestamp")]))
        else ret tt
    end)
  (fun _ => ret tt).

(** *** Remote participants and tracks *)

Definition isAssistantParticipant (p : RemoteParticipant) : bool :=
  let byIdentity :=
    let id := toLowerCase (identity p) in
    includes "agent" id || includes "assistant" id in
  match metadata p with
  | Some (Some parsed) =>
      match prop parsed "role" with
      | Some role => if is_str role "assistant" then true else byIdentity
      | None => byIdentity
      end
  | _ => byIdentity
  end.

Definition hasTrack (trackSid : string) (tracks : list (string * AudioElement)) : bool :=
  existsb (fun entry => String.eqb (fst entry) trackSid) tracks.

Definition handleAssistantAudioTrack (track : RemoteTrack) : M unit :=
  tracks ← read attachedTracks;
  if negb (String.eqb (sid track) "") && hasTrack (sid track) tracks then ret tt
  else
    perform (AttachTrack (sid track));;
    when (negb (String.eqb (sid track) ""))
      (write (fun s => set_attachedTracks (attachedTracks s ++ [(sid track, TheElement)]) s)).

Definition setupAssistantTracks (p : RemoteParticipant) : M unit :=
  forEach (trackPublications p) (fun publication =>
    match publication with
    | Some track => handleAssistantAudioTrack track
    | None => ret tt
    end);;
  perform (ListenSpeaking (ref p)).

Definition detachTrack (trackSid : string) : M unit :=
  tracks ← read attachedTracks;
  if hasTrack trackSid tracks then
    perform (DetachElement trackSid);;
    write (fun s => set_attachedTracks
      (List.filter (fun entry => negb (String.eqb (fst entry) trackSid)) (attachedTracks s)) s)
  else ret tt.

Definition cleanupParticipantTracks (p : RemoteParticipant) : M unit :=
  forEach (trackPublications p) (fun publication =>
    match publication with
    | Some track => when (negb (String.eqb (sid track) "")) (detachTrack (sid track))
    | None => ret tt
    end).

Definition cleanupAllTracks : M unit :=
  tracks ← read attachedTracks;
  forEach tracks (fun entry => detachTrack (fst entry));;
  write (set_attachedTracks []).

Definition checkExistingParticipants (present : list RemoteParticipant) : M unit :=
  rm ← read room;
  match rm with
  | None => ret tt
  | Some _ =>
      forEach present (fun participant =>
        assistant ← read assistantParticipant;
        if isAssistantParticipant participant && negb (bool_decide (is_Some assistant)) then
          write (set_assistantParticipant (Some participant));;
          setupAssistantTracks participant
        else ret tt)
  end.

(** *** Voice call *)

Definition toggleMute (r : fetched) (trackOp : option NativeError) : M bool :=
  id ← read currentCallId;
  if negb (truthy id) then throw (plainError "No active call" "NO_ACTIVE_CALL")
  else
    track ← read localAudioTrack;
    match track with
    | None => throw (plainError "No active audio track" "NO_AUDIO_TRACK")
    | Some t =>
        let currentMuted := isMuted t in
        let newMuted := negb currentMuted in
        logged (
          url ← read (fun s => callPath s "/mute");
          perform (Post url (VObj [("muted", VBool newMuted)]));;
          resp ← awaitFetch r;
          data ← json (snd resp);
          checkResponse (fst resp) data;;
          perform (if newMuted then MuteLocalTrack else UnmuteLocalTrack);;
          await trackOp;;
          write (set_localAudioTrack (Some (mkLocalTrack newMuted)));;
          emit (EvMicrophoneMuted newMuted);;
          ret newMuted)
    end.

(** [isMuted()]. *)
Definition isMutedNow : M bool :=
  track ← read localAudioTrack;
  ret (match track with Some t => isMuted t | None => true end).

Definition endCall (r : fetched) (disconnecting : option NativeError) : M unit :=
  st ← read callState;
  id ← read currentCallId;
  if bool_decide (st = IDLE) || negb (truthy id) then ret tt
  else
    setState DISCONNECTING;;
    try_catch (
      stopMessagePolling;;
      url ← read (fun s => callPath s "/end");
      perform (Post url VUndefined);;
      resp ← awaitFetch r;
      data ← json (snd resp);
      (if negb (ok (fst resp)) then ret tt
       else (_ ← field data "success"; ret tt));;
      ac ← read abortController;
      match ac with
      | Some _ => perform AbortConnect;; write (set_abortController None)
      | None => ret tt
      end;;
      cleanupAllTracks;;
      track ← read localAudioTrack;
      rm ← read room;
      match track, rm with
      | Some _, Some _ =>
          perform UnpublishTrack;;
          perform StopLocalTrack;;
          write (set_localAudioTrack None)
      | _, _ => ret tt
      end;;
      write (set_assistantParticipant None);;
      rm ← read room;
      match rm with
      | Some _ =>
          perform RoomDisconnect;;
          await disconnecting;;
          write (set_room None)
      | None => ret tt
      end;;
      write (set_currentCallId VNull);;
      write (set_seenMessageIds ∅);;
      setState DISCONNECTED)
    (fun error => emit (EvError error);; throw error).

(** What else runs on the event loop while [connectToRoom] is suspended in
    an [await]: nothing that touches the controller, or a call of
    [endCall()] that runs to its end. *)
Inductive meanwhile :=
| Undisturbed
| EndCallRuns (r : fetched) (disconnecting : option NativeError).

(** The other call's own promise carries its rejection. *)
Definition interleave (w : meanwhile) : M unit :=
  match w with
  | Undisturbed => ret tt
  | EndCallRuns r d => try_catch (endCall r d) (fun _ => ret tt)
  end.

Record Attempt := mkAttempt {
  connectResult : option NativeError;
  whileConnecting : meanwhile;
  whileWaiting : meanwhile
}.

Definition isAuthFailure (error : NativeError) : bool :=
  let errorMessage := toLowerCase (native_message error) in
  includes "unauthorized" errorMessage || includes "forbidden" errorMessage.

(** [retryDelay * Math.pow(1.5, attempt - 1)], in exact arithmetic. *)
Definition backoff (base : Q) (attempt : Z) : Q :=
  (base * Qpower (3 # 2) (attempt - 1))%Q.

(** The [for] loop of [connectToRoom]; [fuel] bounds the number of
    iterations and [Z.to_nat maxRetryAttempts] is always enough. *)
Fixpoint connectLoop (fuel : nat) (attempt : Z) (env : Z -> Attempt) : M unit :=
  match fuel with
  | O => ret tt
  | S fuel' =>
      cfg ← read config;
      if negb (attempt <=? maxRetryAttempts cfg) then ret tt
      else
        ac ← read abortController;
        match ac with
        | None => throw TypeError
        | Some controller =>
            if aborted controller
            then throw (SDK (ConnectionError "Connection aborted" None))
            else
              rm ← read room;
              failure ←
                match rm with
                | None => ret (Some (mkNative "TypeError"
                                "Cannot read properties of null or undefined"))
                | Some _ =>
                    perform (RoomConnect attempt);;
                    interleave (whileConnecting (env attempt));;
                    ret (connectResult (env attempt))
                end;
              match failure with
              | None => ret tt
              | Some error =>
                  if isAuthFailure error then
                    throw (SDK (ConnectionError "Authentication failed"
                                  (Some (DCause error))))
                  else if attempt =? maxRetryAttempts cfg then
                    throw (SDK (ConnectionError
                      ("Failed to connect after " ++ string_of_Z attempt ++ " attempts")
                      (Some (DCause error))))
                  else
                    perform (Sleep (backoff (retryDelay cfg) attempt));;
                    interleave (whileWaiting (env attempt));;
                    connectLoop fuel' (attempt + 1) env
              end
        end
  end.

(** [connectToRoom(url, token)]; the url and the token are handed to
    [room.connect] unchanged and play no part in the control flow. *)
Definition connectToRoom (env : Z -> Attempt) : M unit :=
  rm ← read room;
  match rm with
  | None => throw (SDK (ConnectionError "Room not initialized" None))
  | Some _ =>
      write (set_abortController (Some (mkAbort false)));;
      cfg ← read config;
      connectLoop (Z.to_nat (maxRetryAttempts cfg)) 1 env
  end.

Definition createRoom : M unit :=
  perform NewRoom;;
  write (set_room (Some TheRoom)).

(** [activateAudioContext()] swallows whatever the browser throws and
    touches no field of the controller. *)
Definition activateAudioContext : M unit := ret tt.

Definition publishLocalAudio (acquiring publishing : option NativeError) : M unit :=
  rm ← read room;
  match rm with
  | None => throw (SDK (ConnectionError "Room not initialized" None))
  | Some _ =>
      try_catch (
        perform CreateLocalAudioTrack;;
        await acquiring;;
        write (set_localAudioTrack (Some (mkLocalTrack false)));;
        perform PublishTrack;;
        await publishing)
      (fun error => throw (SDK (MediaDevicesError "Failed to access microphone"
                                  (cause_of error))))
  end.

(** The external results [startCall] waits for, in the order it asks. *)
Record Bootstrap := mkBootstrap {
  tokenResponse : fetched;
  connecting : Z -> Attempt;
  acquiring : option NativeError;
  publishing : option NativeError;
  present : list RemoteParticipant
}.

(** The [try] block of [startCall]. *)
Definition bootstrap (assistantId : string) (callMetadata : value)
    (env : Bootstrap) : M unit :=
  tokenData ← fetchToken assistantId callMetadata (tokenResponse env);
  callId ← field tokenData "callId";
  write (set_currentCallId callId);;
  createRoom;;
  activateAudioContext;;
  connectToRoom (connecting env);;
  publishLocalAudio (acquiring env) (publishing env);;
  checkExistingParticipants (present env);;
  startMessagePolling;;
  setState CONNECTED.

(** The [catch] block of [startCall]. *)
Definition bootstrapFailed (error : exn) : M unit :=
  setState IDLE;;
  write (set_currentCallId VNull);;
  emit (EvError error);;
  throw error.

Definition startCall (assistantId : string) (callMetadata : value)
    (env : Bootstrap) : M unit :=
  st ← read callState;
  if negb (bool_decide (st = IDLE)) && negb (bool_decide (st = DISCONNECTED))
  then throw (plainError "A call is already in progress" "CALL_IN_PROGRESS")
  else
    setState CONNECTING;;
    write (set_seenMessageIds ∅);;
    try_catch (bootstrap assistantId callMetadata env) bootstrapFailed.

(** *** Handlers registered on the room by [setupRoomEventHandlers] *)

Definition onRoomDisconnected (reason : option string) : M unit :=
  setState DISCONNECTED;;
  stopMessagePolling;;
  emit (EvDisconnected reason).

Definition onParticipantConnected (p : RemoteParticipant) : M unit :=
  assistant ← read assistantParticipant;
  if isAssistantParticipant p && negb (bool_decide (is_Some assistant)) then
    write (set_assistantParticipant (Some p));;
    setupAssistantTracks p
  else ret tt.

Definition onParticipantDisconnected (p : RemoteParticipant) : M unit :=
  assistant ← read assistantParticipant;
  match assistant with
  | Some a =>
      if Nat.eqb (ref a) (ref p) then
        cleanupParticipantTracks p;;
        write (set_assistantParticipant None)
      else ret tt
  | None => ret tt
  end.

Definition onTrackSubscribed (track : RemoteTrack) (p : RemoteParticipant) : M unit :=
  assistant ← read assistantParticipant;
  match kind track, assistant with
  | Audio, Some a =>
      if Nat.eqb (ref a) (ref p) then handleAssistantAudioTrack track else ret tt
  | _, _ => ret tt
  end.

Definition onTrackUnsubscribed (track : RemoteTrack) : M unit :=
  when (negb (String.eqb (sid track) "")) (detachTrack (sid track)).

Definition onMediaDevicesError (error : NativeError) : M unit :=
  emit (EvError (SDK (MediaDevicesError (native_message error) (Some (DCause error))))).

(** *** Text chat *)

Definition chatIdPath (s : Wespoke) (suffix : string) : string :=
  chatPath s ("/" ++ toString (currentChatId s) ++ suffix).

Definition endChatSession (r : fetched) : M unit :=
  st ← read callState;
  ac ← read chatAbortController;
  chat ← read currentChatId;
  if bool_decide (st = CONNECTING) && bool_decide (is_Some ac) && negb (truthy chat) then
    write (set_shouldEndChatAfterStart true);;
    perform AbortChatRequest;;
    write (set_chatAbortController (Some (mkAbort true)));;
    setState IDLE
  else if negb (truthy chat) then
    write (set_shouldEndChatAfterStart false)
  else
    setState DISCONNECTING;;
    try_catch (
      url ← read (fun s => chatIdPath s "/end");
      perform (Post url VUndefined);;
      resp ← awaitFetch r;
      data ← json (snd resp);
      (if negb (ok (fst resp)) then ret tt
       else (_ ← field data "success"; ret tt));;
      write (set_currentChatId VNull);;
      write (set_seenMessageIds ∅);;
      write (set_shouldEndChatAfterStart false);;
      setState DISCONNECTED;;
      emit (EvDisconnected (Some "Chat session ended")))
    (fun error =>
      write (set_currentChatId VNull);;
      write (set_shouldEndChatAfterStart false);;
      write (set_seenMessageIds ∅);;
      setState DISCONNECTED;;
      emit (EvDisconnected (Some "Chat session ended with error"));;
      emit (EvError error);;
      throw error).

(** The external results [startChatSession] waits for: the answer to the
    creation request, how many times [endChatSession()] is called while that
    request is pending, and the answer to the termination request made when
    the session has to be torn down at once. *)
Record ChatStart := mkChatStart {
  creation : fetched;
  endRequests : nat;
  termination : fetched
}.

(** [endChatSession()] is called while the creation request is pending. *)
Definition endRequested (env : ChatStart) : bool :=
  negb (Nat.eqb (endRequests env) 0).

Definition isAbortError (error : exn) : bool :=
  match error with
  | Native e => String.eqb (native_name e) "AbortError"
  | SDK e => String.eqb (name e) "AbortError"
  end.

Definition startChatSession (assistantId : string) (callMetadata : value)
    (env : ChatStart) : M unit :=
  chat ← read currentChatId;
  if truthy chat
  then throw (plainError "A chat session is already in progress" "CHAT_IN_PROGRESS")
  else
    st ← read callState;
    call ← read currentCallId;
    if (negb (bool_decide (st = IDLE)) && negb (bool_decide (st = DISCONNECTED)))
       || truthy call
    then throw (plainError "Cannot start chat while a voice call is active"
                  "CALL_IN_PROGRESS")
    else
      setState CONNECTING;;
      write (set_seenMessageIds ∅);;
      write (set_chatAbortController (Some (mkAbort false)));;
      write (set_shouldEndChatAfterStart false);;
      finally (
        try_catch (
          url ← read (fun s => chatPath s "");
          perform (Post url (VObj [("assistantId", VStr assistantId);
                                   ("metadata", or_else callMetadata (VObj []))]));;
          forEach (List.repeat tt (endRequests env)) (fun _ =>
            try_catch (endChatSession (termination env)) (fun _ => ret tt));;
          resp ← awaitFetch (creation env);
          data ← json (snd resp);
          checkResponse (fst resp) data;;
          d ← field data "data";
          chatId ← field d "chatId";
          write (set_currentChatId chatId);;
          flag ← read shouldEndChatAfterStart;
          if flag then endChatSession (termination env)
          else (setState CONNECTED;; emit EvConnected))
        (fun error =>
          if isAbortError error then
            setState IDLE;;
            emit (EvDisconnected (Some "Chat session start aborted"))
          else
            setState IDLE;;
            emit (EvDisconnected (Some "Chat session failed to start"));;
            emit (EvError error);;
            throw error))
      (write (set_chatAbortController None)).

(** *** The streaming answer to a chat message *)

(** One record of the event stream as the [switch] of [handleSSEStream]
    sees it: [eventType] is the trimmed text of its [event:] line (empty
    when there is none), [eventData] the decoded [data:] line ([VNull] when
    there is none or it does not decode), [now] the reading of [Date.now()]
    while the record is handled. *)
Record SSERecord := mkRecord {
  eventType : string;
  eventData : value;
  now : Z
}.

(** One [reader.read()]: the records completed by the chunk it delivered,
    or a failure of the stream; the end of the list is [done]. *)
Inductive ReadResult :=
| Chunk (records : list SSERecord)
| ReadError (e : NativeError).

Inductive flow :=
| Continue (currentMessageId accumulatedContent : value)
| Return.

(** The white space that [s.trim()] strips (WhiteSpace and LineTerminator
    of ECMAScript) in UTF-8: the bytes 9 to 13 and 32, the two bytes of
    U+00A0, and the three bytes of U+1680, U+2000 to U+200A, U+2028, U+2029,
    U+202F, U+205F, U+3000 and U+FEFF. *)
Definition space2 (a b : ascii) : bool :=
  ((nat_of_ascii a =? 194) && (nat_of_ascii b =? 160))%nat.

Definition space3 (a b c : ascii) : bool :=
  let x := nat_of_ascii a in
  let y := nat_of_ascii b in
  let z := nat_of_ascii c in
  ((x =? 225) && (y =? 154) && (z =? 128)
   || (x =? 226) && (y =? 128)
      && ((128 <=? z) && (z <=? 138) || (z =? 168) || (z =? 169) || (z =? 175))
   || (x =? 226) && (y =? 129) && (z =? 159)
   || (x =? 227) && (y =? 128) && (z =? 128)
   || (x =? 239) && (y =? 187) && (z =? 191))%nat.

Fixpoint trimStart (s : string) : string :=
  match s with
  | EmptyString => EmptyString
  | String a rest1 =>
      if Ascii.is_space a then trimStart rest1
      else match rest1 with
           | EmptyString => s
           | String b rest2 =>
               if space2 a b then trimStart rest2
               else match rest2 with
                    | EmptyString => s
                    | String c rest3 => if space3 a b c then trimStart rest3 else s
                    end
           end
  end.

(** [trimStart] on a string read from its end. *)
Fixpoint trimStartReversed (s : string) : string :=
  match s with
  | EmptyString => EmptyString
  | String c rest1 =>
      if Ascii.is_space c then trimStartReversed rest1
      else match rest1 with
           | EmptyString => s
           | String b rest2 =>
               if space2 b c then trimStartReversed rest2
               else match rest2 with
                    | EmptyString => s
                    | String a rest3 =>
                        if space3 a b c then trimStartReversed rest3 else s
                    end
           end
  end.

(** [s.trim()]. *)
Definition trim (s : string) : string :=
  String.rev (trimStartReversed (String.rev (trimStart s))).

Definition toolEventOf (type : string) (r : SSERecord) : event :=
  EvToolEvent (VObj [
    ("type", VStr type);
    ("toolName", optprop (eventData r) "toolName");
    ("toolType", optprop (eventData r) "toolType");
    ("timestamp", or_else (optprop (eventData r) "timestamp") (VNum (now r)));
    ("toolDetails", or_else (optprop (eventData r) "toolDetails") (VObj []))]).

Definition sseDispatch (r : SSERecord) (currentMessageId accumulatedContent : value)
    : M flow :=
  let type := eventType r in
  let data := eventData r in
  if String.eqb type "" || negb (truthy data)
  then ret (Continue currentMessageId accumulatedContent)
  else if String.eqb type "message:start" then
    ret (Continue
           (or_else (optprop data "messageId")
                    (VStr ("assistant-" ++ string_of_Z (now r))))
           (VStr ""))
  else if String.eqb type "message:chunk" then
    ret (Continue currentMessageId
           (or_else (optprop data "accumulatedContent") accumulatedContent))
  else if String.eqb type "message:complete" then
    let messageData := or_else (optprop data "message") (VObj []) in
    let id := or_else (optprop messageData "id") currentMessageId in
    let role := or_else (optprop messageData "role") (VStr "assistant") in
    content ←
      (if truthy (optprop messageData "content")
       then ret (optprop messageData "content")
       else match accumulatedContent with
            | VStr text => ret (VStr (trim text))
            | _ => throw TypeError
            end);
    let completeMessage := VObj [
      ("id", id);
      ("role", role);
      ("content", content);
      ("timestamp", or_else (optprop data "timestamp") (VNum (now r)));
      ("isComplete", VBool true)] in
    seen ← read seenMessageIds;
    when (negb (has id seen))
      (write (fun s => set_seenMessageIds (add id (seenMessageIds s)) s);;
       emit (EvMessage completeMessage));;
    ret (Continue currentMessageId (VStr ""))
  else if String.eqb type "tool:started" then
    emit (toolEventOf "start" r);; ret (Continue currentMessageId accumulatedContent)
  else if String.eqb type "tool:completed" then
    emit (toolEventOf "complete" r);; ret (Continue currentMessageId accumulatedContent)
  else if String.eqb type "tool:failed" then
    emit (toolEventOf "failed" r);; ret (Continue currentMessageId accumulatedContent)
  else if String.eqb type "knowledge:used" then
    emit (EvKnowledgeUsed (VObj [
      ("sources", or_else (optprop data "sources") (VArr []));
      ("timestamp", or_else (optprop data "timestamp") (VNum (now r)))]));;
    ret (Continue currentMessageId accumulatedContent)
  else if String.eqb type "error" then
    throw (SDK (baseError
      (toString (or_else (optprop data "message") (VStr "Chat error")))
      (or_else (optprop data "code") (VStr "CHAT_ERROR")) None None))
  else if String.eqb type "done" then ret Return
  else ret (Continue currentMessageId accumulatedContent).

Fixpoint sseRecords (records : list SSERecord)
    (currentMessageId accumulatedContent : value) : M flow :=
  match records with
  | [] => ret (Continue currentMessageId accumulatedContent)
  | r :: rest =>
      f ← sseDispatch r currentMessageId accumulatedContent;
      match f with
      | Return => ret Return
      | Continue id acc => sseRecords rest id acc
      end
  end.

Fixpoint sseReads (reads : list ReadResult)
    (currentMessageId accumulatedContent : value) : M unit :=
  match reads with
  | [] => ret tt
  | Chunk records :: rest =>
      f ← sseRecords records currentMessageId accumulatedContent;
      match f with
      | Return => ret tt
      | Continue id acc => sseReads rest id acc
      end
  | ReadError e :: _ => throw (Native e)
  end.

(** [handleSSEStream(response)]; [body] is [None] when the response has no
    body, [started] the reading of [Date.now()] on entry.  The decoding of
    the byte stream into records (buffering up to a blank line, the [event:]
    and [data:] lines, [JSON.parse]) is taken as done: a read delivers the
    records it completes. *)
Definition handleSSEStream (body : option (list ReadResult)) (started : Z) : M unit :=
  match body with
  | None => throw (plainError "No response body" "NO_RESPONSE_BODY")
  | Some reads =>
      finally
        (logged (sseReads reads (VStr ("assistant-" ++ string_of_Z started)) (VStr "")))
        (perform ReleaseReaderLock)
  end.

Definition sendChatMessage (content : string) (stamped sent : Z) (r : fetched)
    (body : option (list ReadResult)) (started : Z) : M unit :=
  chat ← read currentChatId;
  if negb (truthy chat) then throw (plainError "No active chat session" "NO_ACTIVE_CHAT")
  else
    st ← read callState;
    if negb (bool_decide (st = CONNECTED))
    then throw (plainError "Not connected to a chat session" "NOT_CONNECTED")
    else
      try_catch (
        let userMessage := VObj [
          ("id", VStr ("user-" ++ string_of_Z stamped));
          ("role", VStr "user");
          ("content", VStr content);
          ("timestamp", VNum sent);
          ("isComplete", VBool true)] in
        seen ← read seenMessageIds;
        when (negb (has (VStr ("user-" ++ string_of_Z stamped)) seen))
          (write (fun s => set_seenMessageIds
                    (add (VStr ("user-" ++ string_of_Z stamped)) (seenMessageIds s)) s);;
           emit (EvMessage userMessage));;
        url ← read (fun s => chatIdPath s "/messages");
        perform (Post url (VObj [("content", VStr content)]));;
        resp ← awaitFetch r;
        (if negb (ok (fst resp)) then
           (data ← json (snd resp);
            throw (SDK (parseAPIError data (fst resp))))
         else ret tt);;
        handleSSEStream body started)
      (fun error => emit (EvError error);; throw error).

(** *** Construction *)

(** The options given to the constructor; an absent option and a falsy one
    take the same default, so absence is written as the falsy value. *)
Record WespokeConfig := mkOptions {
  given_apiKey : string;
  given_apiUrl : string;
  given_debug : bool;
  given_maxRetryAttempts : Z;
  given_retryDelay : Q
}.

Definition construct (given : WespokeConfig) : WespokeError + Wespoke :=
  if String.eqb (given_apiKey given) "" then
    inl (ConfigurationError "API key is required" None)
  else if negb (startsWith "pk_" (given_apiKey given)) then
    inl (ConfigurationError
           "Invalid API key format. Must start with pk_live_ or pk_test_" None)
  else
    inr {|
      config := {|
        apiKey := given_apiKey given;
        apiUrl := if String.eqb (given_apiUrl given) ""
                  then "https://api.wespoke.com.tr" else given_apiUrl given;
        debug := given_debug given;
        maxRetryAttempts := if given_maxRetryAttempts given =? 0
                            then 3 else given_maxRetryAttempts given;
        retryDelay := if Qeq_bool (given_retryDelay given) 0
                      then 2000%Q else given_retryDelay given |};
      room := None;
      localAudioTrack := None;
      assistantParticipant := None;
      attachedTracks := [];
      callState := IDLE;
      currentCallId := VNull;
      currentChatId := VNull;
      abortController := None;
      chatAbortController := None;
      pollInterval := None;
      seenMessageIds := ∅;
      shouldEndChatAfterStart := false |}.

(** *** The earlier copy of the controller (no chat support) *)

Module Legacy.

(** [toggleMute()] of the earlier copy: the same steps, but the value
    returned is the enabled state. *)
Definition toggleMute (r : fetched) (trackOp : option NativeError) : M bool :=
  id ← read currentCallId;
  if negb (truthy id) then throw (plainError "No active call" "NO_ACTIVE_CALL")
  else
    track ← read localAudioTrack;
    match track with
    | None => throw (plainError "No active audio track" "NO_AUDIO_TRACK")
    | Some t =>
        let currentMuted := isMuted t in
        let newMuted := negb currentMuted in
        logged (
          url ← read (fun s => callPath s "/mute");
          perform (Post url (VObj [("muted", VBool newMuted)]));;
          resp ← awaitFetch r;
          data ← json (snd resp);
          checkResponse (fst resp) data;;
          perform (if newMuted then MuteLocalTrack else UnmuteLocalTrack);;
          await trackOp;;
          write (set_localAudioTrack (Some (mkLocalTrack newMuted)));;
          emit (EvMicrophoneMuted newMuted);;
          ret (negb newMuted))
    end.

End Legacy.

(** ** Sessions: sequences of calls on one controller *)

(** An invocation of a public method, or of a handler by the transport or
    the timer, with the external results it meets. *)
Inductive call :=
| StartCall (assistantId : string) (callMetadata : value) (env : Bootstrap)
| EndCall (r : fetched) (disconnecting : option NativeError)
| ToggleMute (r : fetched) (trackOp : option NativeError)
| StartChatSession (assistantId : string) (callMetadata : value) (env : ChatStart)
| EndChatSession (r : fetched)
| SendChatMessage (content : string) (stamped sent : Z) (r : fetched)
    (body : option (list ReadResult)) (started : Z)
| PollTick (r : fetched)
| DataReceived (decoded : option value)
| RoomDisconnected (reason : option string)
| ParticipantConnected (p : RemoteParticipant)
| ParticipantDisconnected (p : RemoteParticipant)
| TrackSubscribed (track : RemoteTrack) (p : RemoteParticipant)
| TrackUnsubscribed (track : RemoteTrack).

(** The caller of a method receives its rejection; the controller goes on. *)
Definition settle {A} (m : M A) : M unit :=
  try_catch (bind m (fun _ => ret tt)) (fun _ => ret tt).

Definition invoke (c : call) : M unit :=
  match c with
  | StartCall a md env => settle (startCall a md env)
  | EndCall r d => settle (endCall r d)
  | ToggleMute r t => settle (toggleMute r t)
  | StartChatSession a md env => settle (startChatSession a md env)
  | EndChatSession r => settle (endChatSession r)
  | SendChatMessage c t1 t2 r b t0 => settle (sendChatMessage c t1 t2 r b t0)
  | PollTick r => pollTick r
  | DataReceived d => handleDataChannelMessage d
  | RoomDisconnected reason => onRoomDisconnected reason
  | ParticipantConnected p => onParticipantConnected p
  | ParticipantDisconnected p => onParticipantDisconnected p
  | TrackSubscribed t p => onTrackSubscribed t p
  | TrackUnsubscribed t => onTrackUnsubscribed t
  end.

Definition session (calls : list call) : M unit := forEach calls invoke.

(** ** Reading traces *)

Fixpoint stateChanges (t : list obs) : list CallState :=
  match t with
  | [] => []
  | Emit (EvStateChange s) :: rest => s :: stateChanges rest
  | _ :: rest => stateChanges rest
  end.

(** The [message] events of a trace, in order. *)
Fixpoint messages (t : list obs) : list value :=
  match t with
  | [] => []
  | Emit (EvMessage m) :: rest => m :: messages rest
  | _ :: rest => messages rest
  end.

(** The [message] events that bear the id [i]. *)
Definition bearing (i : string) (ms : list value) : list value :=
  List.filter (fun m => is_str (optprop m "id") i) ms.

Local Open Scope list_scope.

(** A payload whose type tag makes it a conversation message. *)
Definition conversation (data : value) : bool :=
  match prop data "type" with
  | Some type => is_str type "message" || is_str type "conversation_item"
  | None => false
  end.

(** [isComplete] of a payload or of an emitted message. *)
Definition complete (m : value) : bool := truthy (optprop m "isComplete").

(** The message bears the id [i]. *)
Definition bears (i : string) (m : value) : bool := is_str (optprop m "id") i.

(** The string [i] is in the ledger. *)
Definition seenId (i : string) (s : Wespoke) : Prop :=
  (inl (inl i) : key) ∈ seenMessageIds s.

(** The control API accepted the request: a 2xx response whose body decodes
    and carries a truthy [success]. *)
Definition accepted (r : fetched) : bool :=
  match r with
  | Responded status (inr data) =>
      ok status && match prop data "success" with
                   | Some success => truthy success
                   | None => false
                   end
  | _ => false
  end.

(** A run of deliveries on the push path. *)
Definition pushes (payloads : list (option value)) : M unit :=
  session (map DataReceived payloads).

(** Every message bearing [i] is complete. *)
Definition quiet (i : string) (ms : list value) : Prop :=
  Forall (fun m => bears i m = true -> complete m = true) ms.

(** Once a complete message bearing [i] has been emitted, every later
    message bearing [i] is complete. *)
Fixpoint ordered (i : string) (ms : list value) : Prop :=
  match ms with
  | [] => True
  | m :: rest =>
      (bears i m = true -> complete m = true -> quiet i rest) /\ ordered i rest
  end.

(** A result with [t] put in front of its trace. *)
Definition pre {A} (t : list obs) (o : Out A) : Out A :=
  mkOut (outcome o) (final o) (t ++ trace o).

(** A connect attempt that fails for a reason other than authentication,
    with nothing else running meanwhile. *)
Definition transient (a : Attempt) : Prop :=
  exists error, connectResult a = Some error /\ isAuthFailure error = false
    /\ whileConnecting a = Undisturbed /\ whileWaiting a = Undisturbed.

(** [n] failed attempts from attempt [first] on, each followed by its wait. *)
Fixpoint retries (base : Q) (first : Z) (n : nat) : list obs :=
  match n with
  | O => []
  | S n' =>
      Do (RoomConnect first) :: Do (Sleep (backoff base first))
        :: retries base (first + 1) n'
  end.

(** The accumulation buffer after the [message:chunk] records [chunks]. *)
Definition buffered (chunks : list SSERecord) (accumulatedContent : value) : value :=
  fold_left (fun acc r => or_else (optprop (eventData r) "accumulatedContent") acc)
    chunks accumulatedContent.

(** The message object of a [message:complete] record. *)
Definition messageDataOf (r : SSERecord) : value :=
  or_else (optprop (eventData r) "message") (VObj []).

(** The content of the final message: the server's when it supplies one,
    else the trimmed buffer, which must then be a string. *)
Definition finalContent (r : SSERecord) (accumulatedContent : value) : option value :=
  if truthy (optprop (messageDataOf r) "content")
  then Some (optprop (messageDataOf r) "content")
  else match accumulatedContent with
       | VStr text => Some (VStr (trim text))
       | _ => None
       end.

(** No controller with a raised abort signal is stored. *)
Definition unsignalled (s : Wespoke) : Prop :=
  forall c, abortController s = Some c -> aborted c = false.

(** A computation keeps a property of the controller. *)
Definition keeps (P : Wespoke -> Prop) {A} (m : M A) : Prop :=
  forall s, P s -> P (final (m s)).

(** ** Concrete sessions *)

Definition demo_options : WespokeConfig := mkOptions "pk_test_demo" "" false 0 0%Q.

Definition demo_config : Config :=
  mkConfig "pk_test_demo" "https://api.wespoke.com.tr" false 3 2000%Q.

(** A freshly constructed controller. *)
Definition demo_idle : Wespoke :=
  mkWespoke demo_config None None None [] IDLE VNull VNull None None None ∅ false.

(** The controller in a voice call. *)
Definition demo_in_call : Wespoke :=
  mkWespoke demo_config (Some TheRoom) (Some (mkLocalTrack false)) None []
    CONNECTED (VStr "call_1") VNull (Some (mkAbort false)) None (Some TheTimer) ∅ false.

(** The controller in a chat session. *)
Definition demo_in_chat : Wespoke :=
  mkWespoke demo_config None None None [] CONNECTED VNull (VStr "chat_1")
    None None None ∅ false.

Definition demo_success : fetched :=
  Responded 200 (inr (VObj [("success", VBool true)])).

Definition demo_token : fetched :=
  Responded 200 (inr (VObj [
    ("success", VBool true);
    ("data", VObj [("callId", VStr "call_1"); ("token", VStr "tok");
                   ("url", VStr "wss://rtc.example"); ("roomName", VStr "room_1")])])).

Definition demo_no_credits : value :=
  VObj [("success", VBool false);
        ("error", VObj [("code", VStr "X"); ("message", VStr "no credits")])].

Definition demo_server_error : value :=
  VObj [("success", VBool false);
        ("error", VObj [("code", VStr "INTERNAL"); ("message", VStr "try later")])].

Definition demo_quiet_attempt : Attempt := mkAttempt None Undisturbed Undisturbed.

Definition demo_bootstrap (token : fetched) (connecting : Z -> Attempt) : Bootstrap :=
  mkBootstrap token connecting None None [].

(** The first connect attempt fails with a network error and [endCall()]
    runs during the backoff wait that follows. *)
Definition demo_endCall_meanwhile (attempt : Z) : Attempt :=
  if attempt =? 1 then
    mkAttempt (Some (mkNative "Error" "network timeout")) Undisturbed
      (EndCallRuns demo_success None)
  else demo_quiet_attempt.

(** Two transient failures, then a successful connect. *)
Definition demo_third_time_lucky (attempt : Z) : Attempt :=
  if attempt <? 3 then
    mkAttempt (Some (mkNative "Error" "network timeout")) Undisturbed Undisturbed
  else demo_quiet_attempt.

Definition demo_chat_created : fetched :=
  Responded 200 (inr (VObj [
    ("success", VBool true);
    ("data", VObj [("chatId", VStr "chat_1")])])).

Definition demo_chat_start : ChatStart :=
  mkChatStart demo_chat_created 0 demo_success.

(** A conversation message on the data channel. *)
Definition demo_push (id content : string) (isComplete : bool) : value :=
  VObj [("type", VStr "message"); ("id", VStr id); ("role", VStr "assistant");
        ("content", VStr content); ("timestamp", VNum 1700000000000);
        ("isComplete", VBool isComplete)].

(** A message as the control API lists it. *)
Definition demo_polled (id content : string) : value :=
  VObj [("id", VStr id); ("role", VStr "assistant"); ("content", VStr content);
        ("timestamp", VNum 1700000000000)].

Definition demo_poll_response (ms : list value) : fetched :=
  Responded 200 (inr (VObj [("success", VBool true);
                            ("data", VObj [("messages", VArr ms)])])).

Definition demo_record (type : string) (data : value) : SSERecord :=
  mkRecord type data 1700000000500.

Definition demo_start : SSERecord :=
  demo_record "message:start" (VObj [("messageId", VStr "m1")]).

Definition demo_chunks : list SSERecord := [
  demo_record "message:chunk" (VObj [("accumulatedContent", VStr "Hel")]);
  demo_record "message:chunk" (VObj [("accumulatedContent", VStr "Hello")]);
  demo_record "message:chunk" (VObj [("accumulatedContent", VStr "Hello there")])].

(** The closing record, with the fields [extra] added to its message. *)
Definition demo_complete (extra : list (string * value)) : SSERecord :=
  demo_record "message:complete"
    (VObj [("message", VObj (("id", VStr "m1") :: extra))]).

(** The records of an answer as two reads deliver them. *)
Definition demo_reads (extra : list (string * value)) : list (list SSERecord) :=
  [demo_start :: take 1 demo_chunks; drop 1 demo_chunks ++ [demo_complete extra]].

(** Every announced state differs from the one before it, starting after
    [s0] and ending in [s1]. *)
Fixpoint follows (s0 : CallState) (l : list CallState) (s1 : CallState) : Prop :=
  match l with
  | [] => s0 = s1
  | x :: rest => s0 <> x /\ follows x rest s1
  end.

(** A computation announces every change of [callState], and nothing else,
    as a [stateChange]. *)
Definition announces {A} (m : M A) : Prop :=
  forall s, follows (callState s) (stateChanges (trace (m s))) (callState (final (m s))).

Definition adjacent_distinct (l : list CallState) : Prop :=
  forall i x y, l !! i = Some x -> l !! (S i) = Some y -> x <> y.

(** ** Further methods of [Wespoke] *)

(** [sendMessage(message)]: a text message to the assistant of the voice
    call. *)
Definition sendMessage (message : string) (r : fetched) : M unit :=
  id ← read currentCallId;
  if negb (truthy id) then throw (plainError "No active call" "NO_ACTIVE_CALL")
  else
    st ← read callState;
    if negb (bool_decide (st = CONNECTED))
    then throw (plainError "Not connected to a call" "NOT_CONNECTED")
    else logged (
      url ← read (fun s => callPath s "/messages");
      perform (Post url (VObj [("message", VStr message)]));;
      resp ← awaitFetch r;
      data ← json (snd resp);
      checkResponse (fst resp) data).

(** ** The text of the event stream *)

Module JSString.

(** [s.slice(n)] for [0 <= n]. *)
Fixpoint slice (n : nat) (s : string) : string :=
  match n, s with
  | O, _ => s
  | S n', String _ rest => slice n' rest
  | S _, EmptyString => EmptyString
  end.

(** The scan of [s.split(sep)] for a non-empty [sep], from left to right:
    the piece being read and the pieces after it.  [skip] counts the
    characters of a separator just found that are still to be passed over. *)
Fixpoint splitFrom (sep : string) (skip : nat) (s : string) : string * list string :=
  match s with
  | EmptyString => (EmptyString, [])
  | String c rest =>
      match skip with
      | S k => splitFrom sep k rest
      | O =>
          if String.prefix sep s then
            (EmptyString,
             let (piece, pieces) := splitFrom sep (String.length sep - 1) rest in
             piece :: pieces)
          else
            let (piece, pieces) := splitFrom sep 0 rest in
            (String c piece, pieces)
      end
  end.

(** [s.split(sep)]: never empty. *)
Definition split (sep s : string) : list string :=
  let (piece, pieces) := splitFrom sep 0 s in piece :: pieces.

End JSString.

(** A line feed, and the blank line that ends a record of the stream. *)
Definition LF : string := String (ascii_of_nat 10) EmptyString.
Definition blankLine : string := (LF ++ LF)%string.

(** [buffer += chunk; messages = buffer.split('\n\n');
    buffer = messages.pop() || ''], giving the complete records and the new
    buffer. *)
Definition sseFeed (buffer chunk : string) : list string * string :=
  let messages := JSString.split blankLine (buffer ++ chunk)%string in
  (removelast messages, List.last messages "").

(** The body of [for (const line of lines)]: a line sets the event type, or
    the data when [JSON.parse] ([parse]) accepts what follows the prefix;
    any other line is passed over. *)
Definition sseLine (parse : string -> option value) (acc : string * value)
    (line : string) : string * value :=
  if startsWith "event: " line then (trim (JSString.slice 7 line), snd acc)
  else if startsWith "data: " line then
    match parse (JSString.slice 6 line) with
    | Some data => (fst acc, data)
    | None => acc
    end
  else acc.

(** One record between two blank lines: skipped when it is blank or a
    comment, else read line by line into [eventType] and [eventData]. *)
Definition sseMessage (parse : string -> option value) (message : string)
    : option (string * value) :=
  if String.eqb (trim message) "" || startsWith ": " message then None
  else Some (fold_left (sseLine parse) (JSString.split LF message) ("", VNull)).

(** What [reader.read()] delivers, after [decoder.decode(value, {stream:
    true})]: a piece of text, or a failure of the stream. *)
Inductive TextRead :=
| Text (chunk : string)
| TextError (e : NativeError).

(** The records with the reading of [Date.now()] at which each is handled;
    [clock n] is the reading for the [n]-th record of the stream. *)
Fixpoint stamp (clock : nat -> Z) (n : nat) (parsed : list (string * value))
    : list SSERecord :=
  match parsed with
  | [] => []
  | (type, data) :: rest => mkRecord type data (clock n) :: stamp clock (S n) rest
  end.

(** The reads of the stream as [sseReads] takes them: every piece of text
    is appended to the buffer and gives the records it completes. *)
Fixpoint sseFrames (parse : string -> option value) (clock : nat -> Z) (n : nat)
    (buffer : string) (reads : list TextRead) : list ReadResult :=
  match reads with
  | [] => []
  | Text chunk :: rest =>
      let parsed := omap (sseMessage parse) (fst (sseFeed buffer chunk)) in
      Chunk (stamp clock n parsed)
        :: sseFrames parse clock (n + length parsed) (snd (sseFeed buffer chunk)) rest
  | TextError e :: _ => [ReadError e]
  end.

(** [handleSSEStream(response)] from the text of the body on. *)
Definition handleSSEText (parse : string -> option value) (clock : nat -> Z)
    (body : option (list TextRead)) (started : Z) : M unit :=
  handleSSEStream (option_map (sseFrames parse clock 0 "") body) started.

(** ** The event emitter ([EventEmitter.ts]) *)

Module Emitter.

(** A handler is a function object, compared by identity: a function of the
    caller's ([Fn id]), or the closure [onceHandler] that [once] makes
    around one ([Once serial id]); [serial] tells two such closures apart. *)
Inductive handler :=
| Fn (id : nat)
| Once (serial id : nat).

#[global] Instance handler_eq_dec : EqDecision handler.
Proof. solve_decision. Defined.

(** [events] is the [Map] from event names to [Set]s of handlers, both in
    insertion order; [closures] counts the closures made so far. *)
Record EventEmitter := mkEmitter {
  events : list (string * list handler);
  closures : nat
}.

(** [new EventEmitter()]. *)
Definition empty : EventEmitter := mkEmitter [] 0.

(** [Map.get], [Map.set] and [Map.delete]. *)
Fixpoint get (event : string) (m : list (string * list handler))
    : option (list handler) :=
  match m with
  | [] => None
  | (k, handlers) :: rest => if String.eqb k event then Some handlers else get event rest
  end.

Fixpoint set (event : string) (handlers : list handler)
    (m : list (string * list handler)) : list (string * list handler) :=
  match m with
  | [] => [(event, handlers)]
  | (k, old) :: rest =>
      if String.eqb k event then (k, handlers) :: rest
      else (k, old) :: set event handlers rest
  end.

Definition delete (event : string) (m : list (string * list handler))
    : list (string * list handler) :=
  List.filter (fun entry => negb (String.eqb (fst entry) event)) m.

(** [Set.add] and [Set.delete]. *)
Definition setAdd (h : handler) (handlers : list handler) : list handler :=
  if bool_decide (h ∈ handlers) then handlers else handlers ++ [h].

Definition setDelete (h : handler) (handlers : list handler) : list handler :=
  List.filter (fun h' => negb (bool_decide (h' = h))) handlers.

(** [on(event, handler)]. *)
Definition on (event : string) (h : handler) (e : EventEmitter) : EventEmitter :=
  let m := match get event (events e) with
           | Some _ => events e
           | None => set event [] (events e)
           end in
  match get event m with
  | Some handlers => mkEmitter (set event (setAdd h handlers) m) (closures e)
  | None => mkEmitter m (closures e)
  end.

(** [off(event, handler)]. *)
Definition off (event : string) (h : handler) (e : EventEmitter) : EventEmitter :=
  match get event (events e) with
  | Some handlers =>
      let remaining := setDelete h handlers in
      if (length remaining =? 0)%nat
      then mkEmitter (delete event (events e)) (closures e)
      else mkEmitter (set event remaining (events e)) (closures e)
  | None => e
  end.

(** [once(event, handler)]: the handler of the caller is [Fn id]. *)
Definition once (event : string) (id : nat) (e : EventEmitter) : EventEmitter :=
  on event (Once (closures e) id) (mkEmitter (events e) (S (closures e))).

(** The function of the caller that runs when [h] is called. *)
Definition target (h : handler) : nat :=
  match h with
  | Fn id => id
  | Once _ id => id
  end.

(** One handler called by [emit] inside its [try]: a function of the caller
    runs and what it throws is caught; the closure of [once] runs its
    function and then takes itself off, unless the function throws.
    [throws id data] tells whether the function [id] throws on [data];
    the functions of the caller do not call back into the emitter. *)
Definition callHandler (throws : nat -> value -> bool) (event : string)
    (data : value) (e : EventEmitter) (h : handler) : EventEmitter :=
  match h with
  | Fn _ => e
  | Once serial id => if throws id data then e else off event (Once serial id) e
  end.

(** [emit(event, data)]: the value returned, the emitter afterwards and the
    functions called with their argument, in order.  The handlers are those
    in the set when [emit] is entered: while [forEach] runs, a handler only
    ever removes itself. *)
Definition emit (throws : nat -> value -> bool) (event : string) (data : value)
    (e : EventEmitter) : bool * EventEmitter * list (nat * value) :=
  match get event (events e) with
  | Some handlers =>
      if (length handlers =? 0)%nat then (false, e, [])
      else (true,
            fold_left (callHandler throws event data) handlers e,
            map (fun h => (target h, data)) handlers)
  | None => (false, e, [])
  end.

(** [removeAllListeners(event?)]: an absent and an empty name are both
    falsy. *)
Definition removeAllListeners (event : option string) (e : EventEmitter)
    : EventEmitter :=
  match event with
  | Some name =>
      if negb (String.eqb name "")
      then mkEmitter (delete name (events e)) (closures e)
      else mkEmitter [] (closures e)
  | None => mkEmitter [] (closures e)
  end.

(** [listenerCount(event)] and [eventNames()]. *)
Definition listenerCount (event : string) (e : EventEmitter) : nat :=
  match get event (events e) with
  | Some handlers => length handlers
  | None => 0
  end.

Definition eventNames (e : EventEmitter) : list string := map fst (events e).

(** The handlers registered for an event, in the order of registration. *)
Definition listeners (event : string) (e : EventEmitter) : list handler :=
  match get event (events e) with
  | Some handlers => handlers
  | None => []
  end.

(** A closure [Once serial id] was made before the counter reached [c]. *)
Definition bounded (c : nat) (h : handler) : Prop :=
  match h with
  | Once serial _ => (serial < c)%nat
  | Fn _ => True
  end.

(** A set of handlers that is not empty, holds no handler twice and only
    closures made before [c]. *)
Definition goodEntry (c : nat) (entry : string * list handler) : Prop :=
  snd entry <> [] /\ NoDup (snd entry) /\ Forall (bounded c) (snd entry).

(** No event is listed twice and every set of handlers is a good one. *)
Definition wellFormed (e : EventEmitter) : Prop :=
  NoDup (map fst (events e)) /\ Forall (goodEntry (closures e)) (events e).

(** The calls a client makes. *)
Inductive request :=
| On (event : string) (id : nat)
| OnceOn (event : string) (id : nat)
| Off (event : string) (h : handler)
| EmitTo (event : string) (data : value)
| RemoveAll (event : option string).

Definition serve (throws : nat -> value -> bool) (e : EventEmitter) (q : request)
    : EventEmitter :=
  match q with
  | On event id => on event (Fn id) e
  | OnceOn event id => once event id e
  | Off event h => off event h e
  | EmitTo event data => snd (fst (emit throws event data e))
  | RemoveAll event => removeAllListeners event e
  end.

(** The emitter after a sequence of calls on a new one. *)
Definition after (throws : nat -> value -> bool) (requests : list request)
    : EventEmitter :=
  fold_left (serve throws) requests empty.

End Emitter.

(** ** The widget's transcript (the [message] and [transcription] handlers
    of [WespokeWidget]) *)

Module Widget.

(** [a === b] on decoded values: primitives by value; an object or array is
    only equal to itself, and two decoded payloads are never the same
    object. *)
Definition strictEq (a b : value) : bool :=
  match a, b with
  | VUndefined, VUndefined => true
  | VNull, VNull => true
  | VBool x, VBool y => Bool.eqb x y
  | VNum x, VNum y => x =? y
  | VStr x, VStr y => String.eqb x y
  | _, _ => false
  end.

(** The [WidgetMessage] made from the payload of a [message] event; [named]
    and [stamped] are the readings of [Date.now()] for the id and for the
    timestamp.  Reading a property of [null] or [undefined] throws. *)
Definition widgetMessageOf (message : value) (named stamped : Z) : option value :=
  match message with
  | VUndefined | VNull => None
  | _ =>
      Some (VObj [
        ("id", or_else (optprop message "id") (VStr ("msg-" ++ string_of_Z named)%string));
        ("role", optprop message "role");
        ("content", optprop message "content");
        ("timestamp", or_else (optprop message "timestamp") (VNum stamped))])
  end.

(** [prev.findIndex(m => m.id === id)], [None] for [-1]. *)
Fixpoint findIndex (id : value) (prev : list value) : option nat :=
  match prev with
  | [] => None
  | m :: rest =>
      if strictEq (optprop m "id") id then Some O
      else option_map S (findIndex id rest)
  end.

(** The update that the handler hands to [setMessages]: replace the entry
    with the same id, or append. *)
Definition upsert (widgetMessage : value) (prev : list value) : list value :=
  match findIndex (optprop widgetMessage "id") prev with
  | Some existingIndex => <[existingIndex := widgetMessage]> prev
  | None => prev ++ [widgetMessage]
  end.

(** The transcript after one [message] event; a payload that makes the
    handler throw leaves it as it was. *)
Definition onMessage (prev : list value) (message : value) (named stamped : Z)
    : list value :=
  match widgetMessageOf message named stamped with
  | Some widgetMessage => upsert widgetMessage prev
  | None => prev
  end.

(** The [WidgetMessage] that the [transcription] handler makes: only of a
    final transcription whose text is not blank.  Reading a property of
    [null] or [undefined] throws, and so does [text.trim()] on a text that
    is truthy and not a string. *)
Definition transcriptionMessageOf (transcription : value) (named stamped : Z)
    : option value :=
  match transcription with
  | VUndefined | VNull => None
  | _ =>
      if truthy (optprop transcription "isFinal")
         && truthy (optprop transcription "text") then
        match optprop transcription "text" with
        | VStr text =>
            if negb (String.eqb (trim text) "") then
              Some (VObj [
                ("id", or_else (optprop transcription "transcriptionId")
                         (VStr ("transcription-" ++ string_of_Z named)%string));
                ("role", VStr "user");
                ("content", VStr text);
                ("timestamp", or_else (optprop transcription "timestamp")
                                (VNum stamped))])
            else None
        | _ => None
        end
      else None
  end.

(** The transcript after one [transcription] event: the message is
    appended, whatever its id. *)
Definition onTranscription (prev : list value) (transcription : value)
    (named stamped : Z) : list value :=
  match transcriptionMessageOf transcription named stamped with
  | Some widgetMessage => prev ++ [widgetMessage]
  | None => prev
  end.

(** An event of the SDK that changes the transcript, with the readings of
    the clock at which its handler takes the id and the timestamp. *)
Inductive sdkEvent :=
| MessageEvent (message : value) (named stamped : Z)
| TranscriptionEvent (transcription : value) (named stamped : Z).


Definition handle (prev : list value) (event : sdkEvent) : list value :=
  match event with
  | MessageEvent message named stamped => onMessage prev message named stamped
  | TranscriptionEvent transcription named stamped =>
      onTranscription prev transcription named stamped
  end.

(** The transcript after the events [emitted], from an empty one. *)
Definition transcript (emitted : list sdkEvent) : list value :=
  fold_left handle emitted [].

End Widget.

(** ** The earlier copy of the controller, continued *)

Module Earlier.

(** [handleDataChannelMessage(payload)] of the earlier copy: a conversation
    message whose id is in the ledger is dropped, complete or not, and an id
    enters the ledger before its message is emitted. *)
Definition handleDataChannelMessage (decoded : option value) : M unit :=
  try_catch (
    match decoded with
    | None => throw (Native (mkNative "SyntaxError" "Unexpected token"))
    | Some data =>
        type ← field data "type";
        if is_str type "message" || is_str type "conversation_item" then
          seen ← read seenMessageIds;
          if truthy (optprop data "id") && has (optprop data "id") seen
          then ret tt
          else
            when (truthy (optprop data "id"))
              (write (fun s => set_seenMessageIds
                                 (add (optprop data "id") (seenMessageIds s)) s));;
            emit (EvMessage (conversationMessageOf data))
        else if is_str type "transcription_stream" then
          emit (EvTranscription (VObj [
            ("text", optprop data "text");
            ("transcriptionId", optprop data "transcriptionId");
            ("isFinal", optprop data "isFinal");
            ("timestamp", optprop data "timestamp");
            ("sequence", optprop data "sequence");
            ("isStreaming", optprop data "isStreaming")]))
        else if is_str type "tool_start" || is_str type "tool_complete"
                || is_str type "tool_failed" || is_str type "tool_delayed" then
          emit (EvToolEvent (VObj [
            ("type", VStr (strip_prefix "tool_" (toString type)));
            ("toolName", optprop data "toolName");
            ("toolType", optprop data "toolType");
            ("timestamp", optprop data "timestamp");
            ("toolDetails", or_else (optprop data "toolDetails") (VObj []))]))
        else if is_str type "metrics" then emit (EvMetrics data)
        else if is_str type "barge_in" then emit (EvBargeIn data)
        else if is_str type "call_ending" then
          emit (EvCallEnding (VObj [
            ("reason", optprop data "reason");
            ("message", optprop data "message");
            ("timestamp", optprop data "timestamp")]))
        else ret tt
    end)
  (fun _ => ret tt).

(** The [catch] block of the earlier [startCall]: the state becomes Error
    and the call id stays. *)
Definition bootstrapFailed (error : exn) : M unit :=
  setState ERROR;;
  emit (EvError error);;
  throw error.

(** [startCall] of the earlier copy: the same check and the same [try]
    block, with the other [catch]. *)
Definition startCall (assistantId : string) (callMetadata : value)
    (env : Bootstrap) : M unit :=
  st ← read callState;
  if negb (bool_decide (st = IDLE)) && negb (bool_decide (st = DISCONNECTED))
  then throw (plainError "A call is already in progress" "CALL_IN_PROGRESS")
  else
    setState CONNECTING;;
    write (set_seenMessageIds ∅);;
    try_catch (bootstrap assistantId callMetadata env) bootstrapFailed.

End Earlier.

(** ** What a computation establishes *)

(** [Q] holds of the result, the final controller and the trace of [m]
    started in [s]. *)
Definition wp {A} (m : M A) (Q : result A -> Wespoke -> list obs -> Prop)
    (s : Wespoke) : Prop :=
  Q (outcome (m s)) (final (m s)) (trace (m s)).

(** ** States and runs that the properties speak of *)

(** While a call is being set up: the call id is the one issued, unless the
    room is gone, and the state is not Connected. *)
Definition setting_up (c : value) (s : Wespoke) : Prop :=
  (currentCallId s = c \/ room s = None) /\ callState s <> CONNECTED.

(** The microphone is published in a room, with the call id issued. *)
Definition published (c : value) (s : Wespoke) : Prop :=
  room s = Some TheRoom /\ localAudioTrack s = Some (mkLocalTrack false)
  /\ currentCallId s = c /\ callState s <> CONNECTED.

(** The termination request got an answer that [endChatSession] can read:
    a body that decodes, and with a 2xx status one that is not null or
    undefined. *)
Definition answered (r : fetched) : bool :=
  match r with
  | Responded status (inr data) =>
      negb (ok status) || bool_decide (is_Some (prop data "success"))
  | _ => false
  end.

(** A computation emits messages through the ledger: it never emits a
    message whose id is in the ledger, emits an id at most once, enters in
    the ledger every id it emits, and removes nothing from the ledger. *)
Definition ledgered {A} (m : M A) : Prop :=
  forall (i : string) (s : Wespoke),
    (seenId i s -> bearing i (messages (trace (m s))) = [])
    /\ (length (bearing i (messages (trace (m s)))) <= 1)%nat
    /\ (bearing i (messages (trace (m s))) <> [] -> seenId i (final (m s)))
    /\ seenMessageIds s ⊆ seenMessageIds (final (m s)).

(** The [message] a [sendChatMessage] echoes. *)
Definition userMessageOf (content : string) (stamped sent : Z) : value :=
  VObj [
    ("id", VStr ("user-" ++ string_of_Z stamped)%string);
    ("role", VStr "user");
    ("content", VStr content);
    ("timestamp", VNum sent);
    ("isComplete", VBool true)].

(** One [sendChatMessage] with the external results it meets. *)
Record ChatSend := mkChatSend {
  chatContent : string;
  chatStamped : Z;
  chatSent : Z;
  chatResponse : fetched;
  chatBody : option (list ReadResult);
  chatStarted : Z
}.

Definition sendChat (c : ChatSend) : M unit :=
  settle (sendChatMessage (chatContent c) (chatStamped c) (chatSent c)
            (chatResponse c) (chatBody c) (chatStarted c)).

(** The text of the chunks put together. *)
Definition joined (chunks : list string) : string :=
  fold_right String.append "" chunks.

(** [publishes trackSid p]: one of the publications of [p] has a track
    with the sid [trackSid], which is not empty. *)
Definition publishes (trackSid : string) (p : RemoteParticipant) : bool :=
  existsb (fun publication =>
    match publication with
    | Some track => negb (String.eqb (sid track) "") && String.eqb (sid track) trackSid
    | None => false
    end) (trackPublications p).


(** [ledgered], for the one id [i]. *)
Definition ledgeredAt {A} (i : string) (m : M A) : Prop :=
  forall s : Wespoke,
    (seenId i s -> bearing i (messages (trace (m s))) = [])
    /\ (length (bearing i (messages (trace (m s)))) <= 1)%nat
    /\ (bearing i (messages (trace (m s))) <> [] -> seenId i (final (m s)))
    /\ seenMessageIds s ⊆ seenMessageIds (final (m s)).

(** * Properties *)

(** ** Traces *)

Lemma stateChanges_app t1 t2 :
  stateChanges (t1 ++ t2) = stateChanges t1 ++ stateChanges t2.
Proof.
  induction t1 as [|o t1 IH]; simpl; [reflexivity|].
  destruct o as [e|a]; [destruct e|]; simpl; rewrite ?IH; reflexivity.
Qed.

Lemma messages_app t1 t2 : messages (t1 ++ t2) = messages t1 ++ messages t2.
Proof.
  induction t1 as [|o t1 IH]; simpl; [reflexivity|].
  destruct o as [e|a]; [destruct e|]; simpl; rewrite ?IH; reflexivity.
Qed.

Lemma bearing_app i l1 l2 : bearing i (l1 ++ l2) = bearing i l1 ++ bearing i l2.
Proof. unfold bearing. apply List.filter_app. Qed.

Lemma follows_app a l1 b l2 c :
  follows a l1 b -> follows b l2 c -> follows a (l1 ++ l2) c.
Proof.
  revert a. induction l1 as [|x l1 IH]; simpl; intros a H1 H2.
  - subst. exact H2.
  - destruct H1 as [Hne H1]. split; [exact Hne|]. eapply IH; eassumption.
Qed.

Lemma follows_adjacent_distinct a l b : follows a l b -> adjacent_distinct l.
Proof.
  revert a. induction l as [|x l IH]; intros a H i u v Hu Hv.
  - destruct i; discriminate.
  - destruct H as [_ H]. destruct i as [|i]; simpl in *.
    + injection Hu as <-. destruct l as [|y l]; [discriminate|].
      simpl in Hv. injection Hv as <-. exact (proj1 H).
    + eapply IH; eassumption.
Qed.

(** ** The state is announced by every computation *)

Lemma announces_ret {A} (a : A) : announces (ret a).
Proof. intros s. reflexivity. Qed.

Lemma announces_throw {A} e : announces (@throw A e).
Proof. intros s. reflexivity. Qed.

Lemma announces_read {A} (f : Wespoke -> A) : announces (read f).
Proof. intros s. reflexivity. Qed.

Lemma announces_perform a : announces (perform a).
Proof. intros s. reflexivity. Qed.

Lemma announces_write f :
  (forall s, callState (f s) = callState s) -> announces (write f).
Proof. intros H s. simpl. symmetry. apply H. Qed.

Lemma announces_emit e :
  (forall st, e <> EvStateChange st) -> announces (emit e).
Proof.
  intros H s. destruct e; simpl; try reflexivity. exfalso. eapply H. reflexivity.
Qed.

Lemma announces_bind {A B} (m : M A) (k : A -> M B) :
  announces m -> (forall a, announces (k a)) -> announces (bind m k).
Proof.
  intros Hm Hk s. unfold bind. specialize (Hm s).
  destruct (m s) as [[a|e] s1 t1]; simpl in *; [|exact Hm].
  specialize (Hk a s1). destruct (k a s1) as [r s2 t2]; simpl in *.
  rewrite stateChanges_app. eapply follows_app; eassumption.
Qed.

Lemma announces_try_catch {A} (m : M A) h :
  announces m -> (forall e, announces (h e)) -> announces (try_catch m h).
Proof.
  intros Hm Hh s. unfold try_catch. specialize (Hm s).
  destruct (m s) as [[a|e] s1 t1]; simpl in *; [exact Hm|].
  specialize (Hh e s1). destruct (h e s1) as [r s2 t2]; simpl in *.
  rewrite stateChanges_app. eapply follows_app; eassumption.
Qed.

Lemma announces_finally {A} (m : M A) f :
  announces m -> announces f -> announces (finally m f).
Proof.
  intros Hm Hf s. unfold finally. specialize (Hm s).
  destruct (m s) as [r s1 t1]; simpl in *.
  specialize (Hf s1). destruct (f s1) as [r2 s2 t2]; simpl in *.
  rewrite stateChanges_app. eapply follows_app; eassumption.
Qed.

Lemma announces_forEach {A} (xs : list A) f :
  (forall x, announces (f x)) -> announces (forEach xs f).
Proof.
  intros Hf. induction xs as [|x xs IH]; simpl.
  - apply announces_ret.
  - apply announces_bind; [apply Hf | intros _; exact IH].
Qed.

Lemma announces_setState newState : announces (setState newState).
Proof.
  intros s. unfold setState, bind, read, write, emit, ret. simpl.
  destruct (decide (callState s = newState)) as [Heq|Hne]; simpl;
    [reflexivity | split; [exact Hne | reflexivity]].
Qed.

Create HintDb announce.

#[local] Hint Resolve announces_ret announces_throw announces_read
  announces_perform announces_setState : announce.

(** Take a computation apart along its structure. *)
Ltac announce :=
  repeat first
    [ progress intros
    | solve [auto 1 with announce nocore]
    | apply announces_setState
    | apply announces_ret
    | apply announces_throw
    | apply announces_read
    | apply announces_perform
    | apply announces_write; reflexivity
    | apply announces_emit; discriminate
    | apply announces_bind
    | apply announces_try_catch
    | apply announces_finally
    | apply announces_forEach
    | match goal with
      | |- announces (if ?b then _ else _) => destruct b
      | |- announces (match ?x with _ => _ end) => destruct x
      | |- announces (when ?b _) => unfold when
      | |- announces (logged _) => unfold logged
      | |- announces (settle _) => unfold settle
      | |- announces (field _ _) => unfold field
      | |- announces (await _) => unfold await
      | |- announces (awaitFetch _) => unfold awaitFetch
      | |- announces (json _) => unfold json
      | |- announces (checkResponse _ _) => unfold checkResponse
      | |- announces (interleave _) => unfold interleave
      | |- announces (previewContent _) => unfold previewContent
      end ].

Lemma announces_stopMessagePolling : announces stopMessagePolling.
Proof. unfold stopMessagePolling. announce. Qed.
#[local] Hint Resolve announces_stopMessagePolling : announce.

Lemma announces_detachTrack x : announces (detachTrack x).
Proof. unfold detachTrack. announce. Qed.
#[local] Hint Resolve announces_detachTrack : announce.

Lemma announces_cleanupAllTracks : announces cleanupAllTracks.
Proof. unfold cleanupAllTracks. announce. Qed.
#[local] Hint Resolve announces_cleanupAllTracks : announce.

Lemma announces_handleAssistantAudioTrack t : announces (handleAssistantAudioTrack t).
Proof. unfold handleAssistantAudioTrack. announce. Qed.
#[local] Hint Resolve announces_handleAssistantAudioTrack : announce.

Lemma announces_setupAssistantTracks p : announces (setupAssistantTracks p).
Proof. unfold setupAssistantTracks. announce. Qed.
#[local] Hint Resolve announces_setupAssistantTracks : announce.

Lemma announces_endCall r d : announces (endCall r d).
Proof.
  unfold endCall. announce.
Qed.
#[local] Hint Resolve announces_endCall : announce.

Lemma announces_connectLoop fuel env : forall attempt,
  announces (connectLoop fuel attempt env).
Proof.
  induction fuel as [|fuel IH]; intros attempt; simpl.
  - apply announces_ret.
  - announce.
Qed.
#[local] Hint Resolve announces_connectLoop : announce.

Lemma announces_connectToRoom env : announces (connectToRoom env).
Proof. unfold connectToRoom. announce. Qed.
#[local] Hint Resolve announces_connectToRoom : announce.

Lemma announces_checkExistingParticipants ps :
  announces (checkExistingParticipants ps).
Proof. unfold checkExistingParticipants. announce. Qed.
#[local] Hint Resolve announces_checkExistingParticipants : announce.

Lemma announces_startCall a md env : announces (startCall a md env).
Proof.
  unfold startCall, bootstrap, bootstrapFailed. announce.
Qed.
#[local] Hint Resolve announces_startCall : announce.

Lemma announces_toggleMute r t : announces (toggleMute r t).
Proof. unfold toggleMute. announce. Qed.
#[local] Hint Resolve announces_toggleMute : announce.

Lemma announces_endChatSession r : announces (endChatSession r).
Proof. unfold endChatSession. announce. Qed.
#[local] Hint Resolve announces_endChatSession : announce.

Lemma announces_startChatSession a md env : announces (startChatSession a md env).
Proof. unfold startChatSession. announce. Qed.
#[local] Hint Resolve announces_startChatSession : announce.

Lemma announces_sseDispatch r id acc : announces (sseDispatch r id acc).
Proof. unfold sseDispatch. announce. Qed.
#[local] Hint Resolve announces_sseDispatch : announce.

Lemma announces_sseRecords rs : forall id acc, announces (sseRecords rs id acc).
Proof.
  induction rs as [|r rs IH]; intros id acc; simpl.
  - apply announces_ret.
  - apply announces_bind; [apply announces_sseDispatch|].
    intros [id' acc'|]; [apply IH | apply announces_ret].
Qed.
#[local] Hint Resolve announces_sseRecords : announce.

Lemma announces_sseReads reads : forall id acc, announces (sseReads reads id acc).
Proof.
  induction reads as [|[rs|e] reads IH]; intros id acc; simpl.
  - apply announces_ret.
  - apply announces_bind; [apply announces_sseRecords|].
    intros [id' acc'|]; [apply IH | apply announces_ret].
  - apply announces_throw.
Qed.
#[local] Hint Resolve announces_sseReads : announce.

Lemma announces_handleSSEStream body started : announces (handleSSEStream body started).
Proof. unfold handleSSEStream. announce. Qed.
#[local] Hint Resolve announces_handleSSEStream : announce.

Lemma announces_sendChatMessage c t1 t2 r b t0 :
  announces (sendChatMessage c t1 t2 r b t0).
Proof. unfold sendChatMessage. announce. Qed.
#[local] Hint Resolve announces_sendChatMessage : announce.

Lemma announces_getMessages l o r : announces (getMessages l o r).
Proof. unfold getMessages. announce. Qed.
#[local] Hint Resolve announces_getMessages : announce.

Lemma announces_pollTick r : announces (pollTick r).
Proof. unfold pollTick. announce. Qed.
#[local] Hint Resolve announces_pollTick : announce.

Lemma announces_handleDataChannelMessage d : announces (handleDataChannelMessage d).
Proof. unfold handleDataChannelMessage. announce. Qed.
#[local] Hint Resolve announces_handleDataChannelMessage : announce.

Lemma announces_invoke c : announces (invoke c).
Proof.
  destruct c; simpl; unfold settle.
  - announce.
  - announce.
  - announce.
  - announce.
  - announce.
  - announce.
  - apply announces_pollTick.
  - apply announces_handleDataChannelMessage.
  - unfold onRoomDisconnected. announce.
  - unfold onParticipantConnected. announce.
  - unfold onParticipantDisconnected, cleanupParticipantTracks. announce.
  - unfold onTrackSubscribed. announce.
  - unfold onTrackUnsubscribed. announce.
Qed.

Lemma announces_session calls : announces (session calls).
Proof. unfold session. apply announces_forEach. apply announces_invoke. Qed.

(** ** C10: state changes are announced once *)

(** C10. [setState] emits a [stateChange] exactly when the new state
    differs from the current one, and leaves the controller in the new
    state; hence in the trace of any sequence of calls (the public methods
    [startCall], [endCall], [startChatSession], [endChatSession] and the
    others, and the transport's and timer's handlers), started in any state,
    two consecutive [stateChange] emissions never carry the same state, and
    the first one differs from the state the sequence started in. *)
Theorem stateChange_emitted_iff_state_differs :
  (forall newState s,
     trace (setState newState s)
       = (if decide (callState s = newState) then []
          else [Emit (EvStateChange newState)])
     /\ callState (final (setState newState s)) = newState)
  /\ (forall calls s,
        adjacent_distinct (stateChanges (trace (session calls s)))
        /\ follows (callState s) (stateChanges (trace (session calls s)))
                   (callState (final (session calls s)))).
Proof.
  split.
  - intros newState s. unfold setState, bind, read, write, emit, ret. simpl.
    destruct (decide (callState s = newState)) as [Heq|Hne]; simpl; auto.
  - intros calls s. pose proof (announces_session calls s) as H.
    split; [eapply follows_adjacent_distinct|]; exact H.
Qed.

(** ** Running a computation step by step *)

Lemma pre_pre {A} t1 t2 (o : Out A) : pre t1 (pre t2 o) = pre (t1 ++ t2) o.
Proof. unfold pre. cbn. rewrite app_assoc. reflexivity. Qed.

Lemma pre_nil {A} (o : Out A) : pre [] o = o.
Proof. destruct o; reflexivity. Qed.

Lemma bind_pre {A B} (m : M A) (k : A -> M B) s :
  bind m k s =
    match m s with
    | mkOut (Returned a) s1 t1 => pre t1 (k a s1)
    | mkOut (Threw e) s1 t1 => mkOut (Threw e) s1 t1
    end.
Proof.
  unfold bind, pre. destruct (m s) as [[a|e] s1 t1]; [|reflexivity].
  destruct (k a s1); reflexivity.
Qed.

Lemma bind_read {A B} (f : Wespoke -> A) (k : A -> M B) s :
  bind (read f) k s = k (f s) s.
Proof. unfold bind, read. destruct (k (f s) s); reflexivity. Qed.

Lemma bind_write {B} f (k : unit -> M B) s : bind (write f) k s = k tt (f s).
Proof. unfold bind, write. destruct (k tt (f s)); reflexivity. Qed.

Lemma bind_perform {B} a (k : unit -> M B) s :
  bind (perform a) k s = pre [Do a] (k tt s).
Proof. rewrite bind_pre. reflexivity. Qed.

Lemma bind_emit {B} e (k : unit -> M B) s :
  bind (emit e) k s = pre [Emit e] (k tt s).
Proof. rewrite bind_pre. reflexivity. Qed.

Lemma bind_ret {A B} (a : A) (k : A -> M B) s : bind (ret a) k s = k a s.
Proof. unfold bind, ret. destruct (k a s); reflexivity. Qed.

Lemma setState_run newState s :
  setState newState s =
    mkOut (Returned tt) (set_callState newState s)
      (if decide (callState s = newState) then [] else [Emit (EvStateChange newState)]).
Proof.
  unfold setState, bind, read, write, emit, ret. simpl.
  destruct (decide (callState s = newState)) as [<-|Hne]; simpl; [|reflexivity].
  destruct s; reflexivity.
Qed.

Lemma bind_setState {B} n (k : unit -> M B) s :
  bind (setState n) k s =
    pre (if decide (callState s = n) then [] else [Emit (EvStateChange n)])
      (k tt (set_callState n s)).
Proof. rewrite bind_pre, setState_run. reflexivity. Qed.

Lemma try_catch_bind {A B} (m : M A) (k : A -> M B) h s :
  try_catch (bind m k) h s =
    match m s with
    | mkOut (Returned a) s1 t1 => pre t1 (try_catch (k a) h s1)
    | mkOut (Threw e) s1 t1 => pre t1 (h e s1)
    end.
Proof.
  unfold try_catch, bind, pre. destruct (m s) as [[a|e] s1 t1].
  - destruct (k a s1) as [[b|e] s2 t2]; cbn; [reflexivity|].
    destruct (h e s2); cbn. rewrite app_assoc. reflexivity.
  - destruct (h e s1); reflexivity.
Qed.

Lemma try_known {A B} (m : M A) (k : A -> M B) h s a s1 t1 :
  m s = mkOut (Returned a) s1 t1 ->
  try_catch (bind m k) h s = pre t1 (try_catch (k a) h s1).
Proof. intros H. rewrite try_catch_bind, H. reflexivity. Qed.

Lemma try_done {A} (m : M A) h s a s1 t1 :
  m s = mkOut (Returned a) s1 t1 -> try_catch m h s = mkOut (Returned a) s1 t1.
Proof. intros H. unfold try_catch. rewrite H. reflexivity. Qed.

Lemma try_read {A B} (f : Wespoke -> A) (k : A -> M B) h s :
  try_catch (bind (read f) k) h s = try_catch (k (f s)) h s.
Proof. rewrite (try_known _ _ _ s (f s) s []) by reflexivity. apply pre_nil. Qed.

Lemma try_write {B} f (k : unit -> M B) h s :
  try_catch (bind (write f) k) h s = try_catch (k tt) h (f s).
Proof. rewrite (try_known _ _ _ s tt (f s) []) by reflexivity. apply pre_nil. Qed.

Lemma try_perform {B} a (k : unit -> M B) h s :
  try_catch (bind (perform a) k) h s = pre [Do a] (try_catch (k tt) h s).
Proof. apply try_known. reflexivity. Qed.

Lemma try_ret {A B} (a : A) (k : A -> M B) h s :
  try_catch (bind (ret a) k) h s = try_catch (k a) h s.
Proof. rewrite (try_known _ _ _ s a s []) by reflexivity. apply pre_nil. Qed.

Lemma stopMessagePolling_run s :
  stopMessagePolling s =
    mkOut (Returned tt) (set_pollInterval None s)
      match pollInterval s with Some _ => [Do ClearInterval] | None => [] end.
Proof.
  unfold stopMessagePolling, bind, read, perform, write, ret. cbn.
  destruct s as [? ? ? ? ? ? ? ? ? ? [t|] ? ?]; reflexivity.
Qed.

Lemma forEach_cons {A} (x : A) xs f s :
  forEach (x :: xs) f s =
    match f x s with
    | mkOut (Returned _) s1 t1 =>
        mkOut (outcome (forEach xs f s1)) (final (forEach xs f s1))
              (t1 ++ trace (forEach xs f s1))
    | mkOut (Threw e) s1 t1 => mkOut (Threw e) s1 t1
    end.
Proof.
  simpl. unfold bind. destruct (f x s) as [[a|e] s1 t1]; [|reflexivity].
  destruct (forEach xs f s1); reflexivity.
Qed.

Lemma session_cons c cs s :
  outcome (invoke c s) = Returned tt ->
  session (c :: cs) s =
    mkOut (outcome (session cs (final (invoke c s))))
          (final (session cs (final (invoke c s))))
          (trace (invoke c s) ++ trace (session cs (final (invoke c s)))).
Proof.
  intros H. unfold session. simpl. unfold bind.
  destruct (invoke c s) as [r s1 t1]. simpl in *. subst r.
  destruct (forEach cs invoke s1); reflexivity.
Qed.

(** Membership in a trace written as a concatenation. *)
Ltac in_trace :=
  rewrite ?elem_of_app, ?elem_of_cons; auto 10.

(** ** The ledger *)

Lemma has_str i seen : has (VStr i) seen = bool_decide ((inl (inl i) : key) ∈ seen).
Proof. reflexivity. Qed.

Lemma add_subseteq id seen : seen ⊆ add id seen.
Proof. unfold add. destruct (key_of id); set_solver. Qed.

Lemma add_str i seen : (inl (inl i) : key) ∈ add (VStr i) seen.
Proof. unfold add. simpl. set_solver. Qed.

Lemma is_str_refl i : is_str (VStr i) i = true.
Proof. simpl. apply String.eqb_refl. Qed.

Lemma bears_conversationMessageOf i data :
  bears i (conversationMessageOf data) = is_str (optprop data "id") i.
Proof. reflexivity. Qed.

Lemma complete_conversationMessageOf data :
  complete (conversationMessageOf data) = complete data.
Proof. reflexivity. Qed.

Lemma bears_nonempty i m : bears i m = true -> truthy (optprop m "id") = negb (String.eqb i "").
Proof.
  unfold bears, is_str. destruct (optprop m "id"); try discriminate.
  intros H. apply String.eqb_eq in H. subst. reflexivity.
Qed.

Lemma bears_id i m : bears i m = true -> optprop m "id" = VStr i.
Proof.
  unfold bears, is_str. destruct (optprop m "id"); try discriminate.
  intros H. apply String.eqb_eq in H. subst. reflexivity.
Qed.

Lemma bearing_one i m : bearing i [m] = if bears i m then [m] else [].
Proof. reflexivity. Qed.

Lemma messages_one m : messages [Emit (EvMessage m)] = [m].
Proof. reflexivity. Qed.

(** ** The push path *)

Lemma push_conversation data s :
  conversation data = true ->
  handleDataChannelMessage (Some data) s =
    if truthy (optprop data "id") && has (optprop data "id") (seenMessageIds s)
       && negb (complete data)
    then mkOut (Returned tt) s []
    else mkOut (Returned tt)
           (if truthy (optprop data "id") && complete data
            then set_seenMessageIds (add (optprop data "id") (seenMessageIds s)) s
            else s)
           [Emit (EvMessage (conversationMessageOf data))].
Proof.
  unfold conversation, handleDataChannelMessage, complete. intros H.
  unfold try_catch, bind, field. destruct (prop data "type") as [type|]; [|discriminate].
  simpl. rewrite H. simpl.
  destruct (truthy (optprop data "id") && has (optprop data "id") (seenMessageIds s)
            && negb (truthy (optprop data "isComplete"))); simpl; [reflexivity|].
  destruct (truthy (optprop data "id") && truthy (optprop data "isComplete")); simpl.
  - reflexivity.
  - destruct s; reflexivity.
Qed.

Lemma push_other decoded s :
  match decoded with Some data => conversation data = false | None => True end ->
  outcome (handleDataChannelMessage decoded s) = Returned tt
  /\ final (handleDataChannelMessage decoded s) = s
  /\ messages (trace (handleDataChannelMessage decoded s)) = [].
Proof.
  destruct decoded as [data|]; [|intros _; repeat split; reflexivity].
  unfold conversation, handleDataChannelMessage. intros H.
  unfold try_catch, bind, field. destruct (prop data "type") as [type|].
  - simpl. rewrite H.
    repeat match goal with
    | |- context [if ?b then _ else _] => destruct b; simpl
    end; repeat split; reflexivity.
  - simpl. repeat split; reflexivity.
Qed.

(** One delivery on the push path: it returns, the ledger only grows, and it
    emits at most one [message]; an emitted message with a non-empty id is
    either complete, and then its id is in the ledger afterwards, or
    incomplete, and then its id was not in the ledger before. *)
Lemma push_step decoded s :
  let o := handleDataChannelMessage decoded s in
  outcome o = Returned tt
  /\ seenMessageIds s ⊆ seenMessageIds (final o)
  /\ (messages (trace o) = []
      \/ exists m, messages (trace o) = [m]
           /\ forall i, i <> "" -> bears i m = true ->
                (complete m = true /\ seenId i (final o))
                \/ (complete m = false /\ ~ seenId i s)).
Proof.
  intros o. subst o.
  destruct (match decoded with Some data => conversation data | None => false end) eqn:Hc.
  - destruct decoded as [data|]; [|discriminate].
    rewrite (push_conversation data s Hc).
    destruct (truthy (optprop data "id") && has (optprop data "id") (seenMessageIds s)
              && negb (complete data)) eqn:Hskip; simpl.
    + repeat split; [set_solver | left; reflexivity].
    + split; [reflexivity|]. split.
      * destruct (truthy (optprop data "id") && complete data); simpl;
          [apply add_subseteq | set_solver].
      * right. eexists. split; [reflexivity|]. intros i Hi Hb.
        rewrite bears_conversationMessageOf in Hb.
        rewrite complete_conversationMessageOf.
        pose proof (bears_id i data Hb) as Hid. rewrite Hid in *.
        assert (Ht : truthy (VStr i) = true).
        { simpl. destruct (String.eqb_spec i ""); [contradiction|reflexivity]. }
        rewrite Ht in *. simpl in Hskip |- *.
        destruct (complete data) eqn:Hcomp; simpl in *.
        -- left. split; [reflexivity|]. unfold seenId. simpl. apply add_str.
        -- right. split; [reflexivity|]. unfold seenId.
           rewrite andb_true_r in Hskip. apply bool_decide_eq_false in Hskip. exact Hskip.
  - destruct (push_other decoded s) as (H1 & H2 & H3).
    { destruct decoded; [exact Hc | exact I]. }
    rewrite H1, H2, H3. repeat split; [set_solver | left; reflexivity].
Qed.

Lemma pushes_cons d ps s :
  pushes (d :: ps) s =
    mkOut (outcome (pushes ps (final (handleDataChannelMessage d s))))
          (final (pushes ps (final (handleDataChannelMessage d s))))
          (trace (handleDataChannelMessage d s)
           ++ trace (pushes ps (final (handleDataChannelMessage d s)))).
Proof.
  unfold pushes, session. simpl.
  destruct (push_step d s) as (Hr & _ & _). unfold bind.
  destruct (handleDataChannelMessage d s) as [r s1 t1]. simpl in *. subst r.
  destruct (forEach (map DataReceived ps) invoke s1); reflexivity.
Qed.

Lemma pushes_returns ps : forall s, outcome (pushes ps s) = Returned tt.
Proof.
  induction ps as [|d ps IH]; intros s; [reflexivity|].
  rewrite pushes_cons. simpl. apply IH.
Qed.

Lemma pushes_app ps1 ps2 : forall s,
  trace (pushes (ps1 ++ ps2) s)
    = trace (pushes ps1 s) ++ trace (pushes ps2 (final (pushes ps1 s))).
Proof.
  induction ps1 as [|d ps1 IH]; intros s; simpl.
  - reflexivity.
  - rewrite !pushes_cons. simpl. rewrite IH, app_assoc. reflexivity.
Qed.

Lemma pushes_grows ps : forall s,
  seenMessageIds s ⊆ seenMessageIds (final (pushes ps s)).
Proof.
  induction ps as [|d ps IH]; intros s; [reflexivity|].
  rewrite pushes_cons. simpl.
  destruct (push_step d s) as (_ & Hsub & _).
  etransitivity; [exact Hsub | apply IH].
Qed.

Lemma pushes_quiet i ps : i <> "" -> forall s,
  seenId i s -> quiet i (messages (trace (pushes ps s))).
Proof.
  intros Hi. induction ps as [|d ps IH]; intros s Hseen; [constructor|].
  rewrite pushes_cons. simpl. rewrite messages_app.
  destruct (push_step d s) as (_ & Hsub & Hm).
  assert (Hseen' : seenId i (final (handleDataChannelMessage d s))).
  { unfold seenId in *. eapply elem_of_weaken; eassumption. }
  apply Forall_app. split; [|apply IH; exact Hseen'].
  destruct Hm as [->|(m & -> & Hm)]; [constructor|].
  constructor; [|constructor]. intros Hb.
  destruct (Hm i Hi Hb) as [[Hc _]|[_ Hn]]; [exact Hc | contradiction].
Qed.

Lemma quiet_ordered i ms : quiet i ms -> ordered i ms.
Proof.
  induction ms as [|m ms IH]; intros H; simpl; [exact I|].
  inversion H; subst. split; [intros _ _; assumption | apply IH; assumption].
Qed.

Lemma pushes_ordered i ps : i <> "" -> forall s,
  ordered i (messages (trace (pushes ps s))).
Proof.
  intros Hi. induction ps as [|d ps IH]; intros s; [exact I|].
  rewrite pushes_cons. simpl. rewrite messages_app.
  destruct (push_step d s) as (_ & _ & Hm).
  destruct Hm as [->|(m & -> & Hm)]; simpl; [apply IH|].
  split; [|apply IH]. intros Hb Hc.
  destruct (Hm i Hi Hb) as [[_ Hseen]|[Hn _]]; [|congruence].
  apply pushes_quiet; assumption.
Qed.

Lemma ordered_split i ms : ordered i ms ->
  forall l1 c l2 p l3, ms = l1 ++ c :: l2 ++ p :: l3 ->
    bears i c = true -> complete c = true -> bears i p = true -> complete p = true.
Proof.
  intros H l1. revert ms H. induction l1 as [|x l1 IH]; intros ms H c l2 p l3 -> Hbc Hcc Hbp.
  - simpl in H. destruct H as [H _]. specialize (H Hbc Hcc).
    unfold quiet in H. rewrite Forall_app in H. destruct H as [_ H].
    inversion H; subst. auto.
  - simpl in H. destruct H as [_ H]. eapply IH; eauto.
Qed.

(** A run of conversation messages without an id (the id is absent, [null],
    empty, [0] or [false]): every one is emitted, in the order of arrival,
    and the controller is left as it was. *)
Lemma pushes_without_id (unnamed : list value) : forall s,
  Forall (fun data => conversation data = true /\ truthy (optprop data "id") = false)
    unnamed ->
  pushes (map Some unnamed) s
  = mkOut (Returned tt) s
      (map (fun data => Emit (EvMessage (conversationMessageOf data))) unnamed).
Proof.
  induction unnamed as [|data unnamed IH]; intros s H; [reflexivity|].
  inversion H as [|? ? [Hc Hid] Hrest]; subst.
  cbn [map]. rewrite pushes_cons, (push_conversation _ _ Hc), Hid.
  cbn [andb outcome final trace]. rewrite (IH s Hrest). reflexivity.
Qed.

(** C2, as amended.  On the data-channel push path, for every non-empty
    message id [i]: an incomplete message whose id is in the ledger is
    suppressed and changes nothing; a complete message is always emitted and
    its id is in the ledger afterwards; when a complete version arrives last
    after any run of deliveries, the last emitted message is that complete
    version; an incomplete version delivered right after it is not emitted;
    and in any run of deliveries no incomplete message bearing [i] is emitted
    after a complete one bearing [i].  A message whose id is empty or absent
    (any falsy id) is always emitted and never enters the ledger: a run of
    such messages, complete or not, emits every one of them and leaves the
    controller as it was. *)
Theorem push_dedup_of_nonempty_ids (s : Wespoke) (ps : list (option value))
    (final_version partial : value) (i : string) (unnamed : list value) :
  i <> "" ->
  conversation final_version = true -> complete final_version = true ->
  optprop final_version "id" = VStr i ->
  conversation partial = true -> complete partial = false ->
  optprop partial "id" = VStr i ->
  Forall (fun data => conversation data = true /\ truthy (optprop data "id") = false)
    unnamed ->
  (seenId i s -> handleDataChannelMessage (Some partial) s = mkOut (Returned tt) s [])
  /\ trace (handleDataChannelMessage (Some final_version) s)
       = [Emit (EvMessage (conversationMessageOf final_version))]
  /\ seenId i (final (handleDataChannelMessage (Some final_version) s))
  /\ last (messages (trace (pushes (ps ++ [Some final_version]) s)))
       = Some (conversationMessageOf final_version)
  /\ messages (trace (pushes [Some final_version; Some partial] s))
       = [conversationMessageOf final_version]
  /\ (forall l1 c l2 p l3,
        messages (trace (pushes ps s)) = l1 ++ c :: l2 ++ p :: l3 ->
        bears i c = true -> complete c = true -> bears i p = true ->
        complete p = true)
  /\ pushes (map Some unnamed) s
     = mkOut (Returned tt) s
         (map (fun data => Emit (EvMessage (conversationMessageOf data))) unnamed).
Proof.
  intros Hi Hcf Hf Hidf Hcp Hp Hidp Hunnamed.
  assert (Ht : truthy (VStr i) = true).
  { simpl. destruct (String.eqb_spec i ""); [contradiction|reflexivity]. }
  assert (Hfinal : handleDataChannelMessage (Some final_version) s
            = mkOut (Returned tt)
                (set_seenMessageIds (add (VStr i) (seenMessageIds s)) s)
                [Emit (EvMessage (conversationMessageOf final_version))]).
  { rewrite (push_conversation _ s Hcf), Hidf, Hf, Ht.
    rewrite andb_false_r. reflexivity. }
  split; [|split; [|split; [|split; [|split; [|split]]]]].
  - intros Hseen. rewrite (push_conversation _ s Hcp), Hidp, Hp, Ht.
    rewrite has_str. unfold seenId in Hseen.
    rewrite (bool_decide_eq_true_2 _ Hseen). reflexivity.
  - rewrite Hfinal. reflexivity.
  - rewrite Hfinal. unfold seenId. simpl. apply add_str.
  - rewrite pushes_app, messages_app, pushes_cons. simpl.
    rewrite (push_conversation _ _ Hcf).
    destruct (truthy (optprop final_version "id")
              && has (optprop final_version "id") _ && negb (complete final_version)) eqn:E.
    + rewrite Hf, andb_false_r in E. discriminate.
    + simpl. apply last_snoc.
  - rewrite !pushes_cons. simpl. rewrite Hfinal. simpl.
    rewrite (push_conversation _ _ Hcp), Hidp, Hp, Ht. simpl.
    rewrite has_str, bool_decide_eq_true_2; [reflexivity | apply add_str].
  - intros l1 c l2 p l3 Hms. eapply ordered_split; [|exact Hms].
    apply pushes_ordered. exact Hi.
  - apply pushes_without_id. exact Hunnamed.
Qed.

(** C2 at a concrete run: message [m1] complete, then a partial duplicate;
    and a complete message with an empty id, then a partial one. *)
Lemma push_dedup_of_nonempty_ids_witness :
  "m1" <> ""
  /\ conversation (demo_push "m1" "Hello there" true) = true
  /\ seenId "m1" (final (handleDataChannelMessage
                           (Some (demo_push "m1" "Hello there" true)) demo_in_call))
  /\ messages (trace (pushes [Some (demo_push "m1" "Hello there" true);
                              Some (demo_push "m1" "Hel" false)] demo_in_call))
       = [conversationMessageOf (demo_push "m1" "Hello there" true)]
  /\ pushes [Some (demo_push "" "Hello there" true); Some (demo_push "" "Hel" false)]
       demo_in_call
     = mkOut (Returned tt) demo_in_call
         [Emit (EvMessage (conversationMessageOf (demo_push "" "Hello there" true)));
          Emit (EvMessage (conversationMessageOf (demo_push "" "Hel" false)))].
Proof.
  assert (Hne : "m1" <> "") by discriminate.
  destruct (push_dedup_of_nonempty_ids demo_in_call
              [Some (demo_push "m1" "Hel" false)]
              (demo_push "m1" "Hello there" true) (demo_push "m1" "Hel" false) "m1"
              [demo_push "" "Hello there" true; demo_push "" "Hel" false]
              Hne eq_refl eq_refl eq_refl eq_refl eq_refl eq_refl
              ltac:(repeat (constructor; [split; reflexivity|]); constructor))
    as (_ & _ & H3 & _ & H5 & _ & H7).
  exact (conj Hne (conj eq_refl (conj H3 (conj H5 H7)))).
Defined.

(** C2 as stated fails for the empty id, which the handler treats as no id:
    the complete message does not enter the ledger and the incomplete
    duplicate that follows it is emitted. *)
Lemma push_empty_id_counterexample :
  conversation (demo_push "" "Hello there" true) = true
  /\ complete (demo_push "" "Hello there" true) = true
  /\ conversation (demo_push "" "Hel" false) = true
  /\ complete (demo_push "" "Hel" false) = false
  /\ ~ seenId "" (final (handleDataChannelMessage
                           (Some (demo_push "" "Hello there" true)) demo_in_call))
  /\ messages (trace (pushes [Some (demo_push "" "Hello there" true);
                              Some (demo_push "" "Hel" false)] demo_in_call))
       = [conversationMessageOf (demo_push "" "Hello there" true);
          conversationMessageOf (demo_push "" "Hel" false)].
Proof.
  repeat split.
  unfold seenId. vm_compute. set_solver.
Qed.

(** ** The polling path *)

(** What the polling callback does with one fetched message: nothing, or it
    enters the id in the ledger and then emits the message, unless reading
    its content fails. *)
Lemma emitIfNew_cases message s :
  let o := emitIfNew message s in
  (trace o = [] /\ final o = s)
  \/ (truthy (optprop message "id") = true
      /\ has (optprop message "id") (seenMessageIds s) = false
      /\ final o = set_seenMessageIds (add (optprop message "id") (seenMessageIds s)) s
      /\ ((trace o = [] /\ outcome o = Threw TypeError)
          \/ (trace o = [Emit (EvMessage message)] /\ outcome o = Returned tt))).
Proof.
  unfold emitIfNew, optprop, field, bind, read, write, emit, ret, throw. simpl.
  destruct (prop message "id") as [mid|] eqn:Hid; simpl; [|left; split; reflexivity].
  destruct (truthy mid) eqn:Ht; simpl; [|left; split; reflexivity].
  destruct (has mid (seenMessageIds s)) eqn:Hh; simpl; [left; split; reflexivity|].
  right. split; [reflexivity|]. split; [reflexivity|].
  destruct (prop message "content") as [content|] eqn:Hc; simpl.
  - unfold previewContent.
    destruct content; simpl; (split; [reflexivity|]);
      first [ right; split; reflexivity | left; split; reflexivity ].
  - destruct message; simpl in *; discriminate.
Qed.

Lemma poll_items_grow items : forall s,
  seenMessageIds s ⊆ seenMessageIds (final (forEach items emitIfNew s)).
Proof.
  induction items as [|m items IH]; intros s; [reflexivity|].
  rewrite forEach_cons.
  destruct (emitIfNew_cases m s) as [[Ht Hf]|(_ & _ & Hf & _)];
    destruct (emitIfNew m s) as [[[]|e] s1 t1]; simpl in *; subst s1;
    try (etransitivity; [|apply IH]); simpl; try reflexivity; apply add_subseteq.
Qed.

Lemma poll_items_skip_seen i items : forall s,
  i = "" \/ seenId i s ->
  bearing i (messages (trace (forEach items emitIfNew s))) = [].
Proof.
  induction items as [|m items IH]; intros s Hi; [reflexivity|].
  rewrite forEach_cons.
  destruct (emitIfNew_cases m s) as [[Ht Hf]|(Htr & Hh & Hf & Hcase)].
  - destruct (emitIfNew m s) as [[[]|e] s1 t1]; cbn [trace final outcome] in *; subst.
    + apply IH; exact Hi.
    + reflexivity.
  - assert (Hnot : bears i m = false).
    { destruct (bears i m) eqn:Hb; [|reflexivity]. exfalso.
      pose proof (bears_id i m Hb) as Hid. rewrite Hid in *.
      destruct Hi as [->|Hseen]; [discriminate|].
      rewrite has_str in Hh. apply bool_decide_eq_false in Hh. contradiction. }
    destruct (emitIfNew m s) as [[[]|e] s1 t1]; cbn [trace final outcome] in *; subst s1;
      destruct Hcase as [[-> Ho]|[-> Ho]]; try discriminate.
    + rewrite messages_app, bearing_app, messages_one, bearing_one, Hnot.
      apply IH. destruct Hi as [->|Hseen]; [left; reflexivity|right].
      unfold seenId in *. cbn [seenMessageIds set_seenMessageIds].
      eapply elem_of_weaken; [exact Hseen | apply add_subseteq].
    + reflexivity.
Qed.

Lemma poll_items_once i items : forall s,
  (length (bearing i (messages (trace (forEach items emitIfNew s)))) <= 1)%nat.
Proof.
  induction items as [|m items IH]; intros s; [simpl; lia|].
  rewrite forEach_cons.
  destruct (emitIfNew_cases m s) as [[Ht Hf]|(Htr & Hh & Hf & Hcase)].
  - destruct (emitIfNew m s) as [[[]|e] s1 t1]; cbn [trace final outcome] in *; subst.
    + apply IH.
    + simpl; lia.
  - destruct (emitIfNew m s) as [[[]|e] s1 t1]; cbn [trace final outcome] in *; subst s1;
      destruct Hcase as [[-> Ho]|[-> Ho]]; try discriminate; [|simpl; lia].
    rewrite messages_app, bearing_app, messages_one, bearing_one.
    destruct (bears i m) eqn:Hb; [|apply IH].
    rewrite poll_items_skip_seen; [simpl; lia|].
    right. unfold seenId. cbn [seenMessageIds set_seenMessageIds].
    rewrite (bears_id i m Hb). apply add_str.
Qed.

(** A tick of the polling timer either emits nothing and leaves the ledger
    alone, or runs [emitIfNew] over the fetched messages. *)
Lemma pollTick_shape r s :
  outcome (pollTick r s) = Returned tt
  /\ ((messages (trace (pollTick r s)) = []
       /\ seenMessageIds (final (pollTick r s)) = seenMessageIds s)
      \/ exists items,
           messages (trace (pollTick r s))
             = messages (trace (forEach items emitIfNew s))
           /\ seenMessageIds (final (pollTick r s))
             = seenMessageIds (final (forEach items emitIfNew s))).
Proof.
  unfold pollTick, bind, read. simpl.
  destruct (truthy (currentCallId s) && bool_decide (callState s = CONNECTED)) eqn:G;
    [|split; [reflexivity | left; split; reflexivity]].
  apply andb_true_iff in G. destruct G as [Hid _].
  unfold try_catch, getMessages, logged, try_catch, bind, read. simpl. rewrite Hid. simpl.
  destruct r as [e|status [e|data]]; simpl;
    try (split; [reflexivity | left; split; reflexivity]).
  unfold checkResponse, bind, field.
  destruct (ok status); simpl;
    try (split; [reflexivity | left; split; reflexivity]).
  destruct (prop data "success") as [success|]; simpl;
    try (split; [reflexivity | left; split; reflexivity]).
  destruct (truthy success); simpl;
    try (split; [reflexivity | left; split; reflexivity]).
  destruct (prop data "data") as [d|]; simpl;
    try (split; [reflexivity | left; split; reflexivity]).
  destruct (prop d "messages") as [ms|]; simpl;
    try (split; [reflexivity | left; split; reflexivity]).
  destruct ms; simpl; try (split; [reflexivity | left; split; reflexivity]).
  destruct (forEach items emitIfNew s) as [[[]|e] s1 t1] eqn:E; simpl;
    (split; [reflexivity|]); right; exists items; rewrite E; simpl;
    split; try reflexivity.
  rewrite app_nil_r. reflexivity.
Qed.

Lemma poll_skips_seen i r s :
  i = "" \/ seenId i s -> bearing i (messages (trace (pollTick r s))) = [].
Proof.
  intros Hi. destruct (pollTick_shape r s) as (_ & [[-> _]|(items & -> & _)]).
  - reflexivity.
  - apply poll_items_skip_seen. exact Hi.
Qed.

Lemma poll_once i r s :
  (length (bearing i (messages (trace (pollTick r s)))) <= 1)%nat.
Proof.
  destruct (pollTick_shape r s) as (_ & [[-> _]|(items & -> & _)]).
  - simpl. lia.
  - apply poll_items_once.
Qed.

(** C1, as amended.  A message delivered by the push path as a complete
    message and by a tick of the polling timer: when the push comes first,
    subscribers receive exactly one [message] bearing its id, the push's;
    when the poll comes first, the push is emitted after whatever the poll
    emitted for that id; a tick emits an id at most once and never an id that
    is already in the ledger. *)
Theorem dual_path_delivery (s : Wespoke) (r : fetched) (data : value) (i : string) :
  conversation data = true -> complete data = true ->
  optprop data "id" = VStr i ->
  bearing i (messages (trace (session [DataReceived (Some data); PollTick r] s)))
    = [conversationMessageOf data]
  /\ bearing i (messages (trace (session [PollTick r; DataReceived (Some data)] s)))
       = bearing i (messages (trace (pollTick r s))) ++ [conversationMessageOf data]
  /\ (length (bearing i (messages (trace (pollTick r s)))) <= 1)%nat
  /\ (seenId i s -> bearing i (messages (trace (pollTick r s))) = []).
Proof.
  intros Hc Hf Hid.
  assert (Hpush : forall s', handleDataChannelMessage (Some data) s'
            = mkOut (Returned tt)
                (if truthy (VStr i)
                 then set_seenMessageIds (add (VStr i) (seenMessageIds s')) s' else s')
                [Emit (EvMessage (conversationMessageOf data))]).
  { intros s'. rewrite (push_conversation _ s' Hc), Hid, Hf.
    rewrite andb_false_r, andb_true_r. reflexivity. }
  assert (Hbears : bearing i [conversationMessageOf data] = [conversationMessageOf data]).
  { rewrite bearing_one, bears_conversationMessageOf, Hid, is_str_refl. reflexivity. }
  repeat split.
  - rewrite session_cons by (cbn [invoke]; rewrite Hpush; reflexivity).
    cbn [trace invoke]. rewrite Hpush. cbn [trace final].
    rewrite session_cons by apply pollTick_shape.
    cbn [trace invoke session forEach ret]. rewrite app_nil_r.
    rewrite messages_app, bearing_app, messages_one, Hbears.
    rewrite poll_skips_seen; [reflexivity|].
    destruct (String.eqb_spec i "") as [->|Hne]; [left; reflexivity|right].
    cbn [truthy]. destruct (String.eqb_spec i ""); [contradiction|]. cbn [negb].
    unfold seenId. cbn [seenMessageIds set_seenMessageIds]. apply add_str.
  - rewrite session_cons by apply pollTick_shape.
    cbn [trace invoke].
    rewrite session_cons by (cbn [invoke]; rewrite Hpush; reflexivity).
    cbn [trace invoke session forEach ret]. rewrite Hpush. cbn [trace].
    rewrite app_nil_r, messages_app, bearing_app, messages_one, Hbears. reflexivity.
  - apply poll_once.
  - intros Hseen. apply poll_skips_seen. right. exact Hseen.
Qed.

(** C1 at a concrete run: message [m1] pushed complete, then polled. *)
Lemma dual_path_delivery_witness :
  conversation (demo_push "m1" "Hello there" true) = true
  /\ bearing "m1" (messages (trace (session
       [DataReceived (Some (demo_push "m1" "Hello there" true));
        PollTick (demo_poll_response [demo_polled "m1" "Hello there"])] demo_in_call)))
     = [conversationMessageOf (demo_push "m1" "Hello there" true)].
Proof.
  split; [reflexivity|].
  exact (proj1 (dual_path_delivery demo_in_call
                  (demo_poll_response [demo_polled "m1" "Hello there"])
                  (demo_push "m1" "Hello there" true) "m1" eq_refl eq_refl eq_refl)).
Defined.

(** C1 as stated fails when the poll comes first: the poll emits the
    message and the complete push is emitted again, two emissions for one
    id. *)
Lemma poll_then_push_emits_twice :
  bearing "m1" (messages (trace (session
    [PollTick (demo_poll_response [demo_polled "m1" "Hello there"]);
     DataReceived (Some (demo_push "m1" "Hello there" true))] demo_in_call)))
  = [demo_polled "m1" "Hello there";
     conversationMessageOf (demo_push "m1" "Hello there" true)]
  /\ length (bearing "m1" (messages (trace (session
        [PollTick (demo_poll_response [demo_polled "m1" "Hello there"]);
         DataReceived (Some (demo_push "m1" "Hello there" true))] demo_in_call))))
     = 2%nat.
Proof. split; vm_compute; reflexivity. Qed.

(** ** Starting a call *)

Example demo_construct : construct demo_options = inr demo_idle.
Proof. reflexivity. Qed.

(** The [catch] block of [startCall]: Idle, no call id, the error emitted and
    thrown again. *)
Lemma bootstrapFailed_run error s :
  bootstrapFailed error s =
    mkOut (Threw error) (set_currentCallId VNull (set_callState IDLE s))
      ((if decide (callState s = IDLE) then [] else [Emit (EvStateChange IDLE)])
       ++ [Emit (EvError error)]).
Proof.
  unfold bootstrapFailed, bind. rewrite setState_run. reflexivity.
Qed.

(** A call that gets past the state check either completes its bootstrap or
    ends in the [catch] block. *)
Lemma startCall_run a md env s :
  callState s = IDLE \/ callState s = DISCONNECTED ->
  let s0 := set_seenMessageIds ∅ (set_callState CONNECTING s) in
  let t0 := if decide (callState s = CONNECTING) then []
            else [Emit (EvStateChange CONNECTING)] in
  let b := bootstrap a md env s0 in
  startCall a md env s =
    match outcome b with
    | Returned _ => mkOut (Returned tt) (final b) (t0 ++ trace b)
    | Threw e =>
        mkOut (Threw e) (set_currentCallId VNull (set_callState IDLE (final b)))
          (t0 ++ trace b
           ++ (if decide (callState (final b) = IDLE) then []
               else [Emit (EvStateChange IDLE)])
           ++ [Emit (EvError e)])
    end.
Proof.
  intros Hs. cbv zeta. unfold startCall, bind at 1, read.
  assert (G : negb (bool_decide (callState s = IDLE))
              && negb (bool_decide (callState s = DISCONNECTED)) = false).
  { destruct Hs as [-> | ->]; reflexivity. }
  cbn [outcome final trace]. rewrite G. unfold bind at 1. rewrite setState_run.
  unfold bind at 1, write at 1. cbn [app]. unfold try_catch.
  destruct (bootstrap a md env _) as [[[]|e] s1 t1]; cbn [outcome final trace].
  - reflexivity.
  - rewrite bootstrapFailed_run. reflexivity.
Qed.

(** A token request that the control API does not accept makes the [try]
    block of [startCall] throw. *)
Lemma bootstrap_needs_token a md env s :
  accepted (tokenResponse env) = false ->
  exists e, outcome (bootstrap a md env s) = Threw e.
Proof.
  intros Hacc. unfold bootstrap, fetchToken.
  unfold bind at 1. unfold bind at 1. unfold bind at 1. unfold bind at 1.
  unfold read at 1, perform at 1. cbn [outcome final trace].
  destruct (tokenResponse env) as [e|status [e|data]]; cbn [awaitFetch accepted] in *.
  - eexists. reflexivity.
  - eexists. reflexivity.
  - unfold bind at 1. unfold bind at 1. unfold bind at 1.
    cbn [ret outcome final trace fst snd json]. unfold checkResponse.
    destruct (ok status); cbn [negb andb] in *; [|eexists; reflexivity].
    unfold field at 1, bind at 1. destruct (prop data "success") as [success|];
      [|eexists; reflexivity].
    cbn [outcome final trace ret]. rewrite Hacc. eexists. reflexivity.
Qed.

(** C3.  A [startCall] that gets past the state check runs its [try] block:
    the token fetch, the creation of the room, the connect with its retries,
    the publication of the microphone and what follows.  Whatever error that
    block throws, at whatever step, [startCall] throws the same error to its
    caller after emitting it, and leaves the controller Idle with no call
    id, so that [getCallId()] returns [null]; it fails in no other way.  A
    token request that the control API does not accept always makes it fail,
    and a token response with status 402 makes it fail with an error whose
    name is InsufficientCreditsError, with the code INSUFFICIENT_CREDITS, the
    status 402, the response as details and the server's message. *)
Theorem startCall_failure_returns_to_idle (s : Wespoke) (assistantId : string)
    (callMetadata : value) (env : Bootstrap) :
  callState s = IDLE \/ callState s = DISCONNECTED ->
  let attempt := bootstrap assistantId callMetadata env
                   (set_seenMessageIds ∅ (set_callState CONNECTING s)) in
  let o := startCall assistantId callMetadata env s in
  (forall e, outcome attempt = Threw e ->
     outcome o = Threw e
     /\ callState (final o) = IDLE
     /\ outcome (getCallId (final o)) = Returned VNull
     /\ last (trace o) = Some (Emit (EvError e)))
  /\ (forall e, outcome o = Threw e ->
     outcome attempt = Threw e
     /\ callState (final o) = IDLE
     /\ outcome (getCallId (final o)) = Returned VNull
     /\ last (trace o) = Some (Emit (EvError e)))
  /\ (accepted (tokenResponse env) = false -> exists e, outcome o = Threw e)
  /\ (forall body status, tokenResponse env = Responded status (inr body) ->
        status = 402 ->
        exists w,
          outcome o = Threw (SDK w)
          /\ name w = "InsufficientCreditsError"
          /\ code w = VStr "INSUFFICIENT_CREDITS"
          /\ statusCode w = Some 402
          /\ details w = Some (DResponse body)
          /\ (forall text, optprop (optprop body "error") "message" = VStr text ->
                text <> "" -> message w = text)
          /\ (truthy (optprop (optprop body "error") "message") = false ->
                message w = "Unknown API error")
          /\ callState (final o) = IDLE
          /\ outcome (getCallId (final o)) = Returned VNull).
Proof.
  intros Hs attempt o.
  assert (Hfails : forall e, outcome attempt = Threw e ->
     outcome o = Threw e
     /\ callState (final o) = IDLE
     /\ outcome (getCallId (final o)) = Returned VNull
     /\ last (trace o) = Some (Emit (EvError e))).
  { intros e He. subst o. rewrite (startCall_run _ _ _ _ Hs).
    fold attempt. rewrite He. cbn [outcome final trace]. repeat split.
    rewrite !app_assoc. apply last_snoc. }
  assert (Honly : forall e, outcome o = Threw e -> outcome attempt = Threw e).
  { intros e. subst o. rewrite (startCall_run _ _ _ _ Hs). fold attempt.
    destruct (outcome attempt) as [[]|e']; cbn [outcome]; [discriminate|].
    intros [= ->]. reflexivity. }
  split; [exact Hfails|]. split.
  { intros e He. pose proof (Honly e He) as Ha.
    destruct (Hfails e Ha) as (_ & H2 & H3 & H4). repeat split; assumption. }
  split.
  { intros Hacc. destruct (bootstrap_needs_token assistantId callMetadata env
                             (set_seenMessageIds ∅ (set_callState CONNECTING s)) Hacc)
      as [e He].
    exists e. apply (Hfails e He). }
  intros body status Hresp ->.
  assert (Ha : outcome attempt = Threw (SDK (parseAPIError body 402))).
  { subst attempt. unfold bootstrap, fetchToken, bind at 1 2 3, read, perform.
    cbn [outcome final trace]. rewrite Hresp. reflexivity. }
  destruct (Hfails _ Ha) as (Ho & Hst & Hid & _).
  exists (parseAPIError body 402).
  split; [exact Ho|]. split; [reflexivity|]. split; [reflexivity|].
  split; [reflexivity|]. split; [reflexivity|]. split.
  { intros text Htext Hne. unfold parseAPIError. cbn. rewrite Htext.
    unfold or_else. cbn [truthy]. destruct (String.eqb_spec text ""); [contradiction|].
    reflexivity. }
  split.
  { intros Hfalsy. unfold parseAPIError. cbn. unfold or_else. rewrite Hfalsy. reflexivity. }
  split; assumption.
Qed.

(** C3 at the scenario of the specification: no credits, status 402. *)
Lemma startCall_failure_returns_to_idle_witness :
  callState demo_idle = IDLE
  /\ (exists w,
        outcome (startCall "asst_1" VUndefined
                   (demo_bootstrap (Responded 402 (inr demo_no_credits))
                      (fun _ => demo_quiet_attempt)) demo_idle) = Threw (SDK w)
        /\ name w = "InsufficientCreditsError"
        /\ code w = VStr "INSUFFICIENT_CREDITS"
        /\ message w = "no credits")
  /\ callState (final (startCall "asst_1" VUndefined
               (demo_bootstrap (Responded 402 (inr demo_no_credits))
                  (fun _ => demo_quiet_attempt)) demo_idle)) = IDLE
  /\ outcome (getCallId (final (startCall "asst_1" VUndefined
               (demo_bootstrap (Responded 402 (inr demo_no_credits))
                  (fun _ => demo_quiet_attempt)) demo_idle))) = Returned VNull.
Proof.
  split; [reflexivity|].
  destruct (proj2 (proj2 (proj2
              (startCall_failure_returns_to_idle demo_idle "asst_1" VUndefined
                 (demo_bootstrap (Responded 402 (inr demo_no_credits))
                    (fun _ => demo_quiet_attempt))
                 (or_introl eq_refl))))
              demo_no_credits 402 eq_refl eq_refl)
    as (w & Ho & Hname & Hcode & _ & _ & Hmessage & _ & Hst & Hid).
  split; [|split; assumption].
  exists w. split; [exact Ho|]. split; [exact Hname|]. split; [exact Hcode|].
  apply Hmessage; [reflexivity | discriminate].
Defined.

Example demo_in_call_reached :
  startCall "asst_1" VUndefined (demo_bootstrap demo_token (fun _ => demo_quiet_attempt))
    demo_idle
  = mkOut (Returned tt) demo_in_call
      [Emit (EvStateChange CONNECTING);
       Do (Post "https://api.wespoke.com.tr/api/v1/embed/token"
             (VObj [("assistantId", VStr "asst_1"); ("metadata", VObj [])]));
       Do NewRoom; Do (RoomConnect 1); Do CreateLocalAudioTrack; Do PublishTrack;
       Do (SetInterval 2000); Emit (EvStateChange CONNECTED)].
Proof. vm_compute. reflexivity. Qed.

(** The microphone is refused after the room is connected: the call fails
    with a [MediaDevicesError] and the controller is Idle with no call id. *)
Example demo_microphone_denied :
  let o := startCall "asst_1" VUndefined
             (mkBootstrap demo_token (fun _ => demo_quiet_attempt)
                (Some (mkNative "NotAllowedError" "Permission denied")) None [])
             demo_idle in
  outcome o = Threw (SDK (MediaDevicesError "Failed to access microphone"
                 (Some (DCause (mkNative "NotAllowedError" "Permission denied")))))
  /\ callState (final o) = IDLE
  /\ currentCallId (final o) = VNull
  /\ room (final o) = Some TheRoom.
Proof. vm_compute. repeat split; reflexivity. Qed.

(** ** Starting a chat *)

(** C4, as amended.  When a voice call id is set, or the shared state is
    neither Idle nor Disconnected, [startChatSession] fails at once and
    changes nothing (no chat id is assigned, the state stays what it was);
    the error is [CALL_IN_PROGRESS] unless a chat id is already set, in which
    case the earlier check answers [CHAT_IN_PROGRESS]. *)
Theorem startChatSession_refuses_while_busy (s : Wespoke) (assistantId : string)
    (callMetadata : value) (env : ChatStart) :
  truthy (currentCallId s) = true
    \/ (callState s <> IDLE /\ callState s <> DISCONNECTED) ->
  startChatSession assistantId callMetadata env s =
    mkOut
      (Threw (if truthy (currentChatId s)
              then plainError "A chat session is already in progress" "CHAT_IN_PROGRESS"
              else plainError "Cannot start chat while a voice call is active"
                     "CALL_IN_PROGRESS"))
      s [].
Proof.
  intros Hbusy. unfold startChatSession, bind at 1, read. cbn [outcome final trace].
  destruct (truthy (currentChatId s)); [reflexivity|].
  unfold bind at 1 2. cbn [outcome final trace].
  assert (G : negb (bool_decide (callState s = IDLE))
              && negb (bool_decide (callState s = DISCONNECTED))
              || truthy (currentCallId s) = true).
  { destruct Hbusy as [->|[H1 H2]]; [apply orb_true_r|].
    rewrite !bool_decide_eq_false_2 by assumption. reflexivity. }
  rewrite G. reflexivity.
Qed.

(** C4 at a controller in a voice call. *)
Lemma startChatSession_refuses_while_busy_witness :
  truthy (currentCallId demo_in_call) = true
  /\ startChatSession "asst_1" VUndefined demo_chat_start demo_in_call
     = mkOut (Threw (plainError "Cannot start chat while a voice call is active"
                       "CALL_IN_PROGRESS")) demo_in_call [].
Proof.
  split; [reflexivity|].
  exact (startChatSession_refuses_while_busy demo_in_call "asst_1" VUndefined
           demo_chat_start (or_introl eq_refl)).
Defined.

Example demo_in_chat_reached :
  startChatSession "asst_1" VUndefined demo_chat_start demo_idle
  = mkOut (Returned tt) demo_in_chat
      [Emit (EvStateChange CONNECTING);
       Do (Post "https://api.wespoke.com.tr/api/v1/embed/chat"
             (VObj [("assistantId", VStr "asst_1"); ("metadata", VObj [])]));
       Emit (EvStateChange CONNECTED); Emit EvConnected].
Proof. vm_compute. reflexivity. Qed.

(** C4 as stated fails during a chat: the shared state is Connected, yet the
    error is [CHAT_IN_PROGRESS], and the state that is left unchanged is not
    Idle. *)
Lemma startChatSession_reports_chat_in_progress_first :
  callState demo_in_chat <> IDLE /\ callState demo_in_chat <> DISCONNECTED
  /\ startChatSession "asst_1" VUndefined demo_chat_start demo_in_chat
     = mkOut (Threw (plainError "A chat session is already in progress"
                       "CHAT_IN_PROGRESS")) demo_in_chat []
  /\ Threw (plainError "A chat session is already in progress" "CHAT_IN_PROGRESS")
     <> @Threw unit (plainError "Cannot start chat while a voice call is active"
                       "CALL_IN_PROGRESS")
  /\ callState (final (startChatSession "asst_1" VUndefined demo_chat_start demo_in_chat))
     <> IDLE.
Proof. repeat split; discriminate. Qed.

(** After a bootstrap that failed at the microphone the room is still
    there; if a chat is then started and that room drops, [startCall] is let
    through and a call id is set next to the chat id. *)
Example demo_call_started_during_chat :
  let steps := [
    StartCall "asst_1" VUndefined
      (mkBootstrap demo_token (fun _ => demo_quiet_attempt)
         (Some (mkNative "NotAllowedError" "Permission denied")) None []);
    StartChatSession "asst_1" VUndefined demo_chat_start;
    RoomDisconnected None;
    StartCall "asst_1" VUndefined
      (demo_bootstrap demo_token (fun _ => demo_quiet_attempt))] in
  currentCallId (final (session steps demo_idle)) = VStr "call_1"
  /\ currentChatId (final (session steps demo_idle)) = VStr "chat_1".
Proof. vm_compute. split; reflexivity. Qed.

(** ** Muting *)

Lemma toggleMute_run s t r trackOp :
  truthy (currentCallId s) = true -> localAudioTrack s = Some t ->
  toggleMute r trackOp s =
    let newMuted := negb (isMuted t) in
    let posted := Do (Post (callPath s "/mute") (VObj [("muted", VBool newMuted)])) in
    match r with
    | Rejected e => mkOut (Threw (Native e)) s [posted]
    | Responded status (inl e) => mkOut (Threw (Native e)) s [posted]
    | Responded status (inr data) =>
        if accepted r then
          match trackOp with
          | None =>
              mkOut (Returned newMuted)
                (set_localAudioTrack (Some (mkLocalTrack newMuted)) s)
                [posted;
                 Do (if newMuted then MuteLocalTrack else UnmuteLocalTrack);
                 Emit (EvMicrophoneMuted newMuted)]
          | Some e =>
              mkOut (Threw (Native e)) s
                [posted; Do (if newMuted then MuteLocalTrack else UnmuteLocalTrack)]
          end
        else if negb (ok status) || bool_decide (is_Some (prop data "success"))
        then mkOut (Threw (SDK (parseAPIError data status))) s [posted]
        else mkOut (Threw TypeError) s [posted]
    end.
Proof.
  intros Hid Ht. unfold toggleMute, bind at 1, read. cbn [outcome final trace].
  rewrite Hid. cbn [negb]. unfold bind at 1. cbn [outcome final trace]. rewrite Ht.
  unfold logged, try_catch, bind, read, perform, awaitFetch, json, checkResponse,
    field, accepted.
  destruct r as [e|status [e|data]]; cbn; try reflexivity.
  destruct (ok status); cbn; [|reflexivity].
  destruct (prop data "success") as [success|]; cbn; [|reflexivity].
  destruct (truthy success); cbn; [|reflexivity].
  destruct trackOp; reflexivity.
Qed.

(** C8.  A [toggleMute] that succeeds returns the new muted state, which is
    also what [isMuted()] reports afterwards and what the [microphoneMuted]
    event carries; starting unmuted, the first call returns [true] and a
    second successful call returns [false]. *)
Theorem toggleMute_returns_new_muted_state (s : Wespoke) (t : LocalAudioTrack)
    (r : fetched) :
  truthy (currentCallId s) = true -> localAudioTrack s = Some t ->
  accepted r = true ->
  let o := toggleMute r None s in
  outcome o = Returned (negb (isMuted t))
  /\ outcome (isMutedNow (final o)) = Returned (negb (isMuted t))
  /\ last (trace o) = Some (Emit (EvMicrophoneMuted (negb (isMuted t))))
  /\ (isMuted t = false ->
      outcome o = Returned true
      /\ forall r', accepted r' = true ->
           outcome (toggleMute r' None (final o)) = Returned false).
Proof.
  intros Hid Ht Hr o. subst o.
  assert (Hrun : forall s' t' r', truthy (currentCallId s') = true ->
            localAudioTrack s' = Some t' -> accepted r' = true ->
            toggleMute r' None s' =
              mkOut (Returned (negb (isMuted t')))
                (set_localAudioTrack (Some (mkLocalTrack (negb (isMuted t')))) s')
                [Do (Post (callPath s' "/mute") (VObj [("muted", VBool (negb (isMuted t')))]));
                 Do (if negb (isMuted t') then MuteLocalTrack else UnmuteLocalTrack);
                 Emit (EvMicrophoneMuted (negb (isMuted t')))]).
  { intros s' t' r' Hid' Ht' Hr'. rewrite (toggleMute_run s' t' r' None Hid' Ht').
    destruct r' as [e|status [e|data]]; try discriminate. rewrite Hr'. reflexivity. }
  rewrite (Hrun s t r Hid Ht Hr). cbn [outcome final trace].
  repeat split.
  - rewrite H. reflexivity.
  - intros r' Hr'. erewrite Hrun; [| exact Hid | reflexivity | exact Hr'].
    cbn [outcome isMuted]. rewrite H. reflexivity.
Qed.

(** C8 at a controller in a voice call, unmuted. *)
Lemma toggleMute_returns_new_muted_state_witness :
  truthy (currentCallId demo_in_call) = true
  /\ accepted demo_success = true
  /\ outcome (toggleMute demo_success None demo_in_call) = Returned true
  /\ outcome (toggleMute demo_success None
                (final (toggleMute demo_success None demo_in_call))) = Returned false.
Proof.
  destruct (toggleMute_returns_new_muted_state demo_in_call (mkLocalTrack false)
              demo_success eq_refl eq_refl eq_refl) as (_ & _ & _ & H).
  destruct (H eq_refl) as [H1 H2].
  exact (conj eq_refl (conj eq_refl (conj H1 (H2 demo_success eq_refl)))).
Defined.

(** C9.  When the control API does not accept the mute request, [toggleMute]
    throws, leaves the controller (and with it the local track's mute state)
    as it was, and does nothing but post the request: no [microphoneMuted]
    event, no mute or unmute of the track; for an answered request that is
    not 2xx or whose body says [success: false] the error thrown is the one
    [parseAPIError] builds. *)
Theorem toggleMute_failure_leaves_track_alone (s : Wespoke) (r : fetched)
    (trackOp : option NativeError) :
  accepted r = false ->
  let o := toggleMute r trackOp s in
  (exists e, outcome o = Threw e)
  /\ final o = s
  /\ (forall x, x ∈ trace o -> exists path body, x = Do (Post path body))
  /\ (forall status data, r = Responded status (inr data) ->
        truthy (currentCallId s) = true -> is_Some (localAudioTrack s) ->
        ok status = false \/ is_Some (prop data "success") ->
        outcome o = Threw (SDK (parseAPIError data status))).
Proof.
  intros Hr o. subst o.
  destruct (truthy (currentCallId s)) eqn:Hid.
  2:{ unfold toggleMute, bind, read. cbn [outcome final trace]. rewrite Hid. cbn.
      repeat split; eauto.
      - intros x Hx. inversion Hx.
      - intros; discriminate. }
  destruct (localAudioTrack s) as [t|] eqn:Ht.
  2:{ unfold toggleMute, bind, read. cbn [outcome final trace]. rewrite Hid. cbn.
      rewrite Ht. cbn. repeat split; eauto.
      - intros x Hx. inversion Hx.
      - intros ? ? _ _ [? H]; discriminate. }
  rewrite (toggleMute_run s t r trackOp Hid Ht).
  destruct r as [e|status [e|data]]; cbn [outcome final trace].
  - repeat split; eauto.
    + intros x Hx. apply list_elem_of_singleton in Hx. eauto.
    + intros; discriminate.
  - repeat split; eauto.
    + intros x Hx. apply list_elem_of_singleton in Hx. eauto.
    + intros; discriminate.
  - rewrite Hr.
    destruct (negb (ok status) || bool_decide (is_Some (prop data "success"))) eqn:G;
      cbn [outcome final trace].
    + repeat split; eauto.
      * intros x Hx. apply list_elem_of_singleton in Hx. eauto.
      * intros ? ? [= <- <-] _ _ _. reflexivity.
    + repeat split; eauto.
      * intros x Hx. apply list_elem_of_singleton in Hx. eauto.
      * intros ? ? [= <- <-] _ _ [Hok|Hs]; exfalso.
        -- rewrite Hok in G. discriminate.
        -- rewrite (bool_decide_eq_true_2 _ Hs), orb_true_r in G. discriminate.
Qed.

(** C9 at a controller in a voice call, with a 500 answer. *)
Lemma toggleMute_failure_leaves_track_alone_witness :
  accepted (Responded 500 (inr demo_server_error)) = false
  /\ final (toggleMute (Responded 500 (inr demo_server_error)) None demo_in_call)
     = demo_in_call
  /\ outcome (toggleMute (Responded 500 (inr demo_server_error)) None demo_in_call)
     = Threw (SDK (parseAPIError demo_server_error 500)).
Proof.
  destruct (toggleMute_failure_leaves_track_alone demo_in_call
              (Responded 500 (inr demo_server_error)) None eq_refl)
    as (_ & H2 & _ & H4).
  refine (conj eq_refl (conj H2 (H4 500 demo_server_error eq_refl eq_refl _ _))).
  - eexists. reflexivity.
  - left. reflexivity.
Defined.

(** The earlier copy returns the complement of the new muted state. *)
Lemma legacy_toggleMute_returns_enabled_state s t r :
  truthy (currentCallId s) = true -> localAudioTrack s = Some t ->
  accepted r = true ->
  outcome (Legacy.toggleMute r None s) = Returned (isMuted t).
Proof.
  intros Hid Ht Hr. unfold Legacy.toggleMute, bind at 1, read. cbn [outcome final trace].
  rewrite Hid. cbn [negb]. unfold bind at 1. cbn [outcome final trace]. rewrite Ht.
  unfold logged, try_catch, bind, read, perform, awaitFetch, json, checkResponse, field.
  destruct r as [e|status [e|data]]; try discriminate. cbn in Hr |- *.
  destruct (ok status); [|discriminate]. cbn in Hr |- *.
  destruct (prop data "success") as [success|]; [|discriminate]. cbn.
  rewrite Hr. cbn. rewrite negb_involutive. reflexivity.
Qed.

(** ** Ending a call *)

Lemma hasTrack_filter sid other tracks :
  sid <> other ->
  hasTrack sid (List.filter (fun entry => negb (String.eqb (fst entry) other)) tracks)
    = hasTrack sid tracks.
Proof.
  intros Hne. unfold hasTrack. induction tracks as [|[k el] tracks IH]; [reflexivity|].
  cbn [List.filter fst]. destruct (String.eqb_spec k other) as [->|Hk]; cbn [negb existsb fst].
  - rewrite IH. destruct (String.eqb_spec other sid); [congruence|reflexivity].
  - rewrite IH. reflexivity.
Qed.

Lemma detachTrack_run sid s :
  detachTrack sid s =
    if hasTrack sid (attachedTracks s)
    then mkOut (Returned tt)
           (set_attachedTracks
              (List.filter (fun entry => negb (String.eqb (fst entry) sid))
                 (attachedTracks s)) s)
           [Do (DetachElement sid)]
    else mkOut (Returned tt) s [].
Proof.
  unfold detachTrack, bind, read, perform, write, ret. cbn.
  destruct (hasTrack sid (attachedTracks s)); reflexivity.
Qed.

(** Detaching a list of tracks touches nothing but [attachedTracks] and
    removes the element of every listed track that is attached. *)
Lemma detach_each (l : list (string * AudioElement)) : forall s,
  exists t remaining,
    forEach l (fun entry => detachTrack (fst entry)) s
      = mkOut (Returned tt) (set_attachedTracks remaining s) t
    /\ Forall (fun x => exists sid, x = Do (DetachElement sid)) t
    /\ (forall sid, In sid (map fst l) -> hasTrack sid (attachedTracks s) = true ->
          Do (DetachElement sid) ∈ t).
Proof.
  induction l as [|[k el] l IH]; intros s.
  - exists [], (attachedTracks s). split; [destruct s; reflexivity|].
    split; [constructor | intros sid []].
  - cbn [forEach fst]. rewrite bind_pre, detachTrack_run.
    destruct (hasTrack k (attachedTracks s)) eqn:Hk.
    + match goal with |- context [forEach l _ ?s1] =>
        destruct (IH s1) as (t & remaining & Hrun & Hall & Hin) end.
      rewrite Hrun. exists (Do (DetachElement k) :: t), remaining.
      split; [destruct s; reflexivity|]. split.
      * constructor; [eauto | exact Hall].
      * intros sid Hsid Hhas.
        destruct (String.eqb_spec sid k) as [->|Hne]; [left|right].
        apply Hin.
        -- cbn in Hsid. destruct Hsid as [Heq|Hsid]; [congruence | exact Hsid].
        -- cbn [attachedTracks set_attachedTracks].
           rewrite hasTrack_filter by exact Hne. exact Hhas.
    + destruct (IH s) as (t & remaining & Hrun & Hall & Hin).
      rewrite Hrun, pre_nil. exists t, remaining. split; [reflexivity|].
      split; [exact Hall|].
      intros sid Hsid Hhas. cbn in Hsid.
      destruct Hsid as [Heq|Hsid]; [congruence | apply Hin; assumption].
Qed.

Lemma hasTrack_In sid tracks : hasTrack sid tracks = true -> In sid (map fst tracks).
Proof.
  unfold hasTrack. induction tracks as [|[k el] tracks IH]; [discriminate|].
  cbn [existsb fst map]. destruct (String.eqb_spec k sid) as [->|_]; [left; reflexivity|].
  intros H. right. apply IH. exact H.
Qed.

Lemma cleanupAllTracks_run s :
  exists t,
    cleanupAllTracks s = mkOut (Returned tt) (set_attachedTracks [] s) t
    /\ Forall (fun x => exists sid, x = Do (DetachElement sid)) t
    /\ (forall sid, hasTrack sid (attachedTracks s) = true -> Do (DetachElement sid) ∈ t).
Proof.
  unfold cleanupAllTracks. rewrite bind_pre. unfold read at 1. rewrite pre_nil, bind_pre.
  destruct (detach_each (attachedTracks s) s) as (t & remaining & Hrun & Hall & Hin).
  rewrite Hrun. exists t. split.
  - unfold write, pre. cbn. rewrite app_nil_r. destruct s; reflexivity.
  - split; [exact Hall|]. intros sid H. apply Hin; [apply hasTrack_In|]; exact H.
Qed.

(** When the termination request is answered, whatever the answer says,
    [endCall] runs its whole cleanup. *)
Lemma endCall_answered s status data :
  callState s <> IDLE -> truthy (currentCallId s) = true ->
  ok status = false \/ is_Some (prop data "success") ->
  let o := endCall (Responded status (inr data)) None s in
  outcome o = Returned tt
  /\ callState (final o) = DISCONNECTED
  /\ currentCallId (final o) = VNull
  /\ seenMessageIds (final o) = ∅
  /\ room (final o) = None
  /\ assistantParticipant (final o) = None
  /\ attachedTracks (final o) = []
  /\ pollInterval (final o) = None
  /\ abortController (final o) = None
  /\ (is_Some (room s) -> localAudioTrack (final o) = None)
  /\ (forall sid, hasTrack sid (attachedTracks s) = true ->
        Do (DetachElement sid) ∈ trace o)
  /\ (is_Some (room s) -> Do RoomDisconnect ∈ trace o)
  /\ (is_Some (room s) -> is_Some (localAudioTrack s) ->
        Do UnpublishTrack ∈ trace o /\ Do StopLocalTrack ∈ trace o)
  /\ (is_Some (pollInterval s) -> Do ClearInterval ∈ trace o)
  /\ config (final o) = config s.
Proof.
  intros Hst Hid Hans. cbv zeta.
  unfold endCall. rewrite !bind_read, Hid, bool_decide_eq_false_2 by exact Hst.
  cbn [negb orb]. rewrite bind_setState.
  erewrite try_known by apply stopMessagePolling_run.
  rewrite try_read, try_perform.
  rewrite (try_known _ _ _ _ (status, inr data) _ []) by reflexivity. rewrite pre_nil.
  rewrite (try_known _ _ _ _ data _ []) by reflexivity. rewrite pre_nil.
  match goal with |- context [try_catch (bind ?m _) _ ?s'] =>
    rewrite (try_known m _ _ s' tt s' [])
  end.
  2:{ cbn [fst]. destruct Hans as [->|[v Hv]]; [reflexivity|].
      destruct (ok status); [|reflexivity]. unfold field. rewrite Hv. reflexivity. }
  rewrite pre_nil, try_read.
  cbn [abortController set_pollInterval set_callState].
  set (s1 := set_abortController None (set_pollInterval None (set_callState DISCONNECTING s))).
  assert (Hafter_abort : exists t1, forall (k : unit -> M unit) h,
    try_catch (bind match abortController s with
                   | Some _ => bind (perform AbortConnect)
                                 (fun _ => write (set_abortController None))
                   | None => ret tt
                   end k) h (set_pollInterval None (set_callState DISCONNECTING s))
     = pre t1 (try_catch (k tt) h s1)).
  { destruct (abortController s) eqn:Hac.
    - exists [Do AbortConnect]. intros k h.
      apply try_known. reflexivity.
    - exists []. intros k h. rewrite try_ret, pre_nil.
      subst s1. destruct s; cbn in *; subst; reflexivity. }
  destruct Hafter_abort as (t1 & ->).
  destruct (cleanupAllTracks_run s1) as (t2 & Hclean & Hall & Hin).
  erewrite try_known by exact Hclean. rewrite !try_read.
  cbn [localAudioTrack room set_attachedTracks s1 set_abortController set_pollInterval
       set_callState].
  set (s2 := set_localAudioTrack (match room s with Some _ => None
                                  | None => localAudioTrack s end)
               (set_attachedTracks [] s1)).
  assert (Hafter_track : exists t3,
    (forall (k : unit -> M unit) h,
       try_catch (bind match localAudioTrack s with
                   | Some _ => match room s with
                               | Some _ => bind (perform UnpublishTrack) (fun _ =>
                                             bind (perform StopLocalTrack) (fun _ =>
                                               write (set_localAudioTrack None)))
                               | None => ret tt
                               end
                   | None => ret tt
                   end k) h (set_attachedTracks [] s1)
     = pre t3 (try_catch (k tt) h s2))
    /\ (is_Some (room s) -> is_Some (localAudioTrack s) ->
         Do UnpublishTrack ∈ t3 /\ Do StopLocalTrack ∈ t3)).
  { destruct (localAudioTrack s) eqn:Htr, (room s) eqn:Hrm.
    - exists [Do UnpublishTrack; Do StopLocalTrack]. split; [|intros; split; in_trace].
      intros k h. apply try_known. reflexivity.
    - exists []. split; [|intros [? ?]; discriminate].
      intros k h. rewrite try_ret, pre_nil. subst s2 s1.
      destruct s; cbn in *; subst; reflexivity.
    - exists []. split; [|intros _ [? ?]; discriminate].
      intros k h. rewrite try_ret, pre_nil. subst s2 s1.
      destruct s; cbn in *; subst; reflexivity.
    - exists []. split; [|intros [? ?]; discriminate].
      intros k h. rewrite try_ret, pre_nil. subst s2 s1.
      destruct s; cbn in *; subst; reflexivity. }
  destruct Hafter_track as (t3 & -> & Htrack).
  rewrite try_write, try_read.
  cbn [room s2 s1 set_assistantParticipant set_localAudioTrack set_attachedTracks
       set_abortController set_pollInterval set_callState].
  destruct (room s) as [rm|] eqn:Hrm.
  - rewrite (try_known _ _ _ _ tt _ [Do RoomDisconnect]) by reflexivity.
    rewrite !try_write. erewrite try_done by apply setState_run.
    unfold pre. cbn [outcome final trace].
    repeat split; try reflexivity; try (intros _; reflexivity);
      try (intros sid Hsid; specialize (Hin sid Hsid); in_trace);
      try (destruct Htrack; [assumption..|]; in_trace);
      try (intros [? Hp]; cbn [pollInterval set_callState]; rewrite Hp; in_trace);
      try (intros _; in_trace).
  - rewrite try_ret, !try_write. erewrite try_done by apply setState_run.
    unfold pre. cbn [outcome final trace].
    repeat split; try reflexivity; try (intros [? ?]; discriminate);
      try (intros sid Hsid; specialize (Hin sid Hsid); in_trace);
      try (intros [? Hp]; cbn [pollInterval set_callState]; rewrite Hp; in_trace);
      try (exfalso; match goal with H : is_Some None |- _ => destruct H; discriminate end).
    subst s2 s1. cbn. exact Hrm.
Qed.

(** When the termination request is rejected, [endCall] stops the polling
    timer and nothing else: the session stays as it was, in state
    Disconnecting. *)
Lemma endCall_rejected s e d :
  callState s <> IDLE -> truthy (currentCallId s) = true ->
  let o := endCall (Rejected e) d s in
  outcome o = Threw (Native e)
  /\ final o = set_pollInterval None (set_callState DISCONNECTING s)
  /\ trace o =
       (if decide (callState s = DISCONNECTING) then []
        else [Emit (EvStateChange DISCONNECTING)])
       ++ match pollInterval s with Some _ => [Do ClearInterval] | None => [] end
       ++ [Do (Post (callPath s "/end") VUndefined); Emit (EvError (Native e))].
Proof.
  intros Hst Hid.
  destruct s as [cfg rm tr asst att st cid chat ac cac poll seen flag].
  cbn in Hst, Hid. unfold endCall, bind, read. cbn. rewrite Hid.
  destruct st; try contradiction; destruct poll; cbn; repeat split; reflexivity.
Qed.

(** C6, at the failing input.  [endCall] in a call whose termination request
    is rejected by the network: the polling timer is stopped and the error
    emitted and thrown, but the state stays Disconnecting, the call id, the
    room and the microphone track remain, and the room is not disconnected. *)
Theorem endCall_rejected_request_skips_cleanup :
  endCall (Rejected (mkNative "TypeError" "Failed to fetch")) None demo_in_call
  = mkOut (Threw (Native (mkNative "TypeError" "Failed to fetch")))
      (set_pollInterval None (set_callState DISCONNECTING demo_in_call))
      [Emit (EvStateChange DISCONNECTING); Do ClearInterval;
       Do (Post "https://api.wespoke.com.tr/api/v1/embed/calls/call_1/end" VUndefined);
       Emit (EvError (Native (mkNative "TypeError" "Failed to fetch")))]
  /\ callState (set_pollInterval None (set_callState DISCONNECTING demo_in_call))
     <> DISCONNECTED
  /\ currentCallId (set_pollInterval None (set_callState DISCONNECTING demo_in_call))
     = VStr "call_1"
  /\ room (set_pollInterval None (set_callState DISCONNECTING demo_in_call))
     = Some TheRoom
  /\ localAudioTrack (set_pollInterval None (set_callState DISCONNECTING demo_in_call))
     = Some (mkLocalTrack false).
Proof. repeat split; try discriminate. Qed.

(** ** Connecting to the room *)

(** One iteration of the retry loop when the abort check passes and nothing
    else runs during the connect. *)
Lemma connectLoop_step fuel attempt env s c :
  abortController s = Some c -> aborted c = false -> room s = Some TheRoom ->
  attempt <= maxRetryAttempts (config s) ->
  whileConnecting (env attempt) = Undisturbed ->
  connectLoop (S fuel) attempt env s =
    match connectResult (env attempt) with
    | None => mkOut (Returned tt) s [Do (RoomConnect attempt)]
    | Some error =>
        if isAuthFailure error then
          mkOut (Threw (SDK (ConnectionError "Authentication failed"
                               (Some (DCause error)))))
            s [Do (RoomConnect attempt)]
        else if attempt =? maxRetryAttempts (config s) then
          mkOut (Threw (SDK (ConnectionError
                   ("Failed to connect after " ++ string_of_Z attempt ++ " attempts")%string
                   (Some (DCause error)))))
            s [Do (RoomConnect attempt)]
        else
          pre [Do (RoomConnect attempt);
               Do (Sleep (backoff (retryDelay (config s)) attempt))]
            (bind (interleave (whileWaiting (env attempt)))
               (fun _ => connectLoop fuel (attempt + 1) env) s)
    end.
Proof.
  intros Hac Hab Hrm Hle Hw. cbn [connectLoop]. unfold bind at 1, read.
  cbn [outcome final trace].
  assert (G : negb (attempt <=? maxRetryAttempts (config s)) = false).
  { apply negb_false_iff, Z.leb_le. exact Hle. }
  rewrite G. unfold bind at 1. cbn [outcome final trace]. rewrite Hac, Hab.
  unfold bind at 1 2. cbn [outcome final trace]. rewrite Hrm.
  unfold bind at 1 2, perform. cbn [outcome final trace]. rewrite Hw.
  cbn [interleave ret outcome final trace app].
  destruct (connectResult (env attempt)) as [error|]; [|reflexivity].
  destruct (isAuthFailure error); [reflexivity|].
  destruct (attempt =? maxRetryAttempts (config s)); [reflexivity|].
  unfold bind at 1. cbn [outcome final trace]. unfold pre.
  destruct (bind (interleave (whileWaiting (env attempt))) _ s) as [r s2 t2].
  reflexivity.
Qed.

(** [n] transient failures in a row, all before the last permitted attempt:
    each connect is followed by its backoff wait and the loop goes on. *)
Lemma connectLoop_retries env n : forall fuel attempt s,
  abortController s = Some (mkAbort false) -> room s = Some TheRoom ->
  (forall j, attempt <= j < attempt + Z.of_nat n -> transient (env j)) ->
  attempt + Z.of_nat n <= maxRetryAttempts (config s) ->
  connectLoop (n + fuel) attempt env s =
    pre (retries (retryDelay (config s)) attempt n)
      (connectLoop fuel (attempt + Z.of_nat n) env s).
Proof.
  induction n as [|n IH]; intros fuel attempt s Hac Hrm Htr Hle.
  - cbn [retries Nat.add]. rewrite Z.add_0_r. unfold pre. cbn [app].
    destruct (connectLoop fuel attempt env s); reflexivity.
  - destruct (Htr attempt) as (error & Hres & Hauth & Hwc & Hww); [lia|].
    cbn [Nat.add].
    rewrite (connectLoop_step _ _ _ _ _ Hac eq_refl Hrm) by (lia || assumption).
    rewrite Hres, Hauth.
    destruct (Z.eqb_spec attempt (maxRetryAttempts (config s))) as [E|_]; [lia|].
    rewrite Hww. cbn [interleave]. unfold bind at 1, ret at 1. cbn [outcome final trace].
    rewrite IH; [| assumption | assumption | intros j Hj; apply Htr; lia | lia].
    replace (attempt + 1 + Z.of_nat n) with (attempt + Z.of_nat (S n)) by lia.
    unfold pre. cbn [outcome final trace retries app]. reflexivity.
Qed.

(** The outcome of [connectToRoom] when its first [k - 1] attempts fail
    transiently and nothing else runs: a success or an authentication
    failure at attempt [k] ends it there, and a failure of the last
    permitted attempt is reported as exhaustion. *)
Lemma connectToRoom_schedule env s (k : nat) :
  room s = Some TheRoom ->
  (1 <= k)%nat -> Z.of_nat k <= maxRetryAttempts (config s) ->
  (forall j, 1 <= j < Z.of_nat k -> transient (env j)) ->
  whileConnecting (env (Z.of_nat k)) = Undisturbed ->
  let s' := set_abortController (Some (mkAbort false)) s in
  let t := retries (retryDelay (config s)) 1 (k - 1)
           ++ [Do (RoomConnect (Z.of_nat k))] in
  match connectResult (env (Z.of_nat k)) with
  | None => connectToRoom env s = mkOut (Returned tt) s' t
  | Some error =>
      (isAuthFailure error = true ->
       connectToRoom env s =
         mkOut (Threw (SDK (ConnectionError "Authentication failed"
                              (Some (DCause error))))) s' t)
      /\ (isAuthFailure error = false ->
          Z.of_nat k = maxRetryAttempts (config s) ->
          connectToRoom env s =
            mkOut (Threw (SDK (ConnectionError
                     ("Failed to connect after " ++ string_of_Z (Z.of_nat k)
                      ++ " attempts")%string
                     (Some (DCause error))))) s' t)
  end.
Proof.
  intros Hrm Hk Hle Htr Hwc s' t.
  assert (Hrun : connectToRoom env s =
            connectLoop (Z.to_nat (maxRetryAttempts (config s))) 1 env s').
  { unfold connectToRoom, bind, read, write. cbn [outcome final trace]. rewrite Hrm.
    cbn [outcome final trace app].
    destruct (connectLoop _ 1 env _); reflexivity. }
  assert (Hfuel : Z.to_nat (maxRetryAttempts (config s))
            = ((k - 1) + S (Z.to_nat (maxRetryAttempts (config s)) - k))%nat) by lia.
  assert (Hloop : connectLoop (Z.to_nat (maxRetryAttempts (config s))) 1 env s' =
            pre (retries (retryDelay (config s)) 1 (k - 1))
              (connectLoop (S (Z.to_nat (maxRetryAttempts (config s)) - k))
                 (Z.of_nat k) env s')).
  { rewrite Hfuel at 1.
    rewrite (connectLoop_retries env (k - 1) _ 1 s');
      [| reflexivity | exact Hrm | intros j Hj; apply Htr; lia | cbn [config s' set_abortController]; lia].
    replace (1 + Z.of_nat (k - 1)) with (Z.of_nat k) by lia. reflexivity. }
  rewrite Hrun, Hloop.
  rewrite (connectLoop_step _ _ _ s' (mkAbort false)); try assumption; try reflexivity.
  cbn [config s' set_abortController].
  destruct (connectResult (env (Z.of_nat k))) as [error|]; [|reflexivity].
  split.
  - intros ->. reflexivity.
  - intros -> He. apply Z.eqb_eq in He. rewrite He. reflexivity.
Qed.

(** Transport connect fails twice with a transient error and succeeds on the
    third attempt: the call starts, after waits of [retryDelay] and
    [1.5 * retryDelay]. *)
Example demo_third_attempt_connects :
  let o := startCall "asst_1" VUndefined
             (demo_bootstrap demo_token demo_third_time_lucky) demo_idle in
  outcome o = Returned tt
  /\ callState (final o) = CONNECTED
  /\ List.filter (fun x => match x with Do (RoomConnect _) | Do (Sleep _) => true
                           | _ => false end) (trace o)
     = [Do (RoomConnect 1); Do (Sleep (backoff 2000 1));
        Do (RoomConnect 2); Do (Sleep (backoff 2000 2)); Do (RoomConnect 3)]
  /\ (backoff 2000 1 + backoff 2000 2 == 2000 * (1 + (3 # 2)))%Q.
Proof. vm_compute. repeat split; reflexivity. Qed.

(** Once [endCall] has cleared the abort controller, the next abort check
    of the retry loop dereferences [null]. *)
Lemma connectLoop_without_controller fuel attempt env s :
  abortController s = None -> attempt <= maxRetryAttempts (config s) ->
  connectLoop (S fuel) attempt env s = mkOut (Threw TypeError) s [].
Proof.
  intros Hac Hle. cbn [connectLoop]. unfold bind at 1, read. cbn [outcome final trace].
  assert (G : negb (attempt <=? maxRetryAttempts (config s)) = false).
  { apply negb_false_iff, Z.leb_le. exact Hle. }
  rewrite G. unfold bind at 1. cbn [outcome final trace]. rewrite Hac. reflexivity.
Qed.

(** A call of [endCall()] that runs during a backoff wait of the retry loop
    and whose termination request is answered clears the abort controller;
    the loop's next abort check then throws a TypeError. *)
Lemma connect_cancelled_by_endCall fuel attempt env s error status data :
  abortController s = Some (mkAbort false) -> room s = Some TheRoom ->
  callState s <> IDLE -> truthy (currentCallId s) = true ->
  attempt < maxRetryAttempts (config s) ->
  connectResult (env attempt) = Some error -> isAuthFailure error = false ->
  whileConnecting (env attempt) = Undisturbed ->
  whileWaiting (env attempt) = EndCallRuns (Responded status (inr data)) None ->
  ok status = false \/ is_Some (prop data "success") ->
  outcome (connectLoop (S (S fuel)) attempt env s) = Threw TypeError.
Proof.
  intros Hac Hrm Hst Hid Hlt Hres Hauth Hwc Hww Hans.
  rewrite (connectLoop_step _ _ _ _ _ Hac eq_refl Hrm) by (lia || assumption).
  rewrite Hres, Hauth.
  destruct (Z.eqb_spec attempt (maxRetryAttempts (config s))) as [E|_]; [lia|].
  rewrite Hww. cbn [interleave pre outcome]. rewrite bind_pre.
  destruct (endCall_answered s status data Hst Hid Hans)
    as (Ho & _ & _ & _ & _ & _ & _ & _ & Hnone & _ & _ & _ & _ & _ & Hcfg).
  unfold try_catch.
  destruct (endCall (Responded status (inr data)) None s) as [[[]|e] s1 t1];
    cbn [outcome final trace] in *; [|discriminate].
  rewrite connectLoop_without_controller by (rewrite ?Hcfg; assumption || lia).
  reflexivity.
Qed.

(** ** Properties kept by every computation *)

Section Keeps.

Variable P : Wespoke -> Prop.

Lemma keeps_ret {A} (a : A) : keeps P (ret a).
Proof. intros s H. exact H. Qed.

Lemma keeps_throw {A} e : keeps P (@throw A e).
Proof. intros s H. exact H. Qed.

Lemma keeps_read {A} (f : Wespoke -> A) : keeps P (read f).
Proof. intros s H. exact H. Qed.

Lemma keeps_perform a : keeps P (perform a).
Proof. intros s H. exact H. Qed.

Lemma keeps_emit e : keeps P (emit e).
Proof. intros s H. exact H. Qed.

Lemma keeps_write f : (forall s, P s -> P (f s)) -> keeps P (write f).
Proof. intros Hf s H. apply Hf. exact H. Qed.

Lemma keeps_bind {A B} (m : M A) (k : A -> M B) :
  keeps P m -> (forall a, keeps P (k a)) -> keeps P (bind m k).
Proof.
  intros Hm Hk s H. unfold bind. specialize (Hm s H).
  destruct (m s) as [[a|e] s1 t1]; cbn in *; [|exact Hm].
  specialize (Hk a s1 Hm). destruct (k a s1); exact Hk.
Qed.

Lemma keeps_try_catch {A} (m : M A) h :
  keeps P m -> (forall e, keeps P (h e)) -> keeps P (try_catch m h).
Proof.
  intros Hm Hh s H. unfold try_catch. specialize (Hm s H).
  destruct (m s) as [[a|e] s1 t1]; cbn in *; [exact Hm|].
  specialize (Hh e s1 Hm). destruct (h e s1); exact Hh.
Qed.

Lemma keeps_finally {A} (m : M A) f :
  keeps P m -> keeps P f -> keeps P (finally m f).
Proof.
  intros Hm Hf s H. unfold finally. specialize (Hm s H).
  destruct (m s) as [r s1 t1]; cbn in *.
  specialize (Hf s1 Hm). destruct (f s1); exact Hf.
Qed.

Lemma keeps_forEach {A} (xs : list A) f :
  (forall x, keeps P (f x)) -> keeps P (forEach xs f).
Proof.
  intros Hf. induction xs as [|x xs IH]; cbn [forEach].
  - apply keeps_ret.
  - apply keeps_bind; [apply Hf | intros _; exact IH].
Qed.

End Keeps.

Create HintDb keep.

Ltac keep_write :=
  first [ intros ? H; exact H
        | intros ? _ c Hc; cbn in Hc; inversion Hc; reflexivity ].

Ltac keep :=
  repeat first
    [ progress intros
    | solve [auto 1 with keep nocore]
    | apply keeps_ret
    | apply keeps_throw
    | apply keeps_read
    | apply keeps_perform
    | apply keeps_emit
    | apply keeps_write; keep_write
    | apply keeps_bind
    | apply keeps_try_catch
    | apply keeps_finally
    | apply keeps_forEach
    | match goal with
      | |- keeps _ (if ?b then _ else _) => destruct b
      | |- keeps _ (match ?x with _ => _ end) => destruct x
      | |- keeps _ (when ?b _) => unfold when
      | |- keeps _ (logged _) => unfold logged
      | |- keeps _ (settle _) => unfold settle
      | |- keeps _ (field _ _) => unfold field
      | |- keeps _ (await _) => unfold await
      | |- keeps _ (awaitFetch _) => unfold awaitFetch
      | |- keeps _ (json _) => unfold json
      | |- keeps _ (checkResponse _ _) => unfold checkResponse
      | |- keeps _ (interleave _) => unfold interleave
      | |- keeps _ (previewContent _) => unfold previewContent
      end ].

Lemma unsignalled_endCall r d : keeps unsignalled (endCall r d).
Proof. unfold endCall, setState, stopMessagePolling, cleanupAllTracks, detachTrack. keep. Qed.
#[local] Hint Resolve unsignalled_endCall : keep.

Lemma unsignalled_connectLoop fuel env : forall attempt,
  keeps unsignalled (connectLoop fuel attempt env).
Proof.
  induction fuel as [|fuel IH]; intros attempt; cbn [connectLoop].
  - apply keeps_ret.
  - keep.
Qed.
#[local] Hint Resolve unsignalled_connectLoop : keep.

Lemma unsignalled_startCall a md env : keeps unsignalled (startCall a md env).
Proof.
  unfold startCall, bootstrap, bootstrapFailed, fetchToken, createRoom,
    activateAudioContext, connectToRoom, publishLocalAudio, checkExistingParticipants,
    setupAssistantTracks, handleAssistantAudioTrack, startMessagePolling, setState.
  keep.
Qed.

Lemma unsignalled_endChatSession r : keeps unsignalled (endChatSession r).
Proof. unfold endChatSession, setState. keep. Qed.
#[local] Hint Resolve unsignalled_endChatSession : keep.

Lemma unsignalled_sseRecords rs : forall id acc, keeps unsignalled (sseRecords rs id acc).
Proof.
  induction rs as [|r rs IH]; intros id acc; cbn [sseRecords].
  - apply keeps_ret.
  - apply keeps_bind; [unfold sseDispatch; keep|].
    intros [id' acc'|]; [apply IH | apply keeps_ret].
Qed.
#[local] Hint Resolve unsignalled_sseRecords : keep.

Lemma unsignalled_sseReads reads : forall id acc, keeps unsignalled (sseReads reads id acc).
Proof.
  induction reads as [|[rs|e] reads IH]; intros id acc; cbn [sseReads].
  - apply keeps_ret.
  - apply keeps_bind; [apply unsignalled_sseRecords|].
    intros [id' acc'|]; [apply IH | apply keeps_ret].
  - apply keeps_throw.
Qed.
#[local] Hint Resolve unsignalled_sseReads : keep.

Lemma unsignalled_invoke c : keeps unsignalled (invoke c).
Proof.
  destruct c; cbn [invoke].
  - unfold settle. pose proof (unsignalled_startCall assistantId callMetadata env). keep.
  - unfold settle. keep.
  - unfold settle, toggleMute. keep.
  - unfold settle, startChatSession, setState. keep.
  - unfold settle. keep.
  - unfold settle, sendChatMessage, handleSSEStream. keep.
  - unfold pollTick, getMessages, emitIfNew. keep.
  - unfold handleDataChannelMessage. keep.
  - unfold onRoomDisconnected, setState, stopMessagePolling. keep.
  - unfold onParticipantConnected, setupAssistantTracks, handleAssistantAudioTrack. keep.
  - unfold onParticipantDisconnected, cleanupParticipantTracks, detachTrack. keep.
  - unfold onTrackSubscribed, handleAssistantAudioTrack. keep.
  - unfold onTrackUnsubscribed, detachTrack. keep.
Qed.

(** In every session of a freshly constructed controller the stored abort
    controller has never been signalled: [endCall] signals it and drops it
    in the same step. *)
Lemma abort_signal_never_observed given s calls :
  construct given = inr s ->
  unsignalled (final (session calls s)).
Proof.
  intros Hc. apply (keeps_forEach unsignalled calls invoke unsignalled_invoke).
  unfold construct in Hc.
  destruct (String.eqb (given_apiKey given) ""); [discriminate|].
  destruct (negb (startsWith "pk_" (given_apiKey given))); [discriminate|].
  injection Hc as <-. intros c Habs. discriminate.
Qed.

Lemma unsignalled_interleave w : keeps unsignalled (interleave w).
Proof.
  destruct w; cbn [interleave]; [apply keeps_ret|].
  apply keeps_try_catch; [apply unsignalled_endCall | intros; apply keeps_ret].
Qed.

Lemma config_endCall c r d : keeps (fun s => config s = c) (endCall r d).
Proof. unfold endCall, setState, stopMessagePolling, cleanupAllTracks, detachTrack. keep. Qed.

Lemma config_interleave c w : keeps (fun s => config s = c) (interleave w).
Proof.
  destruct w; cbn [interleave]; [apply keeps_ret|].
  apply keeps_try_catch; [apply config_endCall | intros; apply keeps_ret].
Qed.

(** The retry loop does not depend on its fuel once there is enough of it
    for the attempts that remain. *)
Lemma connectLoop_enough_fuel env fuel : forall attempt s,
  maxRetryAttempts (config s) - attempt + 1 <= Z.of_nat fuel ->
  connectLoop (S fuel) attempt env s = connectLoop fuel attempt env s.
Proof.
  induction fuel as [|fuel IH]; intros attempt s Hfuel.
  - cbn [connectLoop]. rewrite bind_read.
    destruct (Z.leb_spec attempt (maxRetryAttempts (config s))); [lia|reflexivity].
  - change (connectLoop (S (S fuel)) attempt env s)
      with (bind (read config) (fun cfg =>
              if negb (attempt <=? maxRetryAttempts cfg) then ret tt
              else bind (read abortController) (fun ac =>
                match ac with
                | None => throw TypeError
                | Some controller =>
                    if aborted controller
                    then throw (SDK (ConnectionError "Connection aborted" None))
                    else bind (read room) (fun rm =>
                      bind match rm with
                           | None => ret (Some (mkNative "TypeError"
                                       "Cannot read properties of null or undefined"))
                           | Some _ =>
                               bind (perform (RoomConnect attempt)) (fun _ =>
                                 bind (interleave (whileConnecting (env attempt)))
                                   (fun _ => ret (connectResult (env attempt))))
                           end
                        (fun failure =>
                           match failure with
                           | None => ret tt
                           | Some error =>
                               if isAuthFailure error then
                                 throw (SDK (ConnectionError "Authentication failed"
                                               (Some (DCause error))))
                               else if attempt =? maxRetryAttempts cfg then
                                 throw (SDK (ConnectionError
                                   ("Failed to connect after " ++ string_of_Z attempt
                                    ++ " attempts")%string
                                   (Some (DCause error))))
                               else
                                 bind (perform (Sleep (backoff (retryDelay cfg) attempt)))
                                   (fun _ =>
                                      bind (interleave (whileWaiting (env attempt)))
                                        (fun _ => connectLoop (S fuel) (attempt + 1) env))
                           end))
                end)) s).
    cbn [connectLoop]. rewrite !bind_read.
    destruct (negb (attempt <=? maxRetryAttempts (config s))) eqn:G; [reflexivity|].
    apply negb_false_iff, Z.leb_le in G.
    rewrite !bind_read. destruct (abortController s) as [c|]; [|reflexivity].
    destruct (aborted c); [reflexivity|]. rewrite !bind_read.
    assert (Hrest : forall s1 error, config s1 = config s ->
      (if isAuthFailure error
       then throw (SDK (ConnectionError "Authentication failed" (Some (DCause error))))
       else if attempt =? maxRetryAttempts (config s)
            then throw (SDK (ConnectionError
                   ("Failed to connect after " ++ string_of_Z attempt ++ " attempts")%string
                   (Some (DCause error))))
            else bind (perform (Sleep (backoff (retryDelay (config s)) attempt)))
                   (fun _ => bind (interleave (whileWaiting (env attempt)))
                      (fun _ => connectLoop (S fuel) (attempt + 1) env))) s1
      = (if isAuthFailure error
         then throw (SDK (ConnectionError "Authentication failed" (Some (DCause error))))
         else if attempt =? maxRetryAttempts (config s)
              then throw (SDK (ConnectionError
                     ("Failed to connect after " ++ string_of_Z attempt ++ " attempts")%string
                     (Some (DCause error))))
              else bind (perform (Sleep (backoff (retryDelay (config s)) attempt)))
                     (fun _ => bind (interleave (whileWaiting (env attempt)))
                        (fun _ => connectLoop fuel (attempt + 1) env))) s1).
    { intros s1 error Hcfg. destruct (isAuthFailure error); [reflexivity|].
      destruct (attempt =? maxRetryAttempts (config s)); [reflexivity|].
      rewrite !bind_perform. f_equal. rewrite !bind_pre.
      pose proof (config_interleave (config s) (whileWaiting (env attempt)) s1 Hcfg) as Hc2.
      destruct (interleave (whileWaiting (env attempt)) s1) as [[[]|e2] s2 t2];
        [|reflexivity].
      cbn [final] in Hc2. rewrite IH by (rewrite Hc2; lia). reflexivity. }
    destruct (room s) as [rm|].
    + rewrite (bind_pre (bind (perform (RoomConnect attempt)) _)).
      rewrite (bind_pre (bind (perform (RoomConnect attempt)) _)).
      rewrite !bind_perform, !bind_pre.
      pose proof (config_interleave (config s) (whileConnecting (env attempt)) s eq_refl)
        as Hc1.
      destruct (interleave (whileConnecting (env attempt)) s) as [[[]|e1] s1 t1];
        cbn [outcome final trace pre ret app] in *; [|reflexivity].
      destruct (connectResult (env attempt)) as [error|]; [|reflexivity].
      f_equal. exact (Hrest s1 error Hc1).
    + rewrite !bind_ret.
      exact (Hrest s (mkNative "TypeError" "Cannot read properties of null or undefined")
               eq_refl).
Qed.

(** The fuel [connectToRoom] hands to the loop is enough: any larger amount
    gives the same run, so the loop of the source, which has no such bound,
    is rendered faithfully. *)
Lemma connectToRoom_fuel_suffices env extra s :
  connectLoop (extra + Z.to_nat (maxRetryAttempts (config s))) 1 env s
  = connectLoop (Z.to_nat (maxRetryAttempts (config s))) 1 env s.
Proof.
  induction extra as [|extra IH]; [reflexivity|].
  cbn [Nat.add]. rewrite connectLoop_enough_fuel by lia. exact IH.
Qed.

(** The retry loop never reports an abort: whenever its check runs, the
    stored controller is absent or unsignalled. *)
Lemma connectLoop_never_reports_abort fuel env : forall attempt s e,
  unsignalled s ->
  outcome (connectLoop fuel attempt env s) = Threw e ->
  e <> SDK (ConnectionError "Connection aborted" None).
Proof.
  induction fuel as [|fuel IH]; intros attempt s e Hun; cbn [connectLoop].
  - discriminate.
  - unfold bind at 1, read. cbn [outcome final trace].
    destruct (negb (attempt <=? maxRetryAttempts (config s))); [discriminate|].
    unfold bind at 1. cbn [outcome final trace].
    destruct (abortController s) as [c|] eqn:Hac; [|intros [= <-]; discriminate].
    rewrite (Hun c Hac). unfold bind at 1 2. cbn [outcome final trace].
    destruct (room s) as [rm|] eqn:Hrm.
    + unfold bind at 1 2, perform. cbn [outcome final trace].
      pose proof (unsignalled_interleave (whileConnecting (env attempt)) s Hun) as Hun1.
      destruct (interleave (whileConnecting (env attempt)) s) as [[[]|e1] s1 t1] eqn:Hi;
        cbn [outcome final trace ret] in *.
      2:{ destruct (whileConnecting (env attempt)); cbn [interleave] in Hi.
          - discriminate.
          - unfold try_catch in Hi. destruct (endCall r disconnecting s) as [[[]|?] ? ?];
              discriminate. }
      destruct (connectResult (env attempt)) as [error|]; [|discriminate].
      destruct (isAuthFailure error); [intros [= <-]; discriminate|].
      destruct (attempt =? maxRetryAttempts (config s)); [intros [= <-]; discriminate|].
      unfold bind at 1. cbn [outcome final trace].
      pose proof (unsignalled_interleave (whileWaiting (env attempt)) s1 Hun1) as Hun2.
      unfold bind at 1.
      destruct (interleave (whileWaiting (env attempt)) s1) as [[[]|e2] s2 t2] eqn:Hi2;
        cbn [outcome final trace] in *.
      2:{ destruct (whileWaiting (env attempt)); cbn [interleave] in Hi2.
          - discriminate.
          - unfold try_catch in Hi2. destruct (endCall r disconnecting s1) as [[[]|?] ? ?];
              discriminate. }
      specialize (IH (attempt + 1) s2 e Hun2).
      destruct (connectLoop fuel (attempt + 1) env s2) as [r3 s3 t3].
      cbn [outcome final trace] in *. exact IH.
    + cbn [outcome final trace ret].
      unfold isAuthFailure at 1. cbn [native_message].
      match goal with |- context [if ?b then _ else _] => change b with false end.
      cbv iota.
      destruct (attempt =? maxRetryAttempts (config s)); [intros [= <-]; discriminate|].
      unfold bind at 1, perform. cbn [outcome final trace].
      pose proof (unsignalled_interleave (whileWaiting (env attempt)) s Hun) as Hun2.
      unfold bind at 1.
      destruct (interleave (whileWaiting (env attempt)) s) as [[[]|e2] s2 t2] eqn:Hi2;
        cbn [outcome final trace] in *.
      2:{ destruct (whileWaiting (env attempt)); cbn [interleave] in Hi2.
          - discriminate.
          - unfold try_catch in Hi2. destruct (endCall r disconnecting s) as [[[]|?] ? ?];
              discriminate. }
      specialize (IH (attempt + 1) s2 e Hun2).
      destruct (connectLoop fuel (attempt + 1) env s2) as [r3 s3 t3].
      cbn [outcome final trace] in *. exact IH.
Qed.

(** C5, at the failing input.  The first connect attempt fails with a
    network error, and [endCall()] runs during the backoff wait: it signals
    the abort controller and clears the field, so the abort check before the
    second attempt throws a TypeError, not the Connection error for an
    aborted connect. *)
Theorem connect_aborted_by_endCall_throws_TypeError :
  startCall "asst_1" VUndefined (demo_bootstrap demo_token demo_endCall_meanwhile)
    demo_idle
  = mkOut (Threw TypeError) demo_idle
      [Emit (EvStateChange CONNECTING);
       Do (Post "https://api.wespoke.com.tr/api/v1/embed/token"
             (VObj [("assistantId", VStr "asst_1"); ("metadata", VObj [])]));
       Do NewRoom; Do (RoomConnect 1); Do (Sleep (backoff 2000 1));
       Emit (EvStateChange DISCONNECTING);
       Do (Post "https://api.wespoke.com.tr/api/v1/embed/calls/call_1/end" VUndefined);
       Do AbortConnect; Do RoomDisconnect;
       Emit (EvStateChange DISCONNECTED); Emit (EvStateChange IDLE);
       Emit (EvError TypeError)]
  /\ TypeError <> SDK (ConnectionError "Connection aborted" None).
Proof. split; [vm_compute; reflexivity | discriminate]. Qed.

(** ** The chat stream *)

Lemma falsy_has_no_property v k : truthy v = false -> optprop v k = VUndefined.
Proof. destruct v; try discriminate; reflexivity. Qed.

Lemma dispatch_start r id acc s :
  eventType r = "message:start" -> truthy (eventData r) = true ->
  sseDispatch r id acc s =
    mkOut (Returned (Continue
             (or_else (optprop (eventData r) "messageId")
                      (VStr ("assistant-" ++ string_of_Z (now r))%string))
             (VStr ""))) s [].
Proof. intros Ht Hd. unfold sseDispatch. rewrite Ht, Hd. reflexivity. Qed.

Lemma dispatch_chunk r id acc s :
  eventType r = "message:chunk" ->
  sseDispatch r id acc s =
    mkOut (Returned (Continue id
             (or_else (optprop (eventData r) "accumulatedContent") acc))) s [].
Proof.
  intros Ht. unfold sseDispatch. rewrite Ht. cbn [String.eqb Ascii.eqb Bool.eqb orb].
  destruct (truthy (eventData r)) eqn:Hd; cbn [negb orb].
  - reflexivity.
  - rewrite (falsy_has_no_property _ _ Hd). reflexivity.
Qed.

Lemma dispatch_complete r id acc s content :
  eventType r = "message:complete" -> truthy (eventData r) = true ->
  finalContent r acc = Some content ->
  let mid := or_else (optprop (messageDataOf r) "id") id in
  let completeMessage := VObj [
    ("id", mid);
    ("role", or_else (optprop (messageDataOf r) "role") (VStr "assistant"));
    ("content", content);
    ("timestamp", or_else (optprop (eventData r) "timestamp") (VNum (now r)));
    ("isComplete", VBool true)] in
  sseDispatch r id acc s =
    if has mid (seenMessageIds s)
    then mkOut (Returned (Continue id (VStr ""))) s []
    else mkOut (Returned (Continue id (VStr "")))
           (set_seenMessageIds (add mid (seenMessageIds s)) s)
           [Emit (EvMessage completeMessage)].
Proof.
  intros Ht Hd Hc. cbv zeta. unfold sseDispatch. rewrite Ht, Hd.
  cbn [String.eqb Ascii.eqb Bool.eqb orb negb].
  unfold finalContent, messageDataOf in *.
  unfold bind at 1.
  destruct (truthy (optprop (or_else (optprop (eventData r) "message") (VObj [])) "content")).
  - injection Hc as <-. unfold bind, read, when, write, emit, ret. cbn.
    destruct (has _ (seenMessageIds s)); cbn; [destruct s|]; reflexivity.
  - destruct acc; try discriminate. injection Hc as <-.
    unfold bind, read, when, write, emit, ret. cbn.
    destruct (has _ (seenMessageIds s)); cbn; [destruct s|]; reflexivity.
Qed.

Lemma sseRecords_chunks chunks : forall rest id acc s,
  Forall (fun c => eventType c = "message:chunk") chunks ->
  sseRecords (chunks ++ rest) id acc s = sseRecords rest id (buffered chunks acc) s.
Proof.
  induction chunks as [|c chunks IH]; intros rest id acc s H; [reflexivity|].
  inversion H; subst. cbn [app sseRecords buffered fold_left].
  unfold bind at 1. rewrite dispatch_chunk by assumption.
  rewrite IH by assumption. unfold buffered.
  destruct (sseRecords rest id _ s); reflexivity.
Qed.

Lemma sseRecords_app l1 : forall l2 id acc s,
  sseRecords (l1 ++ l2) id acc s =
    match sseRecords l1 id acc s with
    | mkOut (Returned (Continue i a)) s1 t1 => pre t1 (sseRecords l2 i a s1)
    | mkOut (Returned Return) s1 t1 => mkOut (Returned Return) s1 t1
    | mkOut (Threw e) s1 t1 => mkOut (Threw e) s1 t1
    end.
Proof.
  induction l1 as [|r l1 IH]; intros l2 id acc s.
  - cbn [app sseRecords]. unfold ret. rewrite pre_nil. reflexivity.
  - cbn [app sseRecords]. rewrite !bind_pre.
    destruct (sseDispatch r id acc s) as [[[id' acc'|]|e] s1 t1]; try reflexivity.
    rewrite IH.
    destruct (sseRecords l1 id' acc' s1) as [[[id2 acc2|]|e2] s2 t2];
      try reflexivity.
    rewrite pre_pre. reflexivity.
Qed.

(** Reading the stream in several chunks is reading their records in one. *)
Lemma sseReads_concat reads : forall id acc s,
  sseReads (map Chunk reads) id acc s =
    match sseRecords (concat reads) id acc s with
    | mkOut (Returned _) s1 t1 => mkOut (Returned tt) s1 t1
    | mkOut (Threw e) s1 t1 => mkOut (Threw e) s1 t1
    end.
Proof.
  induction reads as [|rs reads IH]; intros id acc s; [reflexivity|].
  cbn [map sseReads concat]. rewrite bind_pre, sseRecords_app.
  destruct (sseRecords rs id acc s) as [[[id2 acc2|]|e2] s2 t2]; try reflexivity.
  - rewrite IH.
    destruct (sseRecords (concat reads) id2 acc2 s2) as [[?|?] ? ?]; reflexivity.
  - unfold pre, ret. cbn. rewrite app_nil_r. reflexivity.
Qed.

(** A complete record with no content from the server, when the buffer is
    not a string: [accumulatedContent.trim] is not a function. *)
Lemma dispatch_complete_fails r id acc s :
  eventType r = "message:complete" -> truthy (eventData r) = true ->
  finalContent r acc = None ->
  sseDispatch r id acc s = mkOut (Threw TypeError) s [].
Proof.
  intros Ht Hd Hc. unfold sseDispatch. rewrite Ht, Hd.
  cbn [String.eqb Ascii.eqb Bool.eqb orb negb].
  unfold finalContent, messageDataOf in Hc. unfold bind at 1.
  destruct (truthy (optprop (or_else (optprop (eventData r) "message") (VObj [])) "content"));
    [discriminate|].
  destruct acc; try discriminate; reflexivity.
Qed.

(** C7, as amended.  A chat stream made of a [message:start] record, any
    number of [message:chunk] records and a [message:complete] record, each
    of the first and last with decoded data, delivered in any number of
    reads: the start and chunk records emit nothing.  When the server
    supplies a content, or the buffer is a string, the complete record emits
    one [message] with the server's content or else the trimmed buffer,
    with the server's role or else [assistant], and enters its id in the
    ledger, unless the id is already there, in which case nothing is
    emitted.  When the server supplies no content and the buffer is not a
    string, the stream fails with a TypeError and no message is emitted. *)
Theorem chat_stream_emits_on_complete (s : Wespoke) (started : Z)
    (start complete_record : SSERecord) (chunks : list SSERecord)
    (reads : list (list SSERecord)) :
  eventType start = "message:start" -> truthy (eventData start) = true ->
  Forall (fun c => eventType c = "message:chunk") chunks ->
  eventType complete_record = "message:complete" ->
  truthy (eventData complete_record) = true ->
  concat reads = start :: chunks ++ [complete_record] ->
  let id := or_else (optprop (messageDataOf complete_record) "id")
              (or_else (optprop (eventData start) "messageId")
                 (VStr ("assistant-" ++ string_of_Z (now start))%string)) in
  let o := handleSSEStream (Some (map Chunk reads)) started s in
  match finalContent complete_record (buffered chunks (VStr "")) with
  | Some content =>
      let completeMessage := VObj [
        ("id", id);
        ("role", or_else (optprop (messageDataOf complete_record) "role")
                   (VStr "assistant"));
        ("content", content);
        ("timestamp", or_else (optprop (eventData complete_record) "timestamp")
                        (VNum (now complete_record)));
        ("isComplete", VBool true)] in
      outcome o = Returned tt
      /\ trace o = (if has id (seenMessageIds s) then []
                    else [Emit (EvMessage completeMessage)]) ++ [Do ReleaseReaderLock]
      /\ final o = (if has id (seenMessageIds s) then s
                    else set_seenMessageIds (add id (seenMessageIds s)) s)
  | None =>
      outcome o = Threw TypeError
      /\ trace o = [Do ReleaseReaderLock]
      /\ final o = s
  end
  /\ trace (handleSSEStream (Some [Chunk (start :: chunks)]) started s)
       = [Do ReleaseReaderLock].
Proof.
  intros Hs Hsd Hch Hc Hcd Hreads id o.
  subst o id.
  assert (Hprefix : forall rest,
    sseRecords (start :: chunks ++ rest)
      (VStr ("assistant-" ++ string_of_Z started)%string) (VStr "") s
    = sseRecords rest
        (or_else (optprop (eventData start) "messageId")
           (VStr ("assistant-" ++ string_of_Z (now start))%string))
        (buffered chunks (VStr "")) s).
  { intros rest. cbn [sseRecords]. rewrite bind_pre, dispatch_start by assumption.
    rewrite pre_nil. apply sseRecords_chunks. exact Hch. }
  assert (Hquiet : sseReads [Chunk (start :: chunks)]
            (VStr ("assistant-" ++ string_of_Z started)%string) (VStr "") s
          = mkOut (Returned tt) s []).
  { change [Chunk (start :: chunks)] with (map Chunk [start :: chunks]).
    rewrite sseReads_concat. cbn [concat]. rewrite app_nil_r.
    pose proof (Hprefix []) as H. rewrite app_nil_r in H. rewrite H. reflexivity. }
  unfold handleSSEStream, finally, logged, try_catch.
  rewrite Hquiet, sseReads_concat, Hreads, Hprefix.
  cbn [sseRecords]. rewrite bind_pre.
  destruct (finalContent complete_record (buffered chunks (VStr ""))) as [content|] eqn:Hcontent.
  - rewrite (dispatch_complete _ _ _ _ content) by assumption.
    destruct (has _ (seenMessageIds s)); repeat split; reflexivity.
  - rewrite dispatch_complete_fails by assumption. repeat split; reflexivity.
Qed.

(** C7 at an answer of three chunks delivered in two reads. *)
Lemma chat_stream_emits_on_complete_witness :
  eventType demo_start = "message:start"
  /\ concat (demo_reads []) = demo_start :: demo_chunks ++ [demo_complete []]
  /\ finalContent (demo_complete []) (buffered demo_chunks (VStr ""))
     = Some (VStr "Hello there")
  /\ messages (trace (handleSSEStream (Some (map Chunk (demo_reads [])))
                        1700000000000 demo_in_chat))
     = [VObj [("id", VStr "m1"); ("role", VStr "assistant");
              ("content", VStr "Hello there"); ("timestamp", VNum 1700000000500);
              ("isComplete", VBool true)]].
Proof.
  assert (Hchunks : Forall (fun c => eventType c = "message:chunk") demo_chunks).
  { repeat constructor. }
  destruct (chat_stream_emits_on_complete demo_in_chat 1700000000000 demo_start
              (demo_complete []) demo_chunks (demo_reads [])
              eq_refl eq_refl Hchunks eq_refl eq_refl eq_refl)
    as ((_ & Htrace & _) & _).
  split; [reflexivity|]. split; [reflexivity|]. split; [reflexivity|].
  exact (f_equal messages Htrace).
Defined.

(** C7 as stated fails when the server names another role, which is emitted
    as it is, and when the id is already in the ledger, where nothing is
    emitted: here the same answer streamed a second time. *)
Lemma chat_stream_role_and_ledger_counterexample :
  messages (trace (handleSSEStream
             (Some (map Chunk (demo_reads [("role", VStr "system")])))
             1700000000000 demo_in_chat))
  = [VObj [("id", VStr "m1"); ("role", VStr "system");
           ("content", VStr "Hello there"); ("timestamp", VNum 1700000000500);
           ("isComplete", VBool true)]]
  /\ messages (trace (handleSSEStream (Some (map Chunk (demo_reads [])))
                       1700000000900
                       (final (handleSSEStream (Some (map Chunk (demo_reads [])))
                                 1700000000000 demo_in_chat))))
     = [].
Proof. split; vm_compute; reflexivity. Qed.

(** The scenario of the specification: [message:start], three
    [message:chunk] records, [message:complete] with content "Hello there",
    then [done]. *)
Example demo_chat_scenario :
  messages (trace (handleSSEStream
    (Some [Chunk (demo_start :: demo_chunks);
           Chunk [demo_complete [("content", VStr "Hello there")];
                  demo_record "done" (VObj [])]])
    1700000000000 demo_in_chat))
  = [VObj [("id", VStr "m1"); ("role", VStr "assistant");
           ("content", VStr "Hello there"); ("timestamp", VNum 1700000000500);
           ("isComplete", VBool true)]].
Proof. vm_compute. reflexivity. Qed.

(** ** Weakest preconditions *)

Lemma wp_ret {A} (a : A) Q s : wp (ret a) Q s = Q (Returned a) s [].
Proof. reflexivity. Qed.

Lemma wp_throw {A} e (Q : result A -> Wespoke -> list obs -> Prop) s :
  wp (throw e) Q s = Q (Threw e) s [].
Proof. reflexivity. Qed.

Lemma wp_read {A} (f : Wespoke -> A) Q s : wp (read f) Q s = Q (Returned (f s)) s [].
Proof. reflexivity. Qed.

Lemma wp_write f Q s : wp (write f) Q s = Q (Returned tt) (f s) [].
Proof. reflexivity. Qed.

Lemma wp_emit e Q s : wp (emit e) Q s = Q (Returned tt) s [Emit e].
Proof. reflexivity. Qed.

Lemma wp_perform a Q s : wp (perform a) Q s = Q (Returned tt) s [Do a].
Proof. reflexivity. Qed.

Lemma wp_bind {A B} (m : M A) (k : A -> M B) Q s :
  wp (bind m k) Q s
  = wp m (fun r s1 t1 =>
            match r with
            | Returned a => wp (k a) (fun r2 s2 t2 => Q r2 s2 (t1 ++ t2)) s1
            | Threw e => Q (Threw e) s1 t1
            end) s.
Proof.
  unfold wp, bind. destruct (m s) as [[a|e] s1 t1]; cbn; [|reflexivity].
  destruct (k a s1); reflexivity.
Qed.

Lemma wp_try_catch {A} (m : M A) h Q s :
  wp (try_catch m h) Q s
  = wp m (fun r s1 t1 =>
            match r with
            | Returned a => Q (Returned a) s1 t1
            | Threw e => wp (h e) (fun r2 s2 t2 => Q r2 s2 (t1 ++ t2)) s1
            end) s.
Proof.
  unfold wp, try_catch. destruct (m s) as [[a|e] s1 t1]; cbn; [reflexivity|].
  destruct (h e s1); reflexivity.
Qed.

Lemma wp_finally {A} (m : M A) f Q s :
  wp (finally m f) Q s
  = wp m (fun r s1 t1 => wp f (fun _ s2 t2 => Q r s2 (t1 ++ t2)) s1) s.
Proof.
  unfold wp, finally. destruct (m s) as [r s1 t1]; cbn.
  destruct (f s1); reflexivity.
Qed.

Lemma wp_mono {A} (m : M A) (Q1 Q2 : result A -> Wespoke -> list obs -> Prop) s :
  wp m Q1 s -> (forall r s1 t1, Q1 r s1 t1 -> Q2 r s1 t1) -> wp m Q2 s.
Proof. unfold wp. intros H HQ. apply HQ. exact H. Qed.

Lemma wp_setState n Q s :
  wp (setState n) Q s
  = Q (Returned tt) (set_callState n s)
      (if decide (callState s = n) then [] else [Emit (EvStateChange n)]).
Proof. unfold wp. rewrite setState_run. reflexivity. Qed.

Lemma wp_keeps {A} (P : Wespoke -> Prop) (m : M A) s :
  keeps P m -> P s -> wp m (fun _ s1 _ => P s1) s.
Proof. intros H Hs. exact (H s Hs). Qed.

(** One step through the structure of a computation. *)
Ltac wp_step :=
  first
    [ rewrite wp_bind
    | rewrite wp_read
    | rewrite wp_write
    | rewrite wp_emit
    | rewrite wp_perform
    | rewrite wp_ret
    | rewrite wp_throw
    | rewrite wp_setState
    | rewrite wp_try_catch
    | rewrite wp_finally ];
  cbv beta iota; cbn [fst snd].

(** ** Classifying a failed response *)

(** X1.  The error that [parseAPIError] builds carries the status of the
    response, except that a 401 is reported as 403: both give an
    [AuthenticationError], whose status is fixed. *)
Theorem parseAPIError_reports_status (response : value) (status : Z) :
  statusCode (parseAPIError response status)
  = Some (if status =? 401 then 403 else status).
Proof.
  unfold parseAPIError.
  destruct (Z.eqb_spec status 401) as [->|H401]; [reflexivity|].
  destruct (Z.eqb_spec status 403) as [->|H403]; [reflexivity|].
  destruct (Z.eqb_spec status 402) as [->|H402]; [reflexivity|].
  destruct (Z.eqb_spec status 404) as [->|H404]; [reflexivity|].
  destruct (Z.eqb_spec status 429) as [->|H429]; reflexivity.
Qed.

(** X2.  A response body without an [error] object (null, undefined, a
    primitive, or an object whose [error] is absent or falsy) is classified
    by the status alone: the message is 'Unknown API error', which a 404
    reports as the assistant that was not found, and a status outside 401,
    402, 403, 404 and 429 gives an [APIError] with code 'UNKNOWN_ERROR'. *)
Theorem parseAPIError_without_error_object (response : value) (status : Z) :
  truthy (optprop response "error") = false ->
  message (parseAPIError response status)
  = (if status =? 404 then "Assistant not found: Unknown API error"
     else "Unknown API error")
  /\ (status <> 401 -> status <> 402 -> status <> 403 -> status <> 404 ->
      status <> 429 ->
      name (parseAPIError response status) = "APIError"
      /\ code (parseAPIError response status) = VStr "UNKNOWN_ERROR").
Proof.
  intros Herr. unfold parseAPIError.
  rewrite !(falsy_has_no_property _ _ Herr). cbn [or_else truthy toString].
  split.
  - destruct (Z.eqb_spec status 401) as [->|H401]; [reflexivity|].
    destruct (Z.eqb_spec status 403) as [->|H403]; [reflexivity|].
    destruct (Z.eqb_spec status 402) as [->|H402]; [reflexivity|].
    destruct (Z.eqb_spec status 404) as [->|H404]; [reflexivity|].
    destruct (Z.eqb_spec status 429) as [->|H429]; reflexivity.
  - intros H401 H402 H403 H404 H429.
    rewrite (proj2 (Z.eqb_neq status 401) H401), (proj2 (Z.eqb_neq status 402) H402),
      (proj2 (Z.eqb_neq status 403) H403), (proj2 (Z.eqb_neq status 404) H404),
      (proj2 (Z.eqb_neq status 429) H429).
    split; reflexivity.
Qed.

Lemma parseAPIError_without_error_object_witness :
  message (parseAPIError (VObj [("success", VBool false)]) 500) = "Unknown API error"
  /\ code (parseAPIError (VObj [("success", VBool false)]) 500) = VStr "UNKNOWN_ERROR".
Proof.
  destruct (parseAPIError_without_error_object (VObj [("success", VBool false)]) 500
              eq_refl) as [Hm Hc].
  split; [exact Hm|].
  exact (proj2 (Hc ltac:(discriminate) ltac:(discriminate) ltac:(discriminate)
                  ltac:(discriminate) ltac:(discriminate))).
Defined.

(** ** Construction *)

(** X3.  The constructor accepts exactly the keys that start with 'pk_'
    (whatever follows), and refuses every other key, the empty one
    included, with a [ConfigurationError]; a controller it returns is Idle,
    holds the key, and has no call, no chat and an empty ledger. *)
Theorem construct_accepts_pk_keys (given : WespokeConfig) :
  if startsWith "pk_" (given_apiKey given)
  then exists s, construct given = inr s
         /\ apiKey (config s) = given_apiKey given
         /\ callState s = IDLE
         /\ currentCallId s = VNull /\ currentChatId s = VNull
         /\ seenMessageIds s = ∅ /\ room s = None
  else exists e, construct given = inl e
         /\ name e = "ConfigurationError"
         /\ code e = VStr "CONFIGURATION_ERROR".
Proof.
  unfold construct.
  destruct (String.eqb_spec (given_apiKey given) "") as [->|Hne].
  - cbn. eexists. repeat split.
  - destruct (startsWith "pk_" (given_apiKey given)); cbn [negb].
    + eexists. repeat split.
    + eexists. repeat split.
Qed.

(** X4.  An option that is absent or falsy takes its default, so that the
    configuration of a constructed controller never holds an empty API url,
    zero retry attempts or a zero retry delay; any other value given is
    kept. *)
Theorem construct_fills_defaults (given : WespokeConfig) (s : Wespoke) :
  construct given = inr s ->
  apiUrl (config s) <> ""
  /\ maxRetryAttempts (config s) <> 0
  /\ ~ (retryDelay (config s) == 0)%Q
  /\ (given_apiUrl given <> "" -> apiUrl (config s) = given_apiUrl given)
  /\ (given_maxRetryAttempts given <> 0 ->
      maxRetryAttempts (config s) = given_maxRetryAttempts given)
  /\ (given_apiUrl given = "" -> apiUrl (config s) = "https://api.wespoke.com.tr")
  /\ (given_maxRetryAttempts given = 0 -> maxRetryAttempts (config s) = 3)
  /\ (Qeq_bool (given_retryDelay given) 0 = true -> retryDelay (config s) = 2000%Q).
Proof.
  unfold construct.
  destruct (String.eqb (given_apiKey given) ""); [discriminate|].
  destruct (negb (startsWith "pk_" (given_apiKey given))); [discriminate|].
  intros H. injection H as <-. cbn [config apiUrl maxRetryAttempts retryDelay].
  destruct (String.eqb_spec (given_apiUrl given) "") as [Hu|Hu];
    destruct (Z.eqb_spec (given_maxRetryAttempts given) 0) as [Hm|Hm];
    destruct (Qeq_bool (given_retryDelay given) 0) eqn:Hd;
    repeat split; try congruence; try discriminate; try lia;
    try (intros Hq; apply Qeq_bool_iff in Hq; congruence).
Qed.

Lemma construct_fills_defaults_witness :
  apiUrl (config demo_idle) = "https://api.wespoke.com.tr"
  /\ maxRetryAttempts (config demo_idle) = 3.
Proof.
  destruct (construct_fills_defaults demo_options demo_idle eq_refl)
    as (_ & _ & _ & _ & _ & Hu & Hm & _).
  exact (conj (Hu eq_refl) (Hm eq_refl)).
Defined.

Ltac wp_case :=
  match goal with
  | |- wp (if ?b then _ else _) _ _ => destruct b eqn:?
  | |- wp (match ?x with _ => _ end) _ _ => destruct x eqn:?
  | |- wp (when ?b _) _ _ => unfold when
  | |- wp (logged _) _ _ => unfold logged
  | |- wp (field _ _) _ _ => unfold field
  | |- wp (await _) _ _ => unfold await
  | |- wp (awaitFetch _) _ _ => unfold awaitFetch
  | |- wp (json _) _ _ => unfold json
  | |- wp (checkResponse _ _) _ _ => unfold checkResponse
  | |- wp (interleave _) _ _ => unfold interleave
  | |- wp (stopMessagePolling) _ _ => unfold stopMessagePolling
  | |- wp (startMessagePolling) _ _ => unfold startMessagePolling
  | |- wp (createRoom) _ _ => unfold createRoom
  | |- wp (activateAudioContext) _ _ => unfold activateAudioContext
  end.

Ltac wp_auto := repeat first [wp_step | wp_case].

Lemma last_app_some {A} (l1 l2 : list A) x : last l2 = Some x -> last (l1 ++ l2) = Some x.
Proof. intros H. rewrite last_app, H. reflexivity. Qed.

Lemma last_cons_some {A} (x : A) l y : last l = Some y -> last (x :: l) = Some y.
Proof. intros H. rewrite last_cons, H. reflexivity. Qed.

(** Membership in a trace written as a concatenation, by search. *)
Ltac find_in :=
  lazymatch goal with
  | |- _ ∈ _ :: _ => apply elem_of_cons; first [left; reflexivity | right; find_in]
  | |- _ ∈ _ ++ _ => apply elem_of_app; first [left; find_in | right; find_in]
  end.

(** The last element of a trace written as a concatenation. *)
Ltac in_last :=
  repeat first [reflexivity | apply last_app_some | apply last_cons_some].

Lemma wp_cleanupAllTracks Q s :
  (forall t, Q (Returned tt) (set_attachedTracks [] s) t) -> wp cleanupAllTracks Q s.
Proof.
  intros H. destruct (cleanupAllTracks_run s) as (t & Hrun & _).
  unfold wp. rewrite Hrun. apply H.
Qed.

Lemma setting_up_endCall c r d : keeps (setting_up c) (endCall r d).
Proof.
  intros s [Hc Hs]. change (wp (endCall r d) (fun _ s1 _ => setting_up c s1) s).
  unfold endCall, setting_up. wp_auto; cbn; auto.
  all: try (split; [auto | discriminate]).
  all: try apply wp_cleanupAllTracks; intros; wp_auto; cbn; auto.
  all: try (split; [auto | discriminate]).
Qed.

Lemma setting_up_interleave c w : keeps (setting_up c) (interleave w).
Proof.
  destruct w; cbn [interleave]; [apply keeps_ret|].
  apply keeps_try_catch; [apply setting_up_endCall | intros; apply keeps_ret].
Qed.

Lemma setting_up_connectLoop c fuel env : forall attempt,
  keeps (setting_up c) (connectLoop fuel attempt env).
Proof.
  induction fuel as [|fuel IH]; intros attempt; cbn [connectLoop].
  - apply keeps_ret.
  - pose proof (setting_up_interleave c) as Hmeanwhile. keep.
Qed.

Lemma setting_up_connectToRoom c env : keeps (setting_up c) (connectToRoom env).
Proof.
  unfold connectToRoom. pose proof (setting_up_connectLoop c) as Hloop. keep.
Qed.

Lemma published_checkExistingParticipants c ps :
  keeps (published c) (checkExistingParticipants ps).
Proof.
  unfold checkExistingParticipants, setupAssistantTracks, handleAssistantAudioTrack.
  keep.
Qed.

(** X5.  When [startCall] returns, the controller is Connected in a room
    with an unmuted microphone track and the polling timer running, the call
    id is the [callId] of the token response, which the control API
    accepted, and the last event emitted is the change to Connected. *)
Theorem startCall_returns_connected (s : Wespoke) (assistantId : string)
    (callMetadata : value) (env : Bootstrap) :
  let o := startCall assistantId callMetadata env s in
  outcome o = Returned tt ->
  callState (final o) = CONNECTED
  /\ room (final o) = Some TheRoom
  /\ localAudioTrack (final o) = Some (mkLocalTrack false)
  /\ pollInterval (final o) = Some TheTimer
  /\ accepted (tokenResponse env) = true
  /\ (exists status data tokenData,
        tokenResponse env = Responded status (inr data)
        /\ prop data "data" = Some tokenData
        /\ prop tokenData "callId" = Some (currentCallId (final o)))
  /\ last (trace o) = Some (Emit (EvStateChange CONNECTED)).
Proof.
  cbv zeta.
  change (wp (startCall assistantId callMetadata env)
            (fun r s1 t1 => r = Returned tt ->
               callState s1 = CONNECTED
               /\ room s1 = Some TheRoom
               /\ localAudioTrack s1 = Some (mkLocalTrack false)
               /\ pollInterval s1 = Some TheTimer
               /\ accepted (tokenResponse env) = true
               /\ (exists status data tokenData,
                     tokenResponse env = Responded status (inr data)
                     /\ prop data "data" = Some tokenData
                     /\ prop tokenData "callId" = Some (currentCallId s1))
               /\ last t1 = Some (Emit (EvStateChange CONNECTED))) s).
  unfold startCall, bootstrap, bootstrapFailed, fetchToken.
  wp_auto; try discriminate.
  all: try (intros ? ? ? ?; discriminate).
  match goal with |- wp _ _ ?s0 =>
    eapply wp_mono;
      [apply (wp_keeps (setting_up v2) _ s0 (setting_up_connectToRoom v2 _));
       split; [left; reflexivity | discriminate] |] end.
  intros r s1 t1 [Hc Hs]. destruct r as [[]|e]; [|wp_auto; discriminate].
  unfold publishLocalAudio. wp_auto; try discriminate.
  destruct Hc as [Hc|Hc]; [|discriminate]. destruct r.
  match goal with |- wp _ _ ?s0 =>
    eapply wp_mono;
      [apply (wp_keeps (published v2) _ s0 (published_checkExistingParticipants v2 _));
       repeat split; assumption |] end.
  intros r s2 t2 (Hroom & Htrack & Hid & Hst).
  destruct r as [[]|e]; [|wp_auto; discriminate].
  wp_auto. intros _. cbn.
  repeat split; try assumption.
  - unfold accepted. apply negb_false_iff in Heqb0. rewrite Heqb0, Heqo. exact Heqb1.
  - exists status, v, v1. rewrite Hid. repeat split; assumption.
  - destruct (decide (callState s2 = CONNECTED)) as [Heq|_]; [contradiction|].
    in_last.
Qed.

Lemma startCall_returns_connected_witness :
  callState (final (startCall "asst_1" VUndefined
              (demo_bootstrap demo_token (fun _ => demo_quiet_attempt)) demo_idle))
  = CONNECTED
  /\ currentCallId (final (startCall "asst_1" VUndefined
              (demo_bootstrap demo_token (fun _ => demo_quiet_attempt)) demo_idle))
  = VStr "call_1".
Proof.
  destruct (startCall_returns_connected demo_idle "asst_1" VUndefined
              (demo_bootstrap demo_token (fun _ => demo_quiet_attempt)) eq_refl)
    as (Hst & _ & _ & _ & _ & (status & data & tokenData & Hresp & Hdata & Hid) & _).
  split; [exact Hst|].
  injection Hresp as Hstatus Hbody. subst data.
  cbn in Hdata. injection Hdata as Htoken. subst tokenData.
  symmetry. exact (inj Some _ _ Hid).
Defined.

(** ** Ending a call, continued *)

(** Without a call to end, [endCall] returns at once. *)
Lemma endCall_nothing_to_end (s : Wespoke) (r : fetched)
    (disconnecting : option NativeError) :
  callState s = IDLE \/ truthy (currentCallId s) = false ->
  endCall r disconnecting s = mkOut (Returned tt) s [].
Proof.
  intros H. unfold endCall. rewrite !bind_read.
  destruct H as [-> | ->]; [reflexivity|].
  rewrite orb_true_r. reflexivity.
Qed.

(** X6.  When the termination request is answered, whatever the answer
    says (also a refusal such as a 500 or [success: false]), and the room
    disconnects, [endCall] returns after the whole cleanup: the timer is
    stopped, every attached audio element is detached, the microphone track
    is unpublished and stopped, the room is disconnected, the connect
    attempt is cancelled, the change to Disconnected is emitted, and the
    controller is left Disconnected with no call id, no room, no assistant
    and an empty ledger.  A second [endCall] then does nothing. *)
Theorem endCall_answered_cleans_up (s : Wespoke) (status : Z) (data : value) :
  callState s <> IDLE -> truthy (currentCallId s) = true ->
  ok status = false \/ is_Some (prop data "success") ->
  let o := endCall (Responded status (inr data)) None s in
  outcome o = Returned tt
  /\ callState (final o) = DISCONNECTED
  /\ currentCallId (final o) = VNull
  /\ seenMessageIds (final o) = ∅
  /\ room (final o) = None
  /\ assistantParticipant (final o) = None
  /\ attachedTracks (final o) = []
  /\ pollInterval (final o) = None
  /\ abortController (final o) = None
  /\ (is_Some (room s) -> localAudioTrack (final o) = None)
  /\ (forall sid, hasTrack sid (attachedTracks s) = true ->
        Do (DetachElement sid) ∈ trace o)
  /\ (is_Some (room s) -> Do RoomDisconnect ∈ trace o)
  /\ (is_Some (room s) -> is_Some (localAudioTrack s) ->
        Do UnpublishTrack ∈ trace o /\ Do StopLocalTrack ∈ trace o)
  /\ (is_Some (pollInterval s) -> Do ClearInterval ∈ trace o)
  /\ Emit (EvStateChange DISCONNECTED) ∈ trace o
  /\ (forall r' d', endCall r' d' (final o) = mkOut (Returned tt) (final o) []).
Proof.
  intros Hst Hid Hans.
  destruct (endCall_answered s status data Hst Hid Hans)
    as (H1 & H2 & H3 & H4 & H5 & H6 & H7 & H8 & H9 & H10 & H11 & H12 & H13 & H14 & _).
  cbv zeta. repeat (split; [assumption|]).
  split; [|intros r' d'; apply endCall_nothing_to_end; right; rewrite H3; reflexivity].
  clear H1 H2 H3 H4 H5 H6 H7 H8 H9 H10 H11 H12 H13 H14.
  apply last_Some_elem_of.
  change (wp (endCall (Responded status (inr data)) None)
            (fun _ _ t => last t = Some (Emit (EvStateChange DISCONNECTED))) s).
  unfold endCall. wp_step. wp_step. wp_step. wp_step.
  rewrite Hid, bool_decide_eq_false_2 by exact Hst. cbn [negb orb].
  wp_auto.
  all: try (destruct Hans as [Hok|[x Hx]];
            [rewrite Hok in *; discriminate | discriminate]).
  all: try (apply wp_cleanupAllTracks; intros; wp_auto).
  all: in_last.
Qed.

Lemma endCall_answered_cleans_up_witness :
  callState (final (endCall demo_success None demo_in_call)) = DISCONNECTED
  /\ currentCallId (final (endCall demo_success None demo_in_call)) = VNull
  /\ room (final (endCall demo_success None demo_in_call)) = None.
Proof.
  destruct (endCall_answered_cleans_up demo_in_call 200 (VObj [("success", VBool true)])
              ltac:(discriminate) eq_refl (or_intror (ex_intro _ (VBool true) eq_refl)))
    as (_ & Hst & Hid & _ & Hroom & _).
  exact (conj Hst (conj Hid Hroom)).
Defined.

(** ** Requests out of place *)

(** X7.  A request that the controller is in no position to serve is
    refused before anything happens: no request is sent, nothing is emitted
    and the controller is unchanged.  [startCall] outside Idle and
    Disconnected fails with CALL_IN_PROGRESS; [toggleMute], [sendMessage]
    and [getMessages] without a call id fail with NO_ACTIVE_CALL,
    [toggleMute] without a microphone track with NO_AUDIO_TRACK, and
    [sendMessage] outside the Connected state with NOT_CONNECTED; [endCall]
    with nothing to end (the state is Idle or no call id is set) just
    returns. *)
Theorem requests_out_of_place_have_no_effect (s : Wespoke) (r : fetched)
    (trackOp disconnecting : option NativeError) (message assistantId : string)
    (callMetadata : value) (env : Bootstrap) (limit offset : Z) :
  (callState s <> IDLE -> callState s <> DISCONNECTED ->
     startCall assistantId callMetadata env s
     = mkOut (Threw (plainError "A call is already in progress" "CALL_IN_PROGRESS")) s [])
  /\ (callState s = IDLE \/ truthy (currentCallId s) = false ->
      endCall r disconnecting s = mkOut (Returned tt) s [])
  /\ (truthy (currentCallId s) = false ->
     toggleMute r trackOp s = mkOut (Threw (plainError "No active call" "NO_ACTIVE_CALL")) s []
     /\ sendMessage message r s
        = mkOut (Threw (plainError "No active call" "NO_ACTIVE_CALL")) s []
     /\ getMessages limit offset r s
        = mkOut (Threw (plainError "No active call" "NO_ACTIVE_CALL")) s [])
  /\ (truthy (currentCallId s) = true -> localAudioTrack s = None ->
        toggleMute r trackOp s
        = mkOut (Threw (plainError "No active audio track" "NO_AUDIO_TRACK")) s [])
  /\ (truthy (currentCallId s) = true -> callState s <> CONNECTED ->
        sendMessage message r s
        = mkOut (Threw (plainError "Not connected to a call" "NOT_CONNECTED")) s []).
Proof.
  split; [|split; [apply endCall_nothing_to_end|]].
  - intros Hi Hd. unfold startCall. rewrite bind_read.
    rewrite !bool_decide_eq_false_2 by assumption. reflexivity.
  - unfold toggleMute, sendMessage, getMessages. rewrite !bind_read.
    split; [|split].
    + intros H. rewrite H. repeat split; reflexivity.
    + intros Hid Ht. rewrite Hid. cbn [negb]. rewrite bind_read, Ht. reflexivity.
    + intros Hid Hst. rewrite Hid. cbn [negb]. rewrite bind_read.
      rewrite bool_decide_eq_false_2 by exact Hst. reflexivity.
Qed.

(** X8.  [sendMessage] in a connected call posts the message and nothing
    more: whatever the answer, the controller is unchanged and no event is
    emitted, not even [error]; it returns when the control API accepts the
    request, and a refusal that carries a decodable body is thrown to the
    caller as the error [parseAPIError] makes of it. *)
Theorem sendMessage_only_posts (s : Wespoke) (message : string) (r : fetched) :
  truthy (currentCallId s) = true -> callState s = CONNECTED ->
  let o := sendMessage message r s in
  final o = s
  /\ trace o = [Do (Post (callPath s "/messages") (VObj [("message", VStr message)]))]
  /\ (outcome o = Returned tt <-> accepted r = true)
  /\ (forall status data, r = Responded status (inr data) ->
        ok status = false \/ (exists success, prop data "success" = Some success
                                /\ truthy success = false) ->
        outcome o = Threw (SDK (parseAPIError data status))).
Proof.
  intros Hid Hst. cbv zeta. unfold sendMessage. rewrite bind_read, Hid.
  cbn [negb]. rewrite bind_read, Hst, bool_decide_eq_true_2 by reflexivity.
  cbn [negb].
  unfold logged, try_catch, bind, read, perform, awaitFetch, json, checkResponse,
    field, accepted, throw, ret.
  destruct r as [e|status [e|data]]; cbn;
    [| |destruct (ok status) eqn:Hok; cbn;
        [destruct (prop data "success") as [success|] eqn:Hs; cbn;
           [destruct (truthy success) eqn:Ht; cbn|]|]].
  all: repeat split; try discriminate; try reflexivity.
  all: intros st d Hr Hc; try discriminate.
  all: injection Hr as <- <-; try reflexivity.
  all: destruct Hc as [Hno|(x & Hx & Hf)]; congruence.
Qed.

Lemma sendMessage_only_posts_witness :
  final (sendMessage "hello" (Responded 429 (inr demo_server_error)) demo_in_call)
  = demo_in_call
  /\ outcome (sendMessage "hello" (Responded 429 (inr demo_server_error)) demo_in_call)
     = Threw (SDK (parseAPIError demo_server_error 429)).
Proof.
  destruct (sendMessage_only_posts demo_in_call "hello"
              (Responded 429 (inr demo_server_error)) eq_refl eq_refl)
    as (Hf & _ & _ & Hthrow).
  exact (conj Hf (Hthrow 429 demo_server_error eq_refl (or_introl eq_refl))).
Defined.

(** ** The polling timer *)

Lemma poll_items_trace items : forall s,
  Forall (fun x => exists m, x = Emit (EvMessage m)) (trace (forEach items emitIfNew s)).
Proof.
  induction items as [|m items IH]; intros s; [constructor|].
  rewrite forEach_cons.
  destruct (emitIfNew_cases m s) as [[Ht Hf]|(_ & _ & Hf & Hcase)];
    destruct (emitIfNew m s) as [[[]|e] s1 t1]; cbn [trace final outcome] in *.
  - subst t1. apply IH.
  - subst t1. constructor.
  - destruct Hcase as [[-> Ho]|[-> Ho]]; [discriminate|].
    constructor; [eexists; reflexivity | apply IH].
  - destruct Hcase as [[-> Ho]|[-> Ho]]; [constructor | discriminate].
Qed.

(** X9.  A tick of the polling timer never fails and never emits [error]:
    whatever the control API answers, the callback returns, and it does
    nothing but request the message list and emit [message] events.  Unless a
    call id is set and the state is Connected it does not even send the
    request. *)
Theorem pollTick_is_silent (s : Wespoke) (r : fetched) :
  outcome (pollTick r s) = Returned tt
  /\ Forall (fun x => (exists path, x = Do (Get path)) \/ (exists m, x = Emit (EvMessage m)))
       (trace (pollTick r s))
  /\ (truthy (currentCallId s) && bool_decide (callState s = CONNECTED) = false ->
      pollTick r s = mkOut (Returned tt) s []).
Proof.
  split; [apply pollTick_shape|]. split.
  - unfold pollTick. rewrite !bind_read.
    destruct (truthy (currentCallId s) && bool_decide (callState s = CONNECTED)) eqn:G;
      [|constructor].
    apply andb_true_iff in G. destruct G as [Hid _].
    unfold try_catch, getMessages, logged, try_catch, bind, read. cbn. rewrite Hid. cbn.
    assert (Hget : forall path, Forall
              (fun x => (exists path, x = Do (Get path)) \/ (exists m, x = Emit (EvMessage m)))
              [Do (Get path)])
      by (intros path; constructor; [left; eexists; reflexivity | constructor]).
    destruct r as [e|status [e|data]]; cbn; try apply Hget.
    unfold checkResponse, bind, field.
    destruct (ok status); cbn; try apply Hget.
    destruct (prop data "success") as [success|]; cbn; try apply Hget.
    destruct (truthy success); cbn; try apply Hget.
    destruct (prop data "data") as [d|]; cbn; try apply Hget.
    destruct (prop d "messages") as [ms|]; cbn; try apply Hget.
    destruct ms; cbn; try apply Hget.
    pose proof (poll_items_trace items s) as Hitems.
    destruct (forEach items emitIfNew s) as [[[]|e] s1 t1]; cbn in *;
      rewrite ?app_nil_r; (constructor; [left; eexists; reflexivity|]);
      eapply Forall_impl; [exact Hitems | intros x Hx; right; exact Hx
                          | exact Hitems | intros x Hx; right; exact Hx].
  - intros G. unfold pollTick. rewrite !bind_read, G. reflexivity.
Qed.

(** X10.  When the room reports that it is disconnected, the controller
    becomes Disconnected and the polling timer is cleared, and a tick that
    still arrives sends no request; the call id stays as it was. *)
Theorem room_disconnect_stops_polling (s : Wespoke) (reason : option string)
    (r : fetched) :
  let s1 := final (onRoomDisconnected reason s) in
  callState s1 = DISCONNECTED
  /\ pollInterval s1 = None
  /\ currentCallId s1 = currentCallId s
  /\ last (trace (onRoomDisconnected reason s)) = Some (Emit (EvDisconnected reason))
  /\ (is_Some (pollInterval s) -> Do ClearInterval ∈ trace (onRoomDisconnected reason s))
  /\ pollTick r s1 = mkOut (Returned tt) s1 [].
Proof.
  cbv zeta.
  assert (Hrun : onRoomDisconnected reason s =
            mkOut (Returned tt) (set_pollInterval None (set_callState DISCONNECTED s))
              ((if decide (callState s = DISCONNECTED) then []
                else [Emit (EvStateChange DISCONNECTED)])
               ++ match pollInterval s with Some _ => [Do ClearInterval] | None => [] end
               ++ [Emit (EvDisconnected reason)])).
  { unfold onRoomDisconnected. rewrite bind_setState, bind_pre, stopMessagePolling_run.
    unfold emit, pre. cbn. reflexivity. }
  rewrite Hrun. cbn [final trace]. repeat split.
  - in_last.
  - intros [t Ht]. rewrite Ht. in_trace.
  - unfold pollTick. rewrite !bind_read. cbn [callState set_pollInterval set_callState].
    rewrite andb_false_r. reflexivity.
Qed.

(** ** Connecting without attempts *)

(** X11.  With [maxRetryAttempts] below 1 (the constructor replaces 0 by 3
    but keeps a negative number) the loop of [connectToRoom] is not entered:
    the method returns as if the room were connected, without any connect
    attempt. *)
Theorem connectToRoom_without_attempts (s : Wespoke) (env : Z -> Attempt) :
  maxRetryAttempts (config s) < 1 -> is_Some (room s) ->
  connectToRoom env s
  = mkOut (Returned tt) (set_abortController (Some (mkAbort false)) s) [].
Proof.
  intros Hmax [rm Hroom]. unfold connectToRoom. rewrite bind_read, Hroom.
  rewrite bind_write, bind_read. cbn [config set_abortController].
  assert (Hfuel : Z.to_nat (maxRetryAttempts (config s)) = O) by lia.
  rewrite Hfuel. reflexivity.
Qed.

Lemma connectToRoom_without_attempts_witness :
  exists given s, construct given = inr s
    /\ connectToRoom (fun _ => demo_quiet_attempt) (set_room (Some TheRoom) s)
       = mkOut (Returned tt)
           (set_abortController (Some (mkAbort false)) (set_room (Some TheRoom) s)) [].
Proof.
  exists (mkOptions "pk_test_demo" "" false (-1) 0%Q). eexists.
  split; [reflexivity|].
  apply connectToRoom_without_attempts; [reflexivity | eexists; reflexivity].
Defined.

(** ** Ending a chat session *)

(** X12.  [endChatSession] with a chat id set clears the local session
    whatever happens to the termination request: the chat id, the ledger
    and the end-after-start flag are cleared, the controller is left
    Disconnected and [disconnected] is emitted.  It returns when the request
    is answered, whatever the answer says; otherwise it emits the error last
    and throws it. *)
Theorem endChatSession_always_clears (s : Wespoke) (r : fetched) :
  truthy (currentChatId s) = true ->
  let o := endChatSession r s in
  currentChatId (final o) = VNull
  /\ seenMessageIds (final o) = ∅
  /\ shouldEndChatAfterStart (final o) = false
  /\ callState (final o) = DISCONNECTED
  /\ Do (Post (chatIdPath s "/end") VUndefined) ∈ trace o
  /\ match outcome o with
     | Returned _ =>
         answered r = true
         /\ last (trace o) = Some (Emit (EvDisconnected (Some "Chat session ended")))
     | Threw e =>
         answered r = false
         /\ Emit (EvDisconnected (Some "Chat session ended with error")) ∈ trace o
         /\ last (trace o) = Some (Emit (EvError e))
     end.
Proof.
  intros Hid. cbv zeta.
  change (wp (endChatSession r)
    (fun out s1 t1 =>
       currentChatId s1 = VNull /\ seenMessageIds s1 = ∅
       /\ shouldEndChatAfterStart s1 = false /\ callState s1 = DISCONNECTED
       /\ Do (Post (chatIdPath s "/end") VUndefined) ∈ t1
       /\ match out with
          | Returned _ =>
              answered r = true
              /\ last t1 = Some (Emit (EvDisconnected (Some "Chat session ended")))
          | Threw e =>
              answered r = false
              /\ Emit (EvDisconnected (Some "Chat session ended with error")) ∈ t1
              /\ last t1 = Some (Emit (EvError e))
          end) s).
  unfold endChatSession. wp_step. wp_step. wp_step. wp_step. wp_step. wp_step.
  rewrite Hid. cbn [negb andb]. rewrite andb_false_r.
  wp_auto; cbn [currentChatId seenMessageIds shouldEndChatAfterStart callState
                set_currentChatId set_seenMessageIds set_shouldEndChatAfterStart
                set_callState answered];
    repeat split; try reflexivity; try find_in; try in_last.
  all: try (rewrite Heqb; reflexivity).
  all: try (apply negb_false_iff in Heqb; rewrite Heqb; cbn [negb orb];
            rewrite ?Heqo; reflexivity).
Qed.

Lemma endChatSession_always_clears_witness :
  currentChatId (final (endChatSession (Rejected (mkNative "TypeError" "Failed to fetch"))
                          demo_in_chat)) = VNull
  /\ callState (final (endChatSession (Rejected (mkNative "TypeError" "Failed to fetch"))
                         demo_in_chat)) = DISCONNECTED.
Proof.
  destruct (endChatSession_always_clears demo_in_chat
              (Rejected (mkNative "TypeError" "Failed to fetch")) eq_refl)
    as (Hid & _ & _ & Hst & _).
  exact (conj Hid Hst).
Defined.

(** ** Starting a chat session *)

(** X13.  [startChatSession] on a free controller whose creation request the
    control API accepts, with no [endChatSession] meanwhile, returns with
    the controller Connected, the chat id the server issued, an empty ledger
    and no pending abort handle; it emits the changes to Connecting and to
    Connected and then [connected]. *)
Theorem startChatSession_connects (s : Wespoke) (assistantId : string)
    (callMetadata : value) (env : ChatStart) (status : Z) (data d chatId : value) :
  truthy (currentChatId s) = false -> truthy (currentCallId s) = false ->
  callState s = IDLE \/ callState s = DISCONNECTED ->
  endRequested env = false ->
  creation env = Responded status (inr data) -> accepted (creation env) = true ->
  prop data "data" = Some d -> prop d "chatId" = Some chatId ->
  let o := startChatSession assistantId callMetadata env s in
  outcome o = Returned tt
  /\ callState (final o) = CONNECTED
  /\ currentChatId (final o) = chatId
  /\ seenMessageIds (final o) = ∅
  /\ chatAbortController (final o) = None
  /\ trace o = [Emit (EvStateChange CONNECTING);
                Do (Post (chatPath s "")
                      (VObj [("assistantId", VStr assistantId);
                             ("metadata", or_else callMetadata (VObj []))]));
                Emit (EvStateChange CONNECTED);
                Emit EvConnected].
Proof.
  intros Hchat Hcall Hst Hend Hcreate Hacc Hd Hc. cbv zeta.
  rewrite Hcreate in Hacc. cbn [accepted] in Hacc.
  apply andb_true_iff in Hacc. destruct Hacc as [Hok Hsucc].
  destruct (prop data "success") as [success|] eqn:Hs; [|discriminate].
  change (wp (startChatSession assistantId callMetadata env)
    (fun out s1 t1 =>
       out = Returned tt /\ callState s1 = CONNECTED /\ currentChatId s1 = chatId
       /\ seenMessageIds s1 = ∅ /\ chatAbortController s1 = None
       /\ t1 = [Emit (EvStateChange CONNECTING);
                Do (Post (chatPath s "")
                      (VObj [("assistantId", VStr assistantId);
                             ("metadata", or_else callMetadata (VObj []))]));
                Emit (EvStateChange CONNECTED);
                Emit EvConnected]) s).
  unfold startChatSession. wp_step. wp_step. rewrite Hchat.
  wp_step. wp_step. wp_step. wp_step. rewrite Hcall, orb_false_r.
  assert (G : negb (bool_decide (callState s = IDLE))
              && negb (bool_decide (callState s = DISCONNECTED)) = false).
  { destruct Hst as [-> | ->]; reflexivity. }
  assert (Hnone : endRequests env = 0%nat).
  { unfold endRequested in Hend. destruct (endRequests env); [reflexivity|discriminate]. }
  rewrite G, Hnone, Hcreate. cbn [List.repeat forEach].
  unfold when, awaitFetch, json, checkResponse, field.
  repeat wp_step. rewrite Hok. cbn [negb]. rewrite Hs. repeat wp_step.
  rewrite Hsucc, Hd. repeat wp_step. rewrite Hc. repeat wp_step.
  cbn [shouldEndChatAfterStart set_shouldEndChatAfterStart set_currentChatId].
  repeat wp_step.
  cbn [callState set_callState set_currentChatId set_shouldEndChatAfterStart
       set_chatAbortController set_seenMessageIds currentChatId seenMessageIds
       chatAbortController].
  destruct (decide (callState s = CONNECTING)) as [Heq|_];
    [destruct Hst; congruence|].
  repeat split.
Qed.

Lemma startChatSession_connects_witness :
  outcome (startChatSession "asst_1" VUndefined demo_chat_start demo_idle) = Returned tt
  /\ currentChatId (final (startChatSession "asst_1" VUndefined demo_chat_start demo_idle))
     = VStr "chat_1".
Proof.
  destruct (startChatSession_connects demo_idle "asst_1" VUndefined demo_chat_start 200
              (VObj [("success", VBool true); ("data", VObj [("chatId", VStr "chat_1")])])
              (VObj [("chatId", VStr "chat_1")]) (VStr "chat_1")
              eq_refl eq_refl (or_introl eq_refl) eq_refl eq_refl eq_refl eq_refl eq_refl)
    as (Ho & _ & Hid & _).
  exact (conj Ho Hid).
Defined.

(** The fields of a controller written with setters, and comparisons of
    states that are known. *)
Ltac known_state x :=
  lazymatch x with
  | IDLE => idtac | CONNECTING => idtac | CONNECTED => idtac
  | DISCONNECTING => idtac | DISCONNECTED => idtac | ERROR => idtac
  end.

Ltac compare_states :=
  repeat match goal with
  | |- context [bool_decide (?a = ?b)] =>
      known_state a; known_state b;
      first [ rewrite (bool_decide_eq_true_2 (a = b)) by reflexivity
            | rewrite (bool_decide_eq_false_2 (a = b)) by discriminate ]
  | |- context [decide (?a = ?b)] =>
      known_state a; known_state b;
      first [ rewrite (decide_True (P := a = b)) by reflexivity
            | rewrite (decide_False (P := a = b)) by discriminate ]
  | |- context [bool_decide (is_Some (Some ?x))] =>
      rewrite (bool_decide_eq_true_2 (is_Some (Some x))) by (eexists; reflexivity)
  | |- context [bool_decide (is_Some (@None ?A))] =>
      rewrite (bool_decide_eq_false_2 (is_Some (@None A)))
        by (intros [? ?]; discriminate)
  end.

Ltac fields :=
  cbn [config room localAudioTrack assistantParticipant attachedTracks callState
       currentCallId currentChatId abortController chatAbortController pollInterval
       seenMessageIds shouldEndChatAfterStart
       set_room set_localAudioTrack set_assistantParticipant set_attachedTracks
       set_callState set_currentCallId set_currentChatId set_abortController
       set_chatAbortController set_pollInterval set_seenMessageIds
       set_shouldEndChatAfterStart];
  compare_states; cbn [negb andb orb].


(** ** Closing a chat that is being opened *)

(** [endChatSession()] while the creation request is pending: the request
    is aborted and the flag raised. *)
Lemma endChatSession_while_pending r s :
  callState s = CONNECTING -> is_Some (chatAbortController s) ->
  truthy (currentChatId s) = false ->
  endChatSession r s
  = mkOut (Returned tt)
      (set_callState IDLE
         (set_chatAbortController (Some (mkAbort true))
            (set_shouldEndChatAfterStart true s)))
      [Do AbortChatRequest; Emit (EvStateChange IDLE)].
Proof.
  intros Hst Hac Hchat. unfold endChatSession. rewrite !bind_read, Hst, Hchat.
  rewrite bool_decide_eq_true_2 by reflexivity.
  rewrite bool_decide_eq_true_2 by exact Hac. cbn [andb negb].
  rewrite bind_write, bind_perform, bind_write, setState_run.
  cbn [callState set_chatAbortController set_shouldEndChatAfterStart].
  rewrite Hst. reflexivity.
Qed.

(** [endChatSession()] without a chat id, outside the Connecting state: the
    flag is lowered. *)
Lemma endChatSession_without_chat r s :
  callState s <> CONNECTING -> truthy (currentChatId s) = false ->
  endChatSession r s = mkOut (Returned tt) (set_shouldEndChatAfterStart false s) [].
Proof.
  intros Hst Hchat. unfold endChatSession. rewrite !bind_read, Hchat.
  rewrite bool_decide_eq_false_2 by exact Hst. reflexivity.
Qed.

(** The calls of [endChatSession()] that arrive while the creation request
    is pending: the first aborts the request and raises the flag, every
    further one lowers the flag again. *)
Lemma endChatSession_requests n r s :
  callState s = CONNECTING -> is_Some (chatAbortController s) ->
  truthy (currentChatId s) = false ->
  forEach (List.repeat tt (S n))
    (fun _ => try_catch (endChatSession r) (fun _ => ret tt)) s
  = mkOut (Returned tt)
      (set_shouldEndChatAfterStart (Nat.eqb n 0)
         (set_callState IDLE (set_chatAbortController (Some (mkAbort true)) s)))
      [Do AbortChatRequest; Emit (EvStateChange IDLE)].
Proof.
  intros Hst Hac Hchat.
  assert (Hrest : forall k s1, callState s1 <> CONNECTING ->
            truthy (currentChatId s1) = false ->
            forEach (List.repeat tt k)
              (fun _ => try_catch (endChatSession r) (fun _ => ret tt)) s1
            = mkOut (Returned tt)
                (if Nat.eqb k 0 then s1 else set_shouldEndChatAfterStart false s1) []).
  { induction k as [|k IH]; intros s1 H1 H2; [reflexivity|].
    cbn [List.repeat]. rewrite forEach_cons. unfold try_catch.
    rewrite endChatSession_without_chat by assumption.
    rewrite IH; [|destruct s1; exact H1|destruct s1; exact H2].
    cbn [Nat.eqb app]. destruct (Nat.eqb k 0); destruct s1; reflexivity. }
  cbn [List.repeat]. rewrite forEach_cons. unfold try_catch.
  rewrite endChatSession_while_pending by assumption.
  rewrite Hrest; [|destruct s; discriminate|destruct s; exact Hchat].
  rewrite app_nil_r. destruct n; destruct s; reflexivity.
Qed.

(** X14.  When [endChatSession] is called while the creation request of
    [startChatSession] is pending, the request is aborted; if the abort
    comes in time, [startChatSession] returns without emitting [error] and
    the controller is Idle with no chat id.  After exactly one such call the
    session does not stay open, whatever becomes of the request: the
    controller ends Idle or Disconnected with no chat id, and a session that
    the server had already created is ended on the server at once.  A
    second call before the request settles lowers the flag that the first
    one raised: if the server has created the session, [startChatSession]
    completes, no request to end it is sent, and the session stays open. *)
Theorem chat_closed_while_connecting (s : Wespoke) (assistantId : string)
    (callMetadata : value) (env : ChatStart) :
  truthy (currentChatId s) = false -> truthy (currentCallId s) = false ->
  callState s = IDLE \/ callState s = DISCONNECTED ->
  endRequested env = true ->
  let o := startChatSession assistantId callMetadata env s in
  chatAbortController (final o) = None
  /\ Do AbortChatRequest ∈ trace o
  /\ (forall e, creation env = Rejected e -> native_name e = "AbortError" ->
        outcome o = Returned tt
        /\ callState (final o) = IDLE
        /\ truthy (currentChatId (final o)) = false
        /\ Forall (fun x => forall error, x <> Emit (EvError error)) (trace o)
        /\ last (trace o)
           = Some (Emit (EvDisconnected (Some "Chat session start aborted"))))
  /\ (endRequests env = 1%nat ->
        truthy (currentChatId (final o)) = false
        /\ (callState (final o) = IDLE \/ callState (final o) = DISCONNECTED)
        /\ (forall status data d chatId,
              creation env = Responded status (inr data) ->
              accepted (creation env) = true ->
              prop data "data" = Some d -> prop d "chatId" = Some chatId ->
              truthy chatId = true ->
              Do (Post (chatIdPath (set_currentChatId chatId s) "/end") VUndefined)
                ∈ trace o))
  /\ ((2 <= endRequests env)%nat ->
        forall status data d chatId,
          creation env = Responded status (inr data) ->
          accepted (creation env) = true ->
          prop data "data" = Some d -> prop d "chatId" = Some chatId ->
          outcome o = Returned tt
          /\ callState (final o) = CONNECTED
          /\ currentChatId (final o) = chatId
          /\ trace o = [Emit (EvStateChange CONNECTING);
                        Do (Post (chatPath s "")
                              (VObj [("assistantId", VStr assistantId);
                                     ("metadata", or_else callMetadata (VObj []))]));
                        Do AbortChatRequest;
                        Emit (EvStateChange IDLE);
                        Emit (EvStateChange CONNECTED);
                        Emit EvConnected]).
Proof.
  intros Hchat Hcall Hst Hend. cbv zeta.
  change (wp (startChatSession assistantId callMetadata env)
    (fun out s1 t1 =>
       chatAbortController s1 = None
       /\ Do AbortChatRequest ∈ t1
       /\ (forall e, creation env = Rejected e -> native_name e = "AbortError" ->
             out = Returned tt
             /\ callState s1 = IDLE
             /\ truthy (currentChatId s1) = false
             /\ Forall (fun x => forall error, x <> Emit (EvError error)) t1
             /\ last t1 = Some (Emit (EvDisconnected (Some "Chat session start aborted"))))
       /\ (endRequests env = 1%nat ->
             truthy (currentChatId s1) = false
             /\ (callState s1 = IDLE \/ callState s1 = DISCONNECTED)
             /\ (forall status data d chatId,
                   creation env = Responded status (inr data) ->
                   accepted (creation env) = true ->
                   prop data "data" = Some d -> prop d "chatId" = Some chatId ->
                   truthy chatId = true ->
                   Do (Post (chatIdPath (set_currentChatId chatId s) "/end") VUndefined)
                     ∈ t1))
       /\ ((2 <= endRequests env)%nat ->
             forall status data d chatId,
               creation env = Responded status (inr data) ->
               accepted (creation env) = true ->
               prop data "data" = Some d -> prop d "chatId" = Some chatId ->
               out = Returned tt
               /\ callState s1 = CONNECTED
               /\ currentChatId s1 = chatId
               /\ t1 = [Emit (EvStateChange CONNECTING);
                        Do (Post (chatPath s "")
                              (VObj [("assistantId", VStr assistantId);
                                     ("metadata", or_else callMetadata (VObj []))]));
                        Do AbortChatRequest;
                        Emit (EvStateChange IDLE);
                        Emit (EvStateChange CONNECTED);
                        Emit EvConnected])) s).
  match goal with |- wp _ ?Q _ => set (post := Q) end.
  assert (Hfresh : callState s <> CONNECTING) by (destruct Hst; congruence).
  unfold endRequested in Hend.
  destruct (endRequests env) as [|n] eqn:Hn; [discriminate|]. clear Hend.
  unfold startChatSession. wp_step. wp_step. rewrite Hchat.
  wp_step. wp_step. wp_step. wp_step. rewrite Hcall, orb_false_r.
  assert (G : negb (bool_decide (callState s = IDLE))
              && negb (bool_decide (callState s = DISCONNECTED)) = false).
  { destruct Hst as [-> | ->]; reflexivity. }
  rewrite G, Hn. rewrite wp_bind, wp_setState.
  rewrite (decide_False (P := callState s = CONNECTING)) by exact Hfresh.
  cbv beta iota.
  repeat wp_step.
  unfold wp at 1.
  rewrite endChatSession_requests; [|reflexivity|eexists; reflexivity|exact Hchat].
  cbn [outcome final trace].
  destruct n as [|k]; cbn [Nat.eqb].
  - unfold endChatSession.
    repeat first [wp_step; fields; rewrite ?Hchat; cbn [negb andb orb] | wp_case].
    all: subst post; cbv beta; fields; cbn [app].
    all: (split; [reflexivity|]).
    all: (split; [find_in|]).
    all: (split;
      [intros e0 Hr Hname; try discriminate Hr;
       try (injection Hr as <-;
            first [ split; [reflexivity|]; split; [reflexivity|];
                    split; [exact Hchat|]; split; [|reflexivity];
                    repeat (constructor; [intros error; discriminate|]); constructor
                  | match goal with H : isAbortError _ = false |- _ =>
                      cbn [isAbortError] in H; rewrite Hname in H; discriminate H end ])
      |]).
    all: (split; [intros _ | intros Hle; lia]).
    all: (split;
      [first [reflexivity | assumption
             | match goal with H : negb (truthy ?v) = true |- truthy ?v = false =>
                 apply negb_true_iff; exact H end]|]).
    all: (split; [auto|]).
    all: intros status' data' d' chatId' Hr Hacc Hd Hc Ht; try discriminate Hr.
    all: injection Hr as <- <-; cbn [accepted] in Hacc.
    all: repeat match goal with
         | H : negb _ = true |- _ => apply negb_true_iff in H
         | H : negb _ = false |- _ => apply negb_false_iff in H
         end.
    all: repeat match goal with
         | H : ok ?x = _, H' : context [ok ?x] |- _ => rewrite H in H'
         | H : prop ?x ?k = _, H' : context [prop ?x ?k] |- _ => rewrite H in H'
         | H : truthy ?x = _, H' : context [truthy ?x] |- _ => rewrite H in H'
         end.
    all: try discriminate.
    all: injection Hd as <-; rewrite Hc in *; simplify_eq; first [congruence | find_in].
  - repeat first [wp_step; fields; rewrite ?Hchat; cbn [negb andb orb] | wp_case].
    all: subst post; cbv beta; fields; cbn [app].
    all: (split; [reflexivity|]).
    all: (split; [find_in|]).
    all: (split;
      [intros e0 Hr Hname; try discriminate Hr;
       try (injection Hr as <-;
            first [ split; [reflexivity|]; split; [reflexivity|];
                    split; [exact Hchat|]; split; [|reflexivity];
                    repeat (constructor; [intros error; discriminate|]); constructor
                  | match goal with H : isAbortError _ = false |- _ =>
                      cbn [isAbortError] in H; rewrite Hname in H; discriminate H end ])
      |]).
    all: (split; [intros Hone; discriminate Hone | intros _]).
    all: intros status' data' d' chatId' Hr Hacc Hd Hc; try discriminate Hr.
    all: injection Hr as <- <-; cbn [accepted] in Hacc.
    all: repeat match goal with
         | H : negb _ = true |- _ => apply negb_true_iff in H
         | H : negb _ = false |- _ => apply negb_false_iff in H
         end.
    all: repeat match goal with
         | H : ok ?x = _, H' : context [ok ?x] |- _ => rewrite H in H'
         | H : prop ?x ?k = _, H' : context [prop ?x ?k] |- _ => rewrite H in H'
         | H : truthy ?x = _, H' : context [truthy ?x] |- _ => rewrite H in H'
         end.
    all: try discriminate.
    all: injection Hd as <-; rewrite Hc in *; simplify_eq.
    all: repeat split; reflexivity.
Qed.

Lemma chat_closed_while_connecting_witness :
  outcome (startChatSession "asst_1" VUndefined
             (mkChatStart (Rejected (mkNative "AbortError" "The user aborted a request."))
                1 demo_success) demo_idle) = Returned tt
  /\ callState (final (startChatSession "asst_1" VUndefined
             (mkChatStart (Rejected (mkNative "AbortError" "The user aborted a request."))
                1 demo_success) demo_idle)) = IDLE
  /\ callState (final (startChatSession "asst_1" VUndefined
                         (mkChatStart demo_chat_created 2 demo_success) demo_idle))
     = CONNECTED
  /\ callState (final (startChatSession "asst_1" VUndefined
                         (mkChatStart demo_chat_created 1 demo_success) demo_idle))
     = DISCONNECTED.
Proof.
  destruct (chat_closed_while_connecting demo_idle "asst_1" VUndefined
              (mkChatStart (Rejected (mkNative "AbortError" "The user aborted a request."))
                 1 demo_success)
              eq_refl eq_refl (or_introl eq_refl) eq_refl)
    as (_ & _ & Habort & _).
  destruct (Habort _ eq_refl eq_refl) as (Hout & Hst & _).
  split; [exact Hout|]. split; [exact Hst|].
  destruct (chat_closed_while_connecting demo_idle "asst_1" VUndefined
              (mkChatStart demo_chat_created 2 demo_success)
              eq_refl eq_refl (or_introl eq_refl) eq_refl)
    as (_ & _ & _ & _ & Hopen).
  split; [|reflexivity].
  eapply Hopen; [apply le_n | reflexivity | reflexivity | reflexivity | reflexivity].
Defined.

(** ** Messages that go through the ledger *)

Lemma ledgered_quiet {A} (m : M A) :
  (forall s, messages (trace (m s)) = [] /\ final (m s) = s) -> ledgered m.
Proof.
  intros H i s. destruct (H s) as [-> ->]. cbn. repeat split; try lia; try done.
Qed.

Lemma ledgered_ret {A} (a : A) : ledgered (ret a).
Proof. apply ledgered_quiet. intros s. split; reflexivity. Qed.

Lemma ledgered_throw {A} e : ledgered (@throw A e).
Proof. apply ledgered_quiet. intros s. split; reflexivity. Qed.

Lemma ledgered_read {A} (f : Wespoke -> A) : ledgered (read f).
Proof. apply ledgered_quiet. intros s. split; reflexivity. Qed.

Lemma ledgered_perform a : ledgered (perform a).
Proof. apply ledgered_quiet. intros s. split; reflexivity. Qed.

Lemma ledgered_emit e : (forall m, e <> EvMessage m) -> ledgered (emit e).
Proof.
  intros H. apply ledgered_quiet. intros s. split; [|reflexivity].
  destruct e; try reflexivity. exfalso. eapply H. reflexivity.
Qed.

Lemma ledgered_bind {A B} (m : M A) (k : A -> M B) :
  ledgered m -> (forall a, ledgered (k a)) -> ledgered (bind m k).
Proof.
  intros Hm Hk i s. specialize (Hm i s). unfold bind.
  destruct (m s) as [[a|e] s1 t1]; cbn [outcome final trace] in *; [|exact Hm].
  specialize (Hk a i s1). destruct (k a s1) as [r s2 t2]; cbn [outcome final trace] in *.
  destruct Hm as (Hm1 & Hm2 & Hm3 & Hm4). destruct Hk as (Hk1 & Hk2 & Hk3 & Hk4).
  rewrite messages_app, bearing_app.
  assert (Hseen1 : bearing i (messages t1) <> [] -> bearing i (messages t2) = []).
  { intros Hne. apply Hk1, Hm3, Hne. }
  repeat split.
  - intros Hs. rewrite Hm1 by exact Hs. cbn. apply Hk1.
    unfold seenId in *. eapply elem_of_weaken; [exact Hs | exact Hm4].
  - rewrite length_app. destruct (bearing i (messages t1)) as [|x l] eqn:E.
    + cbn. exact Hk2.
    + rewrite Hseen1 by discriminate. cbn in *. lia.
  - intros Hne. destruct (bearing i (messages t1)) as [|x l] eqn:E.
    + apply Hk3. exact Hne.
    + unfold seenId in *. eapply elem_of_weaken; [apply Hm3; discriminate | exact Hk4].
  - etransitivity; eassumption.
Qed.

Lemma ledgered_try_catch {A} (m : M A) h :
  ledgered m -> (forall e, ledgered (h e)) -> ledgered (try_catch m h).
Proof.
  intros Hm Hh i s. specialize (Hm i s). unfold try_catch.
  destruct (m s) as [[a|e] s1 t1]; cbn [outcome final trace] in *; [exact Hm|].
  specialize (Hh e i s1). destruct (h e s1) as [r s2 t2]; cbn [outcome final trace] in *.
  destruct Hm as (Hm1 & Hm2 & Hm3 & Hm4). destruct Hh as (Hk1 & Hk2 & Hk3 & Hk4).
  rewrite messages_app, bearing_app.
  assert (Hseen1 : bearing i (messages t1) <> [] -> bearing i (messages t2) = []).
  { intros Hne. apply Hk1, Hm3, Hne. }
  repeat split.
  - intros Hs. rewrite Hm1 by exact Hs. cbn. apply Hk1.
    unfold seenId in *. eapply elem_of_weaken; [exact Hs | exact Hm4].
  - rewrite length_app. destruct (bearing i (messages t1)) as [|x l] eqn:E.
    + cbn. exact Hk2.
    + rewrite Hseen1 by discriminate. cbn in *. lia.
  - intros Hne. destruct (bearing i (messages t1)) as [|x l] eqn:E.
    + apply Hk3. exact Hne.
    + unfold seenId in *. eapply elem_of_weaken; [apply Hm3; discriminate | exact Hk4].
  - etransitivity; eassumption.
Qed.

Lemma ledgered_finally {A} (m : M A) f :
  ledgered m -> ledgered f -> ledgered (finally m f).
Proof.
  intros Hm Hf i s. specialize (Hm i s). unfold finally.
  destruct (m s) as [r s1 t1]; cbn [outcome final trace] in *.
  specialize (Hf i s1). destruct (f s1) as [r2 s2 t2]; cbn [outcome final trace] in *.
  destruct Hm as (Hm1 & Hm2 & Hm3 & Hm4). destruct Hf as (Hk1 & Hk2 & Hk3 & Hk4).
  rewrite messages_app, bearing_app.
  assert (Hseen1 : bearing i (messages t1) <> [] -> bearing i (messages t2) = []).
  { intros Hne. apply Hk1, Hm3, Hne. }
  repeat split.
  - intros Hs. rewrite Hm1 by exact Hs. cbn. apply Hk1.
    unfold seenId in *. eapply elem_of_weaken; [exact Hs | exact Hm4].
  - rewrite length_app. destruct (bearing i (messages t1)) as [|x l] eqn:E.
    + cbn. exact Hk2.
    + rewrite Hseen1 by discriminate. cbn in *. lia.
  - intros Hne. destruct (bearing i (messages t1)) as [|x l] eqn:E.
    + apply Hk3. exact Hne.
    + unfold seenId in *. eapply elem_of_weaken; [apply Hm3; discriminate | exact Hk4].
  - etransitivity; eassumption.
Qed.

Lemma ledgered_forEach {A} (xs : list A) f :
  (forall x, ledgered (f x)) -> ledgered (forEach xs f).
Proof.
  intros Hf. induction xs as [|x xs IH]; cbn [forEach].
  - apply ledgered_ret.
  - apply ledgered_bind; [apply Hf | intros _; exact IH].
Qed.

(** The guarded emission: [if (!seen.has(id)) { seen.add(id); emit(m) }]
    for a message [m] whose id is [mid]. *)
Lemma ledgered_guarded {B} (mid m : value) (k : unit -> M B) :
  optprop m "id" = mid -> (forall a, ledgered (k a)) ->
  ledgered (bind (read seenMessageIds) (fun seen =>
    bind (when (negb (has mid seen))
            (bind (write (fun s => set_seenMessageIds (add mid (seenMessageIds s)) s))
               (fun _ => emit (EvMessage m)))) k)).
Proof.
  intros Hid Hk i s. rewrite bind_read. unfold when.
  destruct (has mid (seenMessageIds s)) eqn:Hhas; cbn [negb].
  - rewrite bind_ret. apply Hk.
  - rewrite bind_pre, bind_write. cbn [emit].
    set (s1 := set_seenMessageIds (add mid (seenMessageIds s)) s).
    destruct (Hk tt i s1) as (Hk1 & Hk2 & Hk3 & Hk4).
    unfold pre. cbn [outcome final trace app messages].
    change (bearing i (m :: messages (trace (k tt s1))))
      with (bearing i ([m] ++ messages (trace (k tt s1)))).
    rewrite bearing_app, bearing_one. unfold bears. rewrite Hid.
    assert (Hgrow : seenMessageIds s ⊆ seenMessageIds (final (k tt s1))).
    { etransitivity; [|exact Hk4]. subst s1. cbn. apply add_subseteq. }
    destruct (is_str mid i) eqn:Hi.
    + destruct mid as [| | | |t| |]; try discriminate. cbn in Hi.
      apply String.eqb_eq in Hi. subst t.
      assert (Hs1 : seenId i s1) by (subst s1; unfold seenId; cbn; apply add_str).
      rewrite (Hk1 Hs1). cbn. repeat split; try lia; try assumption.
      * intros Hs. rewrite has_str in Hhas. apply bool_decide_eq_false in Hhas.
        contradiction.
      * intros _. unfold seenId in *. eapply elem_of_weaken; [exact Hs1 | exact Hk4].
    + cbn [app]. repeat split; try assumption.
      intros Hs. apply Hk1. subst s1. unfold seenId in *. cbn.
      eapply elem_of_weaken; [exact Hs | apply add_subseteq].
Qed.

Ltac ledger :=
  repeat first
    [ progress intros
    | assumption
    | apply ledgered_ret
    | apply ledgered_throw
    | apply ledgered_read
    | apply ledgered_perform
    | apply ledgered_emit; discriminate
    | apply ledgered_guarded; [reflexivity|]
    | apply ledgered_bind
    | apply ledgered_try_catch
    | apply ledgered_finally
    | apply ledgered_forEach
    | match goal with
      | |- ledgered (if ?b then _ else _) => destruct b
      | |- ledgered (match ?x with _ => _ end) => destruct x
      | |- ledgered (when ?b _) => unfold when
      | |- ledgered (logged _) => unfold logged
      | |- ledgered (settle _) => unfold settle
      | |- ledgered (field _ _) => unfold field
      | |- ledgered (await _) => unfold await
      | |- ledgered (awaitFetch _) => unfold awaitFetch
      | |- ledgered (json _) => unfold json
      | |- ledgered (checkResponse _ _) => unfold checkResponse
      | |- ledgered (previewContent _) => unfold previewContent
      end ].

Lemma ledgered_sseDispatch r id acc : ledgered (sseDispatch r id acc).
Proof. unfold sseDispatch. ledger. Qed.

Lemma ledgered_sseRecords rs : forall id acc, ledgered (sseRecords rs id acc).
Proof.
  induction rs as [|r rs IH]; intros id acc; cbn [sseRecords].
  - apply ledgered_ret.
  - apply ledgered_bind; [apply ledgered_sseDispatch|].
    intros [id' acc'|]; [apply IH | apply ledgered_ret].
Qed.

Lemma ledgered_sseReads reads : forall id acc, ledgered (sseReads reads id acc).
Proof.
  induction reads as [|[rs|e] reads IH]; intros id acc; cbn [sseReads].
  - apply ledgered_ret.
  - apply ledgered_bind; [apply ledgered_sseRecords|].
    intros [id' acc'|]; [apply IH | apply ledgered_ret].
  - apply ledgered_throw.
Qed.

Lemma ledgered_sendChatMessage c t1 t2 r b t0 :
  ledgered (sendChatMessage c t1 t2 r b t0).
Proof.
  pose proof ledgered_sseReads as Hreads.
  unfold sendChatMessage, handleSSEStream. cbv zeta. ledger.
  all: try apply Hreads.
Qed.


(** ** Sending a chat message *)

(** X15.  [sendChatMessage] without a chat id, or outside the Connected
    state, fails with NO_ACTIVE_CHAT or NOT_CONNECTED and is silent: nothing
    is sent or emitted.  Past these checks it first echoes the user's message
    (unless the ledger already holds its id, [user-] followed by the clock
    reading), then posts the content; and every failure from then on, of the
    request or of the stream, is emitted as [error], last of all, before it
    is thrown. *)
Theorem sendChatMessage_announces_failure (s : Wespoke) (content : string)
    (stamped sent : Z) (r : fetched) (body : option (list ReadResult)) (started : Z) :
  let o := sendChatMessage content stamped sent r body started s in
  let post := Do (Post (chatIdPath s "/messages") (VObj [("content", VStr content)])) in
  if negb (truthy (currentChatId s)) then
    o = mkOut (Threw (plainError "No active chat session" "NO_ACTIVE_CHAT")) s []
  else if negb (bool_decide (callState s = CONNECTED)) then
    o = mkOut (Threw (plainError "Not connected to a chat session" "NOT_CONNECTED")) s []
  else
    (exists rest,
       trace o = (if has (VStr ("user-" ++ string_of_Z stamped)%string) (seenMessageIds s)
                  then [] else [Emit (EvMessage (userMessageOf content stamped sent))])
                 ++ post :: rest)
    /\ (forall e, outcome o = Threw e -> last (trace o) = Some (Emit (EvError e)))
    /\ (forall status data, r = Responded status (inr data) -> ok status = false ->
          outcome o = Threw (SDK (parseAPIError data status))).
Proof.
  cbv zeta. unfold sendChatMessage. rewrite bind_read.
  destruct (negb (truthy (currentChatId s))); [reflexivity|].
  rewrite bind_read.
  destruct (negb (bool_decide (callState s = CONNECTED))); [reflexivity|].
  match goal with |- context [try_catch ?m ?h s] =>
    change (wp (try_catch m h)
      (fun out s1 t1 =>
         (exists rest,
            t1 = (if has (VStr ("user-" ++ string_of_Z stamped)%string) (seenMessageIds s)
                  then [] else [Emit (EvMessage (userMessageOf content stamped sent))])
                 ++ Do (Post (chatIdPath s "/messages") (VObj [("content", VStr content)]))
                    :: rest)
         /\ (forall e, out = Threw e -> last t1 = Some (Emit (EvError e)))
         /\ (forall status data, r = Responded status (inr data) -> ok status = false ->
               out = Threw (SDK (parseAPIError data status)))) s)
  end.
  rewrite wp_try_catch. rewrite wp_bind, wp_read. cbv beta iota.
  rewrite wp_bind. unfold when.
  destruct (has (VStr ("user-" ++ string_of_Z stamped)%string) (seenMessageIds s)) eqn:Hhas;
    cbn [negb]; repeat first [wp_step | wp_case].
  all: try (unfold wp;
    match goal with |- context [handleSSEStream ?b ?t ?s0] =>
      destruct (handleSSEStream b t s0) as [[[]|e'] s1 t1]
    end; cbn [outcome final trace]; repeat wp_step).
  all: repeat split;
         [ eexists; cbn [app]; reflexivity
         | intros e'' He; first [discriminate He | injection He as <-; in_last]
         | intros st d Hr Hno; try discriminate Hr ].
  all: simplify_eq; try reflexivity.
  all: match goal with H : negb (ok _) = false |- _ =>
         apply negb_false_iff in H; congruence end.
Qed.

(** X16.  In any sequence of [sendChatMessage] calls, whatever the server
    streams back, subscribers never receive two [message] events with the
    same string id, and never one whose id was in the ledger before: the
    echo of the user's message and every completed message of the stream
    pass through the ledger, which only grows meanwhile. *)
Theorem chat_message_ids_are_unique (sends : list ChatSend) (s : Wespoke) (i : string) :
  let o := forEach sends sendChat s in
  (length (bearing i (messages (trace o))) <= 1)%nat
  /\ (seenId i s -> bearing i (messages (trace o)) = [])
  /\ seenMessageIds s ⊆ seenMessageIds (final o).
Proof.
  cbv zeta.
  assert (H : ledgered (forEach sends sendChat)).
  { apply ledgered_forEach. intros c. unfold sendChat, settle.
    pose proof (ledgered_sendChatMessage (chatContent c) (chatStamped c) (chatSent c)
                  (chatResponse c) (chatBody c) (chatStarted c)) as Hsend.
    ledger. }
  destruct (H i s) as (H1 & H2 & _ & H4). auto.
Qed.

(** Two messages sent within the same millisecond: the second is not
    echoed. *)
Example same_millisecond_echo :
  messages (trace (forEach
    [mkChatSend "hi" 1700000000000 1700000000000 demo_success (Some []) 1700000000001;
     mkChatSend "again" 1700000000000 1700000000000 demo_success (Some []) 1700000000001]
    sendChat demo_in_chat))
  = [userMessageOf "hi" 1700000000000 1700000000000].
Proof. vm_compute. reflexivity. Qed.

(** ** Splitting text *)

Lemma prefix_nil s : String.prefix "" s = true.
Proof. destruct s; reflexivity. Qed.

Lemma prefix_app sep x y :
  String.prefix sep x = true -> String.prefix sep (x ++ y)%string = true.
Proof.
  revert x. induction sep as [|a sep IH]; intros x H; [apply prefix_nil|].
  destruct x as [|b x]; [discriminate|].
  change (String b x ++ y)%string with (String b (x ++ y)%string). cbn in *.
  destruct (Ascii.ascii_dec a b); [apply IH; exact H | discriminate].
Qed.

Lemma prefix_length sep x :
  String.prefix sep x = true -> (String.length sep <= String.length x)%nat.
Proof.
  revert x. induction sep as [|a sep IH]; intros x H; [cbn; lia|].
  destruct x as [|b x]; [discriminate|]. cbn in *.
  destruct (Ascii.ascii_dec a b); [apply IH in H; lia | discriminate].
Qed.

Lemma prefix_short sep x y :
  String.prefix sep (x ++ y)%string = true -> String.prefix sep x = false ->
  (String.length x < String.length sep)%nat.
Proof.
  revert x. induction sep as [|a sep IH]; intros x H Hx.
  - rewrite prefix_nil in Hx. discriminate.
  - destruct x as [|b x]; [cbn; lia|].
    change (String b x ++ y)%string with (String b (x ++ y)%string) in H. cbn in *.
    destruct (Ascii.ascii_dec a b); [apply IH in H; [lia | exact Hx] | discriminate].
Qed.

Lemma splitFrom_short sep : forall x,
  (String.length x < String.length sep)%nat -> JSString.splitFrom sep 0 x = (x, []).
Proof.
  induction x as [|c x IH]; intros Hlen; [reflexivity|].
  cbn [JSString.splitFrom].
  destruct (String.prefix sep (String c x)) eqn:Hp.
  - apply prefix_length in Hp. lia.
  - rewrite IH by (cbn in Hlen; lia). reflexivity.
Qed.

Lemma splitFrom_whole sep : forall x piece,
  JSString.splitFrom sep 0 x = (piece, []) -> piece = x.
Proof.
  induction x as [|c x IH]; intros piece H.
  - cbn in H. congruence.
  - cbn [JSString.splitFrom] in H.
    destruct (String.prefix sep (String c x)).
    + destruct (JSString.splitFrom sep (String.length sep - 1) x). discriminate.
    + destruct (JSString.splitFrom sep 0 x) as [h t] eqn:E.
      injection H as <- ->. f_equal. apply IH. reflexivity.
Qed.

Lemma split_pieces sep s :
  JSString.split sep s
  = fst (JSString.splitFrom sep 0 s) :: snd (JSString.splitFrom sep 0 s).
Proof. unfold JSString.split. destruct (JSString.splitFrom sep 0 s); reflexivity. Qed.

(** Splitting a text that is continued: the pieces that are complete stay,
    and the last one is split again with the continuation. *)
Lemma splitFrom_app sep y : forall x skip,
  (skip <= String.length x)%nat ->
  fst (JSString.splitFrom sep skip (x ++ y)%string)
    :: snd (JSString.splitFrom sep skip (x ++ y)%string)
  = removelast (fst (JSString.splitFrom sep skip x) :: snd (JSString.splitFrom sep skip x))
    ++ JSString.split sep
         (List.last (fst (JSString.splitFrom sep skip x)
                       :: snd (JSString.splitFrom sep skip x)) "" ++ y)%string.
Proof.
  induction x as [|c x IH]; intros skip Hskip.
  - cbn in Hskip. assert (skip = O) by lia. subst skip. cbn [String.append].
    cbn [JSString.splitFrom fst snd removelast List.last app]. apply eq_sym, split_pieces.
  - destruct skip as [|k].
    + change (String c x ++ y)%string with (String c (x ++ y)%string).
      cbn [JSString.splitFrom].
      destruct (String.prefix sep (String c x)) eqn:Hp.
      * pose proof (prefix_app _ _ y Hp) as Hpy.
        change (String c x ++ y)%string with (String c (x ++ y)%string) in Hpy.
        rewrite Hpy.
        assert (Hk : (String.length sep - 1 <= String.length x)%nat)
          by (apply prefix_length in Hp; cbn in Hp; lia).
        specialize (IH _ Hk).
        destruct (JSString.splitFrom sep (String.length sep - 1) (x ++ y)%string)
          as [h' t'].
        destruct (JSString.splitFrom sep (String.length sep - 1) x) as [h t].
        cbn [fst snd] in *. rewrite IH.
        destruct t; reflexivity.
      * destruct (String.prefix sep (String c (x ++ y)%string)) eqn:Hpy.
        -- assert (Hlen : (String.length (String c x) < String.length sep)%nat)
             by (eapply prefix_short; eassumption).
           pose proof (splitFrom_short sep (String c x) Hlen) as Hwhole.
           cbn [JSString.splitFrom] in Hwhole. rewrite Hp in Hwhole.
           rewrite Hwhole. cbn [fst snd removelast List.last app].
           rewrite split_pieces.
           change (String c x ++ y)%string with (String c (x ++ y)%string).
           cbn [JSString.splitFrom]. rewrite Hpy. reflexivity.
        -- specialize (IH O ltac:(lia)).
           destruct (JSString.splitFrom sep 0 (x ++ y)%string) as [h' t'] eqn:E'.
           destruct (JSString.splitFrom sep 0 x) as [h t] eqn:E.
           cbn [fst snd] in *.
           destruct t as [|t0 ts].
           ++ cbn [removelast List.last app] in *.
              apply splitFrom_whole in E. subst h.
              rewrite split_pieces.
              change (String c x ++ y)%string with (String c (x ++ y)%string).
              cbn [JSString.splitFrom]. rewrite Hpy, E'. reflexivity.
           ++ change (removelast (h :: t0 :: ts)) with (h :: removelast (t0 :: ts)) in IH.
              change (List.last (h :: t0 :: ts) "") with (List.last (t0 :: ts) "") in IH.
              change (removelast (String c h :: t0 :: ts))
                with (String c h :: removelast (t0 :: ts)).
              change (List.last (String c h :: t0 :: ts) "")
                with (List.last (t0 :: ts) "").
              cbn [app] in *. injection IH as -> ->. reflexivity.
    + change (String c x ++ y)%string with (String c (x ++ y)%string).
      cbn [JSString.splitFrom]. apply IH. cbn in Hskip. lia.
Qed.

Lemma split_nonempty sep s : JSString.split sep s <> [].
Proof. rewrite split_pieces. discriminate. Qed.

Lemma split_app sep x y :
  JSString.split sep (x ++ y)%string
  = removelast (JSString.split sep x)
    ++ JSString.split sep (List.last (JSString.split sep x) "" ++ y)%string.
Proof.
  rewrite (split_pieces sep (x ++ y)), (split_pieces sep x).
  apply splitFrom_app. lia.
Qed.

(** ** Framing the event stream *)

Lemma append_assoc (a b c : string) : ((a ++ b) ++ c = a ++ (b ++ c))%string.
Proof.
  induction a as [|x a IH]; [reflexivity|].
  change ((String x a ++ b) ++ c)%string with (String x ((a ++ b) ++ c)%string).
  change (String x a ++ (b ++ c))%string with (String x (a ++ (b ++ c))%string).
  rewrite IH. reflexivity.
Qed.

Lemma last_app_nonempty {A} (l1 l2 : list A) d :
  l2 <> [] -> List.last (l1 ++ l2) d = List.last l2 d.
Proof.
  intros Hne. induction l1 as [|x l1 IH]; [reflexivity|].
  cbn [app]. destruct (l1 ++ l2) eqn:E.
  - apply app_eq_nil in E. destruct E; contradiction.
  - rewrite <- IH. reflexivity.
Qed.

(** Feeding a chunk in two parts gives the same records and the same
    buffer as feeding it at once. *)
Lemma sseFeed_app buffer c1 c2 :
  sseFeed buffer (c1 ++ c2)%string
  = (fst (sseFeed buffer c1) ++ fst (sseFeed (snd (sseFeed buffer c1)) c2),
     snd (sseFeed (snd (sseFeed buffer c1)) c2)).
Proof.
  unfold sseFeed. cbn [fst snd]. rewrite <- append_assoc, split_app.
  set (l1 := JSString.split blankLine (buffer ++ c1)%string).
  set (l2 := JSString.split blankLine (List.last l1 "" ++ c2)%string).
  assert (Hne : l2 <> []) by apply split_nonempty.
  rewrite removelast_app by exact Hne.
  f_equal. apply last_app_nonempty. exact Hne.
Qed.

Lemma stamp_app clock p1 : forall n p2,
  stamp clock n (p1 ++ p2) = stamp clock n p1 ++ stamp clock (n + length p1) p2.
Proof.
  induction p1 as [|[t d] p1 IH]; intros n p2.
  - cbn. rewrite Nat.add_0_r. reflexivity.
  - cbn [app stamp length]. rewrite IH. do 3 f_equal. lia.
Qed.

(** Two reads in a row are one read of their records. *)
Lemma sseReads_merge r1 r2 rest id acc s :
  sseReads (Chunk r1 :: Chunk r2 :: rest) id acc s
  = sseReads (Chunk (r1 ++ r2) :: rest) id acc s.
Proof.
  cbn [sseReads]. rewrite !bind_pre, sseRecords_app.
  destruct (sseRecords r1 id acc s) as [[[id1 acc1|]|e1] s1 t1]; try reflexivity.
  rewrite bind_pre.
  destruct (sseRecords r2 id1 acc1 s1) as [[[id2 acc2|]|e2] s2 t2];
    unfold pre; cbn [outcome final trace]; rewrite ?app_assoc; reflexivity.
Qed.

Lemma sseReads_first rs l1 l2 id acc s :
  (forall id' acc' s', sseReads l1 id' acc' s' = sseReads l2 id' acc' s') ->
  sseReads (Chunk rs :: l1) id acc s = sseReads (Chunk rs :: l2) id acc s.
Proof.
  intros H. cbn [sseReads]. rewrite !bind_pre.
  destruct (sseRecords rs id acc s) as [[[id1 acc1|]|e1] s1 t1]; try reflexivity.
  rewrite H. reflexivity.
Qed.

Lemma append_nil_r (a : string) : (a ++ "")%string = a.
Proof.
  induction a as [|x a IH]; [reflexivity|].
  change (String x a ++ "")%string with (String x (a ++ "")%string).
  rewrite IH. reflexivity.
Qed.

Lemma sseFrames_joined parse clock chunks : forall c n buffer id acc s,
  sseReads (sseFrames parse clock n buffer (map Text (c :: chunks))) id acc s
  = sseReads (sseFrames parse clock n buffer [Text (joined (c :: chunks))]) id acc s.
Proof.
  induction chunks as [|c2 chunks IH]; intros c n buffer id acc s.
  - cbn [joined fold_right]. rewrite append_nil_r. reflexivity.
  - change (map Text (c :: c2 :: chunks)) with (Text c :: map Text (c2 :: chunks)).
    cbn [sseFrames]. erewrite sseReads_first by (intros; apply IH).
    cbn [sseFrames]. rewrite sseReads_merge.
    change (joined (c :: c2 :: chunks)) with (c ++ joined (c2 :: chunks))%string.
    rewrite sseFeed_app. cbn [fst snd].
    rewrite omap_app, stamp_app. reflexivity.
Qed.

(** X17.  The events of a chat answer do not depend on how the network cuts
    the stream into reads: with the same readings of the clock for each
    record, reading the text in any number of pieces gives the same result,
    the same controller and the same trace as reading it in one piece. *)
Theorem chat_stream_ignores_chunking (parse : string -> option value)
    (clock : nat -> Z) (chunks : list string) (started : Z) (s : Wespoke) :
  handleSSEText parse clock (Some (map Text chunks)) started s
  = handleSSEText parse clock (Some [Text (joined chunks)]) started s.
Proof.
  unfold handleSSEText, handleSSEStream. cbn [option_map].
  unfold finally, logged, try_catch.
  destruct chunks as [|c chunks].
  - reflexivity.
  - rewrite sseFrames_joined. reflexivity.
Qed.

Lemma splitFrom_without sep : forall s,
  includes sep s = false -> JSString.splitFrom sep 0 s = (s, []).
Proof.
  induction s as [|c s IH]; intros H; [reflexivity|].
  cbn [includes] in H. cbn [JSString.splitFrom].
  destruct (String.prefix sep (String c s)); [discriminate|].
  rewrite IH by exact H. reflexivity.
Qed.

(** X18.  A record is handled only once the blank line that ends it has
    arrived: when the stream ends, what is left in the buffer is dropped.  A
    text without a blank line, read in any number of pieces, therefore
    emits nothing and changes nothing, however complete its last record
    looks. *)
Theorem unterminated_record_is_dropped (parse : string -> option value)
    (clock : nat -> Z) (chunks : list string) (started : Z) (s : Wespoke) :
  includes blankLine (joined chunks) = false ->
  handleSSEText parse clock (Some (map Text chunks)) started s
  = mkOut (Returned tt) s [Do ReleaseReaderLock].
Proof.
  intros H. unfold handleSSEText, handleSSEStream. cbn [option_map].
  unfold finally, logged, try_catch.
  destruct chunks as [|c chunks]; [reflexivity|].
  rewrite sseFrames_joined. cbn [sseFrames].
  assert (Hfeed : sseFeed "" (joined (c :: chunks)) = ([], joined (c :: chunks))).
  { unfold sseFeed. cbn [String.append]. rewrite split_pieces, splitFrom_without by exact H.
    reflexivity. }
  rewrite Hfeed. reflexivity.
Qed.

Lemma unterminated_record_is_dropped_witness :
  handleSSEText (fun _ => Some (VObj [])) (fun _ => 0)
    (Some [Text ("event: done" ++ LF)%string; Text ("data: {}" ++ LF)%string]) 0 demo_in_chat
  = mkOut (Returned tt) demo_in_chat [Do ReleaseReaderLock].
Proof.
  apply (unterminated_record_is_dropped (fun _ => Some (VObj [])) (fun _ => 0)
           [("event: done" ++ LF)%string; ("data: {}" ++ LF)%string]).
  reflexivity.
Defined.

(** The data of a record read line by line: the last line that decodes. *)
Lemma sseLines_falsy parse lines : forall type data,
  truthy data = false ->
  (forall line v, In line lines -> startsWith "data: " line = true ->
     parse (JSString.slice 6 line) = Some v -> truthy v = false) ->
  truthy (snd (fold_left (sseLine parse) lines (type, data))) = false.
Proof.
  induction lines as [|line lines IH]; intros type data Hd Hall; [exact Hd|].
  cbn [fold_left]. unfold sseLine at 2. cbn [fst snd].
  destruct (startsWith "event: " line).
  - apply IH; [exact Hd | intros l v Hl; apply Hall; right; exact Hl].
  - destruct (startsWith "data: " line) eqn:Hdata.
    + destruct (parse (JSString.slice 6 line)) as [v|] eqn:Hp.
      * apply IH; [eapply Hall; [left; reflexivity | exact Hdata | exact Hp]
                  | intros l w Hl; apply Hall; right; exact Hl].
      * apply IH; [exact Hd | intros l w Hl; apply Hall; right; exact Hl].
    + apply IH; [exact Hd | intros l w Hl; apply Hall; right; exact Hl].
Qed.

(** X19.  A record without data is passed over, whatever its event type:
    when no [data:] line of a record decodes to a truthy value (there is
    none, its text is not JSON, or it is [null], [false], [0] or the empty
    string), handling the record emits nothing, changes nothing and does not
    end the reading, not even for [done] or [error]. *)
Theorem record_without_data_is_ignored (parse : string -> option value)
    (message : string) (now : Z) (currentMessageId accumulatedContent : value)
    (s : Wespoke) :
  (forall line v, In line (JSString.split LF message) ->
     startsWith "data: " line = true ->
     parse (JSString.slice 6 line) = Some v -> truthy v = false) ->
  match sseMessage parse message with
  | Some (type, data) =>
      sseDispatch (mkRecord type data now) currentMessageId accumulatedContent s
      = mkOut (Returned (Continue currentMessageId accumulatedContent)) s []
  | None => True
  end.
Proof.
  intros Hall. unfold sseMessage.
  destruct (String.eqb (trim message) "" || startsWith ": " message); [exact I|].
  pose proof (sseLines_falsy parse (JSString.split LF message) "" VNull eq_refl Hall) as H.
  destruct (fold_left (sseLine parse) (JSString.split LF message) ("", VNull)) as [type data].
  cbn [snd] in H. unfold sseDispatch. cbn [eventType eventData].
  rewrite H. cbn [negb]. rewrite orb_true_r. reflexivity.
Qed.

Lemma record_without_data_is_ignored_witness :
  sseMessage (fun _ => None) "event: done" = Some ("done", VNull)
  /\ sseDispatch (mkRecord "done" VNull 0) (VStr "m1") (VStr "") demo_in_chat
     = mkOut (Returned (Continue (VStr "m1") (VStr ""))) demo_in_chat [].
Proof.
  split; [reflexivity|].
  exact (record_without_data_is_ignored (fun _ => None) "event: done" 0
           (VStr "m1") (VStr "") demo_in_chat ltac:(intros ? ? ? ?; discriminate)).
Defined.

(** ** The event emitter *)

Module EmitterFacts.
Import Emitter.

Lemma get_In event m handlers :
  get event m = Some handlers -> In (event, handlers) m.
Proof.
  induction m as [|[k hs] m IH]; [discriminate|]. cbn [get].
  destruct (String.eqb_spec k event) as [->|Hne].
  - intros H. injection H as ->. left. reflexivity.
  - intros H. right. apply IH. exact H.
Qed.

Lemma get_None event m : get event m = None <-> ~ In event (map fst m).
Proof.
  induction m as [|[k hs] m IH]; cbn [get map fst In]; [tauto|].
  destruct (String.eqb_spec k event) as [->|Hne].
  - split; [discriminate | intros H; exfalso; apply H; left; reflexivity].
  - rewrite IH. tauto.
Qed.

Lemma get_set_same event handlers m : get event (set event handlers m) = Some handlers.
Proof.
  induction m as [|[k hs] m IH]; cbn [set get].
  - rewrite String.eqb_refl. reflexivity.
  - destruct (String.eqb_spec k event) as [->|Hne]; cbn [get].
    + rewrite String.eqb_refl. reflexivity.
    + destruct (String.eqb_spec k event); [contradiction | exact IH].
Qed.

Lemma get_delete_same event m : get event (delete event m) = None.
Proof.
  induction m as [|[k hs] m IH]; [reflexivity|]. unfold delete in *. cbn [List.filter fst].
  destruct (String.eqb_spec k event) as [->|Hk]; cbn [negb get]; [exact IH|].
  destruct (String.eqb_spec k event); [contradiction | exact IH].
Qed.

Lemma get_delete_other event other m :
  other <> event -> get other (delete event m) = get other m.
Proof.
  intros Hne. induction m as [|[k hs] m IH]; [reflexivity|].
  unfold delete in *. cbn [List.filter fst get].
  destruct (String.eqb_spec k event) as [->|Hk]; cbn [negb get].
  - rewrite IH. destruct (String.eqb_spec event other); [congruence | reflexivity].
  - rewrite IH. reflexivity.
Qed.

(** Writing back what is stored changes nothing. *)
Lemma set_get event handlers m : get event m = Some handlers -> set event handlers m = m.
Proof.
  induction m as [|[k hs] m IH]; [discriminate|]. cbn [get set].
  destruct (String.eqb_spec k event) as [->|Hk].
  - intros H. injection H as ->. reflexivity.
  - intros H. rewrite IH by exact H. reflexivity.
Qed.

Lemma set_set event h1 h2 m : set event h2 (set event h1 m) = set event h2 m.
Proof.
  induction m as [|[k hs] m IH]; cbn [set].
  - rewrite String.eqb_refl. reflexivity.
  - destruct (String.eqb_spec k event) as [->|Hk]; cbn [set].
    + rewrite String.eqb_refl. reflexivity.
    + destruct (String.eqb_spec k event); [contradiction|]. rewrite IH. reflexivity.
Qed.

(** Deleting a key that was just added at the end. *)
Lemma delete_set_new event handlers m :
  get event m = None -> delete event (set event handlers m) = m.
Proof.
  induction m as [|[k hs] m IH]; cbn [get set]; intros H.
  - unfold delete. cbn. rewrite String.eqb_refl. reflexivity.
  - destruct (String.eqb_spec k event) as [->|Hk]; [discriminate|].
    unfold delete in *. cbn [List.filter fst].
    destruct (String.eqb_spec k event); [contradiction|]. cbn [negb].
    rewrite IH by exact H. reflexivity.
Qed.

Lemma keys_set_old event handlers old m :
  get event m = Some old -> map fst (set event handlers m) = map fst m.
Proof.
  induction m as [|[k hs] m IH]; cbn [get set map fst]; [discriminate|].
  destruct (String.eqb_spec k event) as [->|Hk]; cbn [map fst]; [reflexivity|].
  intros H. rewrite IH by exact H. reflexivity.
Qed.

Lemma keys_set_new event handlers m :
  get event m = None -> map fst (set event handlers m) = map fst m ++ [event].
Proof.
  induction m as [|[k hs] m IH]; cbn [get set map fst app]; [reflexivity|].
  destruct (String.eqb_spec k event) as [->|Hk]; cbn [map fst]; [discriminate|].
  intros H. rewrite IH by exact H. reflexivity.
Qed.

Lemma setAdd_In h handlers : In h (setAdd h handlers).
Proof.
  unfold setAdd. destruct (bool_decide (h ∈ handlers)) eqn:E.
  - apply bool_decide_eq_true in E. apply list_elem_of_In. exact E.
  - apply in_or_app. right. left. reflexivity.
Qed.

Lemma setAdd_new h handlers : ~ In h handlers -> setAdd h handlers = handlers ++ [h].
Proof.
  intros H. unfold setAdd. rewrite bool_decide_eq_false_2; [reflexivity|].
  intros E. apply H, list_elem_of_In, E.
Qed.

Lemma setDelete_In h h' handlers :
  In h' (setDelete h handlers) <-> In h' handlers /\ h' <> h.
Proof.
  unfold setDelete. rewrite filter_In. split; intros [H1 H2]; split; try exact H1.
  - apply negb_true_iff, bool_decide_eq_false in H2. exact H2.
  - apply negb_true_iff, bool_decide_eq_false. exact H2.
Qed.

Lemma setDelete_new h handlers : ~ In h handlers -> setDelete h (handlers ++ [h]) = handlers.
Proof.
  intros H. unfold setDelete. rewrite List.filter_app. cbn [List.filter].
  rewrite bool_decide_eq_true_2 by reflexivity. cbn [negb]. rewrite app_nil_r.
  induction handlers as [|x l IH]; [reflexivity|]. cbn [List.filter].
  rewrite bool_decide_eq_false_2 by (intros ->; apply H; left; reflexivity).
  cbn [negb]. rewrite IH; [reflexivity|]. intros Hin. apply H. right. exact Hin.
Qed.

(** *** The emitter stays well formed *)

Lemma wellFormed_alt e :
  wellFormed e <-> NoDup (map fst (events e)) /\ Forall (goodEntry (closures e)) (events e).
Proof. reflexivity. Qed.

Lemma Forall_set (P : string * list handler -> Prop) event handlers m :
  Forall P m -> P (event, handlers) -> Forall P (set event handlers m).
Proof.
  intros Hm Hp. induction m as [|[k hs] m IH]; cbn [set].
  - constructor; [exact Hp | constructor].
  - inversion Hm as [|? ? Hk Hrest]; subst.
    destruct (String.eqb_spec k event) as [->|Hne].
    + constructor; assumption.
    + constructor; [exact Hk | apply IH; exact Hrest].
Qed.

Lemma Forall_delete (P : string * list handler -> Prop) event m :
  Forall P m -> Forall P (delete event m).
Proof.
  intros Hm. unfold delete. induction Hm as [|x m Hx Hm IH]; cbn [List.filter].
  - constructor.
  - destruct (negb (String.eqb (fst x) event)); [constructor|]; assumption.
Qed.

Lemma keys_delete event m : map fst (delete event m) = List.filter (fun k => negb (String.eqb k event)) (map fst m).
Proof.
  unfold delete. induction m as [|[k hs] m IH]; [reflexivity|]. cbn [List.filter map fst].
  destruct (negb (String.eqb k event)); cbn [map fst]; rewrite IH; reflexivity.
Qed.

Lemma NoDup_filter' {A} (f : A -> bool) (l : list A) : NoDup l -> NoDup (List.filter f l).
Proof.
  induction 1 as [|x l Hx Hl IH]; cbn [List.filter]; [constructor|].
  destruct (f x); [|exact IH]. constructor; [|exact IH].
  rewrite list_elem_of_In, filter_In. intros [Hin _]. apply Hx, list_elem_of_In, Hin.
Qed.

Lemma goodEntry_get c m event handlers :
  Forall (goodEntry c) m -> get event m = Some handlers -> goodEntry c (event, handlers).
Proof.
  intros Hm Hget. rewrite List.Forall_forall in Hm. apply Hm, get_In, Hget.
Qed.

Lemma goodEntry_mono c c' entry : (c <= c')%nat -> goodEntry c entry -> goodEntry c' entry.
Proof.
  intros Hle (H1 & H2 & H3). repeat split; try assumption.
  eapply Forall_impl; [exact H3|]. intros [id|serial id]; cbn; [auto | lia].
Qed.

Lemma setAdd_good c h handlers :
  NoDup handlers -> Forall (bounded c) handlers -> bounded c h ->
  goodEntry c ("", setAdd h handlers).
Proof.
  intros Hnd Hb Hh. unfold goodEntry, setAdd. cbn [snd].
  destruct (bool_decide (h ∈ handlers)) eqn:E.
  - apply bool_decide_eq_true in E. repeat split; try assumption.
    intros ->. inversion E.
  - apply bool_decide_eq_false in E. repeat split.
    + destruct handlers; discriminate.
    + apply NoDup_app. repeat split; [exact Hnd | | apply NoDup_singleton].
      intros x Hx Hx'. apply list_elem_of_singleton in Hx'. subst x. contradiction.
    + apply Forall_app. split; [exact Hb | constructor; [exact Hh | constructor]].
Qed.

Lemma wellFormed_on event h e :
  wellFormed e -> bounded (closures e) h -> wellFormed (on event h e).
Proof.
  rewrite !wellFormed_alt. intros [Hkeys Hall] Hh. unfold on.
  destruct (get event (events e)) as [hs|] eqn:Hget.
  - rewrite Hget. cbn [events closures].
    destruct (goodEntry_get _ _ _ _ Hall Hget) as (Hne & Hnd & Hb). cbn [snd] in *.
    split; [erewrite keys_set_old by exact Hget; exact Hkeys|].
    apply Forall_set; [exact Hall|].
    destruct (setAdd_good (closures e) h hs Hnd Hb Hh) as (G1 & G2 & G3).
    repeat split; assumption.
  - rewrite get_set_same. cbn [events closures]. rewrite set_set.
    split.
    + rewrite keys_set_new by exact Hget. apply NoDup_app.
      repeat split; [exact Hkeys | | apply NoDup_singleton].
      intros x Hx Hx'. apply list_elem_of_singleton in Hx'. subst x.
      apply get_None in Hget. apply Hget, list_elem_of_In, Hx.
    + apply Forall_set; [exact Hall|].
      destruct (setAdd_good (closures e) h [] (NoDup_nil_2) (Forall_nil_2 _) Hh)
        as (G1 & G2 & G3).
      repeat split; assumption.
Qed.

Lemma wellFormed_off event h e : wellFormed e -> wellFormed (off event h e).
Proof.
  rewrite !wellFormed_alt. intros [Hkeys Hall]. unfold off.
  destruct (get event (events e)) as [hs|] eqn:Hget; [|split; assumption].
  destruct (goodEntry_get _ _ _ _ Hall Hget) as (Hne & Hnd & Hb). cbn [snd] in *.
  destruct (Nat.eqb_spec (length (setDelete h hs)) 0) as [Hlen|Hlen]; cbn [events closures].
  - split; [rewrite keys_delete; apply NoDup_filter'; exact Hkeys
           | apply Forall_delete; exact Hall].
  - split; [erewrite keys_set_old by exact Hget; exact Hkeys|].
    apply Forall_set; [exact Hall|]. repeat split; cbn [snd].
    + intros E. rewrite E in Hlen. cbn in Hlen. lia.
    + apply NoDup_filter'. exact Hnd.
    + unfold setDelete. rewrite List.Forall_forall in *. intros x Hx.
      apply filter_In in Hx. apply Hb, Hx.
Qed.

Lemma wellFormed_once event id e : wellFormed e -> wellFormed (once event id e).
Proof.
  intros Hwf. unfold once. apply wellFormed_on; [|cbn; lia].
  apply wellFormed_alt in Hwf. destruct Hwf as [Hkeys Hall]. apply wellFormed_alt.
  cbn [events closures]. split; [exact Hkeys|].
  eapply Forall_impl; [exact Hall|]. intros entry. apply goodEntry_mono. lia.
Qed.

Lemma wellFormed_callHandler throws event data e h :
  wellFormed e -> wellFormed (callHandler throws event data e h).
Proof.
  intros Hwf. destruct h as [id|serial id]; cbn [callHandler]; [exact Hwf|].
  destruct (throws id data); [exact Hwf | apply wellFormed_off; exact Hwf].
Qed.

Lemma wellFormed_calls throws event data handlers : forall e,
  wellFormed e -> wellFormed (fold_left (callHandler throws event data) handlers e).
Proof.
  induction handlers as [|h handlers IH]; intros e Hwf; [exact Hwf|].
  cbn [fold_left]. apply IH, wellFormed_callHandler, Hwf.
Qed.

Lemma wellFormed_emit throws event data e :
  wellFormed e -> wellFormed (snd (fst (emit throws event data e))).
Proof.
  intros Hwf. unfold emit. destruct (get event (events e)) as [hs|]; [|exact Hwf].
  destruct (length hs =? 0)%nat; [exact Hwf|]. cbn [fst snd].
  apply wellFormed_calls, Hwf.
Qed.

Lemma wellFormed_removeAllListeners event e :
  wellFormed e -> wellFormed (removeAllListeners event e).
Proof.
  rewrite !wellFormed_alt. intros [Hkeys Hall]. unfold removeAllListeners.
  assert (Hclear : NoDup (map fst (@nil (string * list handler)))
                   /\ Forall (goodEntry (closures e)) []) by (split; constructor).
  destruct event as [name|]; [|exact Hclear].
  destruct (negb (String.eqb name "")); [|exact Hclear]. cbn [events closures].
  split; [rewrite keys_delete; apply NoDup_filter'; exact Hkeys
         | apply Forall_delete; exact Hall].
Qed.

Lemma wellFormed_empty : wellFormed empty.
Proof. split; constructor. Qed.

Lemma wellFormed_serve throws e q : wellFormed e -> wellFormed (serve throws e q).
Proof.
  intros Hwf. destruct q; cbn [serve].
  - apply wellFormed_on; [exact Hwf | exact I].
  - apply wellFormed_once, Hwf.
  - apply wellFormed_off, Hwf.
  - apply wellFormed_emit, Hwf.
  - apply wellFormed_removeAllListeners, Hwf.
Qed.

Lemma wellFormed_after throws requests : wellFormed (after throws requests).
Proof.
  unfold after. generalize wellFormed_empty. generalize empty.
  induction requests as [|q requests IH]; intros e Hwf; [exact Hwf|].
  cbn [fold_left]. apply IH, wellFormed_serve, Hwf.
Qed.

End EmitterFacts.

(** X20.  After any sequence of calls on a new emitter, the events named by
    [eventNames()] are exactly those with at least one listener, each named
    once: [off] and the closure of [once] drop an event with its last
    handler.  [emit] returns [true] exactly for these events, and no event
    holds a handler twice. *)
Theorem emitter_names_have_listeners (throws : nat -> value -> bool)
    (requests : list Emitter.request) (name : string) (data : value) :
  let e := Emitter.after throws requests in
  NoDup (Emitter.eventNames e)
  /\ (In name (Emitter.eventNames e) <-> (0 < Emitter.listenerCount name e)%nat)
  /\ (fst (fst (Emitter.emit throws name data e)) = true
      <-> In name (Emitter.eventNames e))
  /\ NoDup (Emitter.listeners name e).
Proof.
  cbv zeta. pose proof (EmitterFacts.wellFormed_after throws requests) as [Hkeys Hall].
  set (e := Emitter.after throws requests) in *.
  unfold Emitter.eventNames, Emitter.listenerCount, Emitter.emit, Emitter.listeners.
  destruct (Emitter.get name (Emitter.events e)) as [hs|] eqn:Hget.
  - destruct (EmitterFacts.goodEntry_get _ _ _ _ Hall Hget) as (Hne & Hnd & _).
    cbn [snd] in *.
    assert (Hin : In name (map fst (Emitter.events e))).
    { apply EmitterFacts.get_In in Hget. apply in_map_iff. exists (name, hs). auto. }
    assert (Hlen : (0 < length hs)%nat) by (destruct hs; [contradiction | cbn; lia]).
    destruct (Nat.eqb_spec (length hs) 0) as [E|E]; [lia|]. cbn [fst snd].
    repeat split; auto.
  - apply EmitterFacts.get_None in Hget. cbn [fst snd].
    repeat split; try assumption; try (intros; lia); try discriminate;
      try (intros; contradiction). constructor.
Qed.

(** X21.  [off] undoes [on]: registering a handler that was not registered
    for the event and removing it again leaves the emitter exactly as it
    was, the event's place among the names included. *)
Theorem emitter_off_undoes_on (throws : nat -> value -> bool)
    (requests : list Emitter.request) (name : string) (id : nat) :
  let e := Emitter.after throws requests in
  ~ In (Emitter.Fn id) (Emitter.listeners name e) ->
  Emitter.off name (Emitter.Fn id) (Emitter.on name (Emitter.Fn id) e) = e.
Proof.
  cbv zeta. pose proof (EmitterFacts.wellFormed_after throws requests) as [Hkeys Hall].
  set (e := Emitter.after throws requests) in *. clearbody e.
  unfold Emitter.listeners, Emitter.on, Emitter.off. intros Hnew.
  destruct e as [m c]. cbn [Emitter.events Emitter.closures] in *.
  destruct (Emitter.get name m) as [hs|] eqn:Hget.
  - rewrite Hget. cbn [Emitter.events Emitter.closures].
    destruct (EmitterFacts.goodEntry_get _ _ _ _ Hall Hget) as (Hne & _). cbn [snd] in *.
    rewrite EmitterFacts.get_set_same, EmitterFacts.setAdd_new by exact Hnew.
    rewrite EmitterFacts.setDelete_new by exact Hnew.
    destruct (Nat.eqb_spec (length hs) 0) as [E|E];
      [destruct hs; [contradiction | discriminate]|].
    rewrite EmitterFacts.set_set, EmitterFacts.set_get by exact Hget. reflexivity.
  - rewrite EmitterFacts.get_set_same. cbn [Emitter.events Emitter.closures].
    rewrite EmitterFacts.get_set_same, EmitterFacts.set_set.
    rewrite (EmitterFacts.setAdd_new _ []) by (intros []).
    rewrite (EmitterFacts.setDelete_new (Emitter.Fn id) []) by (intros []).
    cbn [length Nat.eqb]. rewrite EmitterFacts.delete_set_new by exact Hget. reflexivity.
Qed.

Lemma emitter_off_undoes_on_witness :
  Emitter.off "message" (Emitter.Fn 2)
    (Emitter.on "message" (Emitter.Fn 2)
       (Emitter.after (fun _ _ => false) [Emitter.On "message" 1; Emitter.On "error" 3]))
  = Emitter.after (fun _ _ => false) [Emitter.On "message" 1; Emitter.On "error" 3].
Proof.
  apply (emitter_off_undoes_on (fun _ _ => false)
           [Emitter.On "message" 1; Emitter.On "error" 3] "message" 2).
  cbn. intros [H|[]]. discriminate.
Defined.

Lemma emitter_registered (name : string) (ids : list nat) : forall (pre : list nat) c,
  pre <> [] -> NoDup (pre ++ ids) ->
  fold_left (fun e id => Emitter.on name (Emitter.Fn id) e) ids
    (Emitter.mkEmitter [(name, map Emitter.Fn pre)] c)
  = Emitter.mkEmitter [(name, map Emitter.Fn (pre ++ ids))] c.
Proof.
  induction ids as [|i ids IH]; intros pre c Hne Hnd.
  - rewrite app_nil_r. reflexivity.
  - cbn [fold_left]. unfold Emitter.on at 2.
    cbn [Emitter.events Emitter.closures Emitter.get Emitter.set].
    rewrite String.eqb_refl. cbn [Emitter.get Emitter.set]. rewrite String.eqb_refl.
    rewrite EmitterFacts.setAdd_new.
    + change (map Emitter.Fn pre ++ [Emitter.Fn i]) with (map Emitter.Fn pre ++ map Emitter.Fn [i]).
      rewrite <- map_app. rewrite IH.
      * rewrite <- app_assoc. reflexivity.
      * destruct pre; discriminate.
      * rewrite <- app_assoc. exact Hnd.
    + intros Hin. apply in_map_iff in Hin. destruct Hin as (x & Hx & Hin).
      injection Hx as ->. apply NoDup_app in Hnd. destruct Hnd as (_ & Hdis & _).
      apply (Hdis i); [apply list_elem_of_In; exact Hin | left].
Qed.

Lemma emitter_plain_calls throws name data (l : list nat) : forall e,
  fold_left (Emitter.callHandler throws name data) (map Emitter.Fn l) e = e.
Proof. induction l as [|x l IH]; intros e; [reflexivity | apply IH]. Qed.

(** X22.  [emit] calls every handler registered for the event once, with the
    data, in the order of registration, and goes on after a handler that
    throws; it returns [true] when there was a handler to call, and leaves
    handlers registered with [on] in place. *)
Theorem emit_calls_each_handler_in_order (throws : nat -> value -> bool)
    (name : string) (data : value) (ids : list nat) :
  NoDup ids ->
  let e := fold_left (fun e id => Emitter.on name (Emitter.Fn id) e) ids Emitter.empty in
  Emitter.emit throws name data e
  = (match ids with [] => false | _ => true end, e, map (fun id => (id, data)) ids).
Proof.
  intros Hnd. cbv zeta. destruct ids as [|i ids]; [reflexivity|].
  cbn [fold_left].
  assert (Hfirst : Emitter.on name (Emitter.Fn i) Emitter.empty
                   = Emitter.mkEmitter [(name, map Emitter.Fn [i])] 0).
  { unfold Emitter.on, Emitter.empty.
    cbn [Emitter.events Emitter.closures Emitter.get Emitter.set].
    rewrite !String.eqb_refl. reflexivity. }
  rewrite Hfirst, emitter_registered by (try discriminate; exact Hnd).
  unfold Emitter.emit. cbn [Emitter.events Emitter.get]. rewrite String.eqb_refl.
  cbn [app map length Nat.eqb]. f_equal; [f_equal|].
  - change (Emitter.Fn i :: map Emitter.Fn ids) with (map Emitter.Fn (i :: ids)).
    apply emitter_plain_calls.
  - cbn [Emitter.target]. f_equal. rewrite map_map. reflexivity.
Qed.

Lemma emit_calls_each_handler_in_order_witness :
  Emitter.emit (fun id _ => Nat.eqb id 2) "message" (VStr "hello")
    (Emitter.after (fun id _ => Nat.eqb id 2)
       [Emitter.On "message" 1; Emitter.On "message" 2; Emitter.On "message" 3])
  = (true,
     Emitter.after (fun id _ => Nat.eqb id 2)
       [Emitter.On "message" 1; Emitter.On "message" 2; Emitter.On "message" 3],
     [(1%nat, VStr "hello"); (2%nat, VStr "hello"); (3%nat, VStr "hello")]).
Proof.
  apply (emit_calls_each_handler_in_order (fun id _ => Nat.eqb id 2) "message"
           (VStr "hello") [1%nat; 2%nat; 3%nat]).
  apply (bool_decide_unpack (NoDup [1%nat; 2%nat; 3%nat])). exact I.
Defined.

Lemma listeners_once name id e :
  In (Emitter.Once (Emitter.closures e) id) (Emitter.listeners name (Emitter.once name id e)).
Proof.
  unfold Emitter.once, Emitter.on, Emitter.listeners.
  cbn [Emitter.events Emitter.closures].
  destruct (Emitter.get name (Emitter.events e)) as [hs|] eqn:Hget.
  - rewrite Hget. cbn [Emitter.events]. rewrite EmitterFacts.get_set_same.
    apply EmitterFacts.setAdd_In.
  - rewrite EmitterFacts.get_set_same. cbn [Emitter.events].
    rewrite EmitterFacts.get_set_same. apply EmitterFacts.setAdd_In.
Qed.

Lemma listeners_off_other name h h' e :
  In h' (Emitter.listeners name e) -> h' <> h ->
  In h' (Emitter.listeners name (Emitter.off name h e)).
Proof.
  unfold Emitter.listeners, Emitter.off. intros Hin Hne.
  destruct (Emitter.get name (Emitter.events e)) as [hs|] eqn:Hget; [|rewrite Hget; exact Hin].
  assert (Hkeep : In h' (Emitter.setDelete h hs))
    by (apply EmitterFacts.setDelete_In; split; assumption).
  destruct (Nat.eqb_spec (length (Emitter.setDelete h hs)) 0) as [E|E].
  - destruct (Emitter.setDelete h hs); [contradiction | discriminate].
  - cbn [Emitter.events]. rewrite EmitterFacts.get_set_same. exact Hkeep.
Qed.

Lemma listeners_off_same name h e : ~ In h (Emitter.listeners name (Emitter.off name h e)).
Proof.
  unfold Emitter.listeners, Emitter.off.
  destruct (Emitter.get name (Emitter.events e)) as [hs|] eqn:Hget;
    [|rewrite Hget; intros []].
  destruct (Nat.eqb_spec (length (Emitter.setDelete h hs)) 0) as [E|E];
    cbn [Emitter.events].
  - rewrite EmitterFacts.get_delete_same. intros [].
  - rewrite EmitterFacts.get_set_same. intros Hin.
    apply EmitterFacts.setDelete_In in Hin. destruct Hin as [_ Hne]. congruence.
Qed.

Lemma listeners_calls throws name data closure handlers : forall e,
  ~ In closure handlers -> In closure (Emitter.listeners name e) ->
  In closure (Emitter.listeners name
                (fold_left (Emitter.callHandler throws name data) handlers e)).
Proof.
  induction handlers as [|h handlers IH]; intros e Hnot Hin; [exact Hin|].
  cbn [fold_left]. apply IH; [intros H; apply Hnot; right; exact H|].
  destruct h as [i|serial i]; cbn [Emitter.callHandler]; [exact Hin|].
  destruct (throws i data); [exact Hin|].
  apply listeners_off_other; [exact Hin|]. intros ->. apply Hnot. left. reflexivity.
Qed.

(** X23.  A handler registered with [once] is called by the next [emit] of
    its event, after the handlers registered before it, and is then no
    longer registered; but when the handler throws, its closure is not
    taken off, and it stays registered for the next [emit]. *)
Theorem once_handler_is_removed_unless_it_throws (throws : nat -> value -> bool)
    (requests : list Emitter.request) (name : string) (id : nat) (data : value) :
  let e := Emitter.after throws requests in
  let closure := Emitter.Once (Emitter.closures e) id in
  let result := Emitter.emit throws name data (Emitter.once name id e) in
  fst (fst result) = true
  /\ last (snd result) = Some (id, data)
  /\ snd result = map (fun h => (Emitter.target h, data)) (Emitter.listeners name e)
                  ++ [(id, data)]
  /\ (In closure (Emitter.listeners name (snd (fst result))) <-> throws id data = true).
Proof.
  cbv zeta. pose proof (EmitterFacts.wellFormed_after throws requests) as [Hkeys Hall].
  set (e := Emitter.after throws requests) in *. clearbody e.
  set (closure := Emitter.Once (Emitter.closures e) id).
  assert (Hfresh : ~ In closure (Emitter.listeners name e)).
  { unfold Emitter.listeners.
    destruct (Emitter.get name (Emitter.events e)) as [hs|] eqn:Hget; [|intros []].
    destruct (EmitterFacts.goodEntry_get _ _ _ _ Hall Hget) as (_ & _ & Hb).
    cbn [snd] in Hb. rewrite List.Forall_forall in Hb. intros Hin.
    specialize (Hb _ Hin). cbn in Hb. lia. }
  assert (Hreg : Emitter.get name (Emitter.events (Emitter.once name id e))
                 = Some (Emitter.listeners name e ++ [closure])).
  { unfold Emitter.once, Emitter.on, Emitter.listeners in *.
    cbn [Emitter.events Emitter.closures].
    destruct (Emitter.get name (Emitter.events e)) as [hs|] eqn:Hget.
    - rewrite Hget. cbn [Emitter.events]. rewrite EmitterFacts.get_set_same.
      rewrite EmitterFacts.setAdd_new by exact Hfresh. reflexivity.
    - rewrite EmitterFacts.get_set_same. cbn [Emitter.events].
      rewrite EmitterFacts.get_set_same. reflexivity. }
  unfold Emitter.emit. rewrite Hreg.
  destruct (Nat.eqb_spec (length (Emitter.listeners name e ++ [closure])) 0) as [E|_];
    [rewrite length_app in E; cbn in E; lia|].
  cbn [fst snd]. rewrite map_app. cbn [map Emitter.target closure].
  repeat split.
  - apply last_snoc.
  - rewrite fold_left_app. unfold closure at 2. cbn [fold_left Emitter.callHandler].
    destruct (throws id data); [reflexivity|].
    intros Hin. exfalso. exact (listeners_off_same _ _ _ Hin).
  - intros Hthrows. rewrite fold_left_app. unfold closure at 2.
    cbn [fold_left Emitter.callHandler].
    rewrite Hthrows. apply listeners_calls; [exact Hfresh|].
    unfold Emitter.listeners at 1. rewrite Hreg. apply in_or_app. right. left. reflexivity.
Qed.

(** X24.  A handler registered with [once] cannot be taken off with [off]
    and the handler itself: the set holds the closure [once] made, which
    no caller can name, so the handler stays registered. *)
Theorem off_does_not_remove_once_handler (e : Emitter.EventEmitter) (name : string)
    (id : nat) :
  In (Emitter.Once (Emitter.closures e) id)
     (Emitter.listeners name
        (Emitter.off name (Emitter.Fn id) (Emitter.once name id e)))
  /\ (0 < Emitter.listenerCount name
            (Emitter.off name (Emitter.Fn id) (Emitter.once name id e)))%nat.
Proof.
  assert (H : In (Emitter.Once (Emitter.closures e) id)
                (Emitter.listeners name
                   (Emitter.off name (Emitter.Fn id) (Emitter.once name id e)))).
  { apply listeners_off_other; [apply listeners_once | discriminate]. }
  split; [exact H|]. unfold Emitter.listeners, Emitter.listenerCount in *.
  destruct (Emitter.get name _) as [hs|]; [|contradiction].
  destruct hs; [contradiction | cbn; lia].
Qed.

(** X25.  [removeAllListeners()] without an event leaves no listener at
    all, and so does [removeAllListeners('')], the empty name being falsy:
    afterwards every [emit] returns [false] and calls nothing.  With any
    other name it removes the listeners of that event and keeps the others. *)
Theorem removeAllListeners_silences (throws : nat -> value -> bool)
    (e : Emitter.EventEmitter) (name other : string) (data : value) :
  Emitter.emit throws name data (Emitter.removeAllListeners None e)
  = (false, Emitter.removeAllListeners None e, [])
  /\ Emitter.removeAllListeners (Some "") e = Emitter.removeAllListeners None e
  /\ Emitter.eventNames (Emitter.removeAllListeners None e) = []
  /\ (name <> "" ->
      Emitter.listeners name (Emitter.removeAllListeners (Some name) e) = []
      /\ (other <> name ->
          Emitter.listeners other (Emitter.removeAllListeners (Some name) e)
          = Emitter.listeners other e)).
Proof.
  split; [reflexivity|]. split; [reflexivity|]. split; [reflexivity|].
  intros Hne. split.
  - unfold Emitter.removeAllListeners, Emitter.listeners.
    destruct (String.eqb_spec name ""); [contradiction|]. cbn [negb Emitter.events].
    rewrite EmitterFacts.get_delete_same. reflexivity.
  - intros Hother. unfold Emitter.removeAllListeners, Emitter.listeners.
    destruct (String.eqb_spec name ""); [contradiction|]. cbn [negb Emitter.events].
    rewrite EmitterFacts.get_delete_other by exact Hother. reflexivity.
Qed.

(** ** Audio elements of the assistant's tracks *)

Lemma hasTrack_app sid l1 l2 : hasTrack sid (l1 ++ l2) = hasTrack sid l1 || hasTrack sid l2.
Proof. unfold hasTrack. apply existsb_app. Qed.

Lemma filter_absent sid tracks :
  hasTrack sid tracks = false ->
  List.filter (fun entry => negb (String.eqb (fst entry) sid)) tracks = tracks.
Proof.
  unfold hasTrack. induction tracks as [|[k el] tracks IH]; [reflexivity|].
  cbn [existsb List.filter fst]. intros H. apply orb_false_iff in H. destruct H as [Hk Ht].
  rewrite Hk. cbn [negb]. rewrite IH by exact Ht. reflexivity.
Qed.

Lemma hasTrack_filter_same sid tracks :
  hasTrack sid (List.filter (fun entry => negb (String.eqb (fst entry) sid)) tracks) = false.
Proof.
  unfold hasTrack. induction tracks as [|[k el] tracks IH]; [reflexivity|].
  cbn [List.filter fst]. destruct (String.eqb k sid) eqn:Hk; cbn [negb]; [exact IH|].
  cbn [existsb fst]. rewrite Hk, IH. reflexivity.
Qed.

Lemma set_attachedTracks_same s : set_attachedTracks (attachedTracks s) s = s.
Proof. destruct s; reflexivity. Qed.

Lemma set_attachedTracks_twice l1 l2 s :
  set_attachedTracks l1 (set_attachedTracks l2 s) = set_attachedTracks l1 s.
Proof. destruct s; reflexivity. Qed.

Lemma handleAssistantAudioTrack_run track s :
  handleAssistantAudioTrack track s =
    if String.eqb (sid track) "" then mkOut (Returned tt) s [Do (AttachTrack "")]
    else if hasTrack (sid track) (attachedTracks s) then mkOut (Returned tt) s []
    else mkOut (Returned tt)
           (set_attachedTracks (attachedTracks s ++ [(sid track, TheElement)]) s)
           [Do (AttachTrack (sid track))].
Proof.
  unfold handleAssistantAudioTrack. rewrite bind_read.
  destruct (String.eqb_spec (sid track) "") as [Hsid|Hsid]; cbn [negb andb].
  - rewrite Hsid. reflexivity.
  - destruct (hasTrack (sid track) (attachedTracks s)); reflexivity.
Qed.

(** X26.  A track with a sid gets one audio element: attaching it when it
    is not attached records the element under the sid, attaching it again
    does nothing, and detaching it removes the element and restores the
    controller.  A track without a sid is attached every time and never
    recorded, so that no later cleanup finds its element. *)
Theorem track_attached_once (s : Wespoke) (track : RemoteTrack) :
  let o := handleAssistantAudioTrack track s in
  if String.eqb (sid track) "" then
    o = mkOut (Returned tt) s [Do (AttachTrack "")]
  else if hasTrack (sid track) (attachedTracks s) then
    o = mkOut (Returned tt) s []
  else
    trace o = [Do (AttachTrack (sid track))]
    /\ attachedTracks (final o) = attachedTracks s ++ [(sid track, TheElement)]
    /\ handleAssistantAudioTrack track (final o) = mkOut (Returned tt) (final o) []
    /\ detachTrack (sid track) (final o)
       = mkOut (Returned tt) s [Do (DetachElement (sid track))].
Proof.
  cbv zeta. rewrite handleAssistantAudioTrack_run.
  destruct (String.eqb (sid track) "") eqn:Hsid; [reflexivity|].
  destruct (hasTrack (sid track) (attachedTracks s)) eqn:Hhas; [reflexivity|].
  cbn [outcome final trace]. split; [reflexivity|]. split; [reflexivity|]. split.
  - rewrite handleAssistantAudioTrack_run, Hsid. cbn [attachedTracks set_attachedTracks].
    replace (attachedTracks (set_attachedTracks (attachedTracks s ++ [(sid track, TheElement)]) s))
      with (attachedTracks s ++ [(sid track, TheElement)]) by (destruct s; reflexivity).
    rewrite hasTrack_app, Hhas. cbn [hasTrack existsb fst orb].
    rewrite String.eqb_refl. reflexivity.
  - rewrite detachTrack_run.
    replace (attachedTracks (set_attachedTracks (attachedTracks s ++ [(sid track, TheElement)]) s))
      with (attachedTracks s ++ [(sid track, TheElement)]) by (destruct s; reflexivity).
    rewrite hasTrack_app, Hhas. cbn [hasTrack existsb fst orb].
    rewrite String.eqb_refl. cbn [orb].
    rewrite List.filter_app, filter_absent by exact Hhas. cbn [List.filter fst].
    rewrite String.eqb_refl. cbn [negb]. rewrite app_nil_r.
    destruct s; reflexivity.
Qed.

(** Attaching the tracks of a list of publications touches nothing but
    [attachedTracks], which then holds the sids it held and those
    published. *)
Lemma attach_each (p : RemoteParticipant) : forall pubs s,
  exists t tracks,
    forEach pubs (fun publication =>
      match publication with
      | Some track => handleAssistantAudioTrack track
      | None => ret tt
      end) s
    = mkOut (Returned tt) (set_attachedTracks tracks s) t
    /\ (forall x, hasTrack x tracks
          = hasTrack x (attachedTracks s)
            || publishes x (mkParticipant (ref p) (identity p) (metadata p) pubs)).
Proof.
  induction pubs as [|[track|] pubs IH]; intros s.
  - exists [], (attachedTracks s). rewrite set_attachedTracks_same.
    split; [reflexivity|]. intros x. rewrite orb_false_r. reflexivity.
  - cbn [forEach]. rewrite bind_pre, handleAssistantAudioTrack_run.
    unfold publishes in *. cbn [trackPublications existsb] in *.
    destruct (String.eqb (sid track) "") eqn:Hsid; cbn [negb andb orb].
    + destruct (IH s) as (t & tracks & Hrun & Hhas). rewrite Hrun.
      eexists _, tracks. split; [reflexivity | exact Hhas].
    + destruct (hasTrack (sid track) (attachedTracks s)) eqn:Hold.
      * destruct (IH s) as (t & tracks & Hrun & Hhas). rewrite Hrun.
        eexists _, tracks. split; [reflexivity|]. intros x. rewrite Hhas.
        destruct (String.eqb_spec (sid track) x) as [<-|_]; [|reflexivity].
        rewrite Hold. reflexivity.
      * match goal with |- context [forEach pubs _ ?s1] =>
          destruct (IH s1) as (t & tracks & Hrun & Hhas) end.
        rewrite Hrun. eexists _, tracks. rewrite set_attachedTracks_twice.
        split; [reflexivity|]. intros x. rewrite Hhas.
        replace (attachedTracks (set_attachedTracks (attachedTracks s ++ [(sid track, TheElement)]) s))
          with (attachedTracks s ++ [(sid track, TheElement)]) by (destruct s; reflexivity).
        rewrite hasTrack_app. cbn [hasTrack existsb fst]. rewrite orb_false_r, orb_assoc.
        reflexivity.
  - cbn [forEach]. rewrite bind_pre. unfold ret at 1. rewrite pre_nil.
    destruct (IH s) as (t & tracks & Hrun & Hhas). rewrite Hrun.
    exists t, tracks. split; [reflexivity | exact Hhas].
Qed.

(** Detaching the tracks of a list of publications touches nothing but
    [attachedTracks], which loses the sids published. *)
Lemma detach_published (p : RemoteParticipant) : forall pubs s,
  exists t tracks,
    forEach pubs (fun publication =>
      match publication with
      | Some track => when (negb (String.eqb (sid track) "")) (detachTrack (sid track))
      | None => ret tt
      end) s
    = mkOut (Returned tt) (set_attachedTracks tracks s) t
    /\ (forall x, hasTrack x tracks
          = hasTrack x (attachedTracks s)
            && negb (publishes x (mkParticipant (ref p) (identity p) (metadata p) pubs)))
    /\ (forall x, publishes x (mkParticipant (ref p) (identity p) (metadata p) pubs) = true ->
          hasTrack x (attachedTracks s) = true -> Do (DetachElement x) ∈ t).
Proof.
  induction pubs as [|[track|] pubs IH]; intros s.
  - exists [], (attachedTracks s). rewrite set_attachedTracks_same.
    split; [reflexivity|]. split; [|discriminate].
    intros x. rewrite andb_true_r. reflexivity.
  - cbn [forEach]. rewrite bind_pre.
    unfold publishes in *. cbn [trackPublications existsb] in *.
    destruct (String.eqb (sid track) "") eqn:Hsid; cbn [negb andb orb when].
    + unfold ret at 1. rewrite pre_nil.
      destruct (IH s) as (t & tracks & Hrun & Hhas & Hin). rewrite Hrun.
      exists t, tracks. split; [reflexivity|]. split; assumption.
    + rewrite detachTrack_run.
      destruct (hasTrack (sid track) (attachedTracks s)) eqn:Hold.
      * match goal with |- context [forEach pubs _ ?s1] =>
          destruct (IH s1) as (t & tracks & Hrun & Hhas & Hin) end.
        rewrite Hrun. eexists _, tracks. rewrite set_attachedTracks_twice.
        split; [reflexivity|].
        replace (attachedTracks (set_attachedTracks
                   (List.filter (fun entry => negb (String.eqb (fst entry) (sid track)))
                      (attachedTracks s)) s))
          with (List.filter (fun entry => negb (String.eqb (fst entry) (sid track)))
                  (attachedTracks s)) in * by (destruct s; reflexivity).
        split.
        -- intros x. rewrite Hhas.
           destruct (String.eqb_spec (sid track) x) as [<-|Hne]; cbn [orb negb].
           ++ rewrite hasTrack_filter_same, andb_false_r. reflexivity.
           ++ rewrite hasTrack_filter by congruence. reflexivity.
        -- intros x Hpub Hx. revert Hpub.
           destruct (String.eqb_spec (sid track) x) as [Heq|Hne]; cbn [negb andb orb];
             intros Hpub; [subst x; left | right].
           apply Hin; [exact Hpub|]. rewrite hasTrack_filter by congruence. exact Hx.
      * rewrite pre_nil. destruct (IH s) as (t & tracks & Hrun & Hhas & Hin).
        rewrite Hrun. exists t, tracks. split; [reflexivity|]. split.
        -- intros x. rewrite Hhas.
           destruct (String.eqb_spec (sid track) x) as [<-|Hne]; cbn [orb negb];
             [|reflexivity].
           rewrite Hold. reflexivity.
        -- intros x Hpub Hx. revert Hpub.
           destruct (String.eqb_spec (sid track) x) as [Heq|Hne]; cbn [negb andb orb];
             intros Hpub; [congruence|].
           apply Hin; assumption.
  - cbn [forEach]. rewrite bind_pre. unfold ret at 1. rewrite pre_nil.
    destruct (IH s) as (t & tracks & Hrun & Hhas & Hin). rewrite Hrun.
    exists t, tracks. split; [reflexivity|]. split; assumption.
Qed.

(** X27.  The first assistant to join is adopted and every track it
    publishes is attached, whatever its kind; another assistant that joins
    meanwhile is ignored.  When the adopted assistant leaves, the element
    of every track it publishes under a sid is detached, the elements of
    other tracks stay, and the controller has no assistant again. *)
Theorem assistant_audio_round_trip (s : Wespoke) (p : RemoteParticipant) :
  assistantParticipant s = None -> isAssistantParticipant p = true ->
  let o1 := onParticipantConnected p s in
  let o2 := onParticipantDisconnected p (final o1) in
  assistantParticipant (final o1) = Some p
  /\ (forall x, hasTrack x (attachedTracks (final o1))
        = hasTrack x (attachedTracks s) || publishes x p)
  /\ (forall q, onParticipantConnected q (final o1) = mkOut (Returned tt) (final o1) [])
  /\ assistantParticipant (final o2) = None
  /\ (forall x, hasTrack x (attachedTracks (final o2))
        = hasTrack x (attachedTracks s) && negb (publishes x p))
  /\ (forall x, publishes x p = true -> Do (DetachElement x) ∈ trace o2).
Proof.
  intros Hnone Hp. cbv zeta.
  assert (Hsame : mkParticipant (ref p) (identity p) (metadata p) (trackPublications p) = p)
    by (destruct p; reflexivity).
  destruct (attach_each p (trackPublications p) (set_assistantParticipant (Some p) s))
    as (t1 & tracks1 & Hrun1 & Hhas1).
  rewrite Hsame in Hhas1.
  replace (attachedTracks (set_assistantParticipant (Some p) s))
    with (attachedTracks s) in Hhas1 by (destruct s; reflexivity).
  set (s1 := set_attachedTracks tracks1 (set_assistantParticipant (Some p) s)) in *.
  assert (Ha1 : assistantParticipant s1 = Some p) by (destruct s; reflexivity).
  assert (Ht1 : attachedTracks s1 = tracks1) by (destruct s; reflexivity).
  assert (Hrun : onParticipantConnected p s
                 = mkOut (Returned tt) s1 (t1 ++ [Do (ListenSpeaking (ref p))])).
  { unfold onParticipantConnected. rewrite bind_read, Hp, Hnone.
    rewrite bool_decide_eq_false_2 by (intros [? ?]; discriminate).
    cbn [negb andb]. rewrite bind_pre. unfold write at 1, pre at 1.
    cbn [outcome final trace app]. unfold setupAssistantTracks. rewrite bind_pre.
    rewrite Hrun1. reflexivity. }
  rewrite Hrun. cbn [final]. clearbody s1.
  split; [exact Ha1|]. split; [intros x; rewrite Ht1; apply Hhas1|]. split.
  { intros q. unfold onParticipantConnected. rewrite bind_read, Ha1.
    rewrite bool_decide_eq_true_2 by (eexists; reflexivity).
    cbn [negb]. rewrite andb_false_r. reflexivity. }
  destruct (detach_published p (trackPublications p) s1) as (t2 & tracks2 & Hrun2 & Hhas2 & Hin2).
  rewrite Hsame in Hhas2, Hin2.
  assert (Hgone : onParticipantDisconnected p s1
                  = mkOut (Returned tt)
                      (set_assistantParticipant None (set_attachedTracks tracks2 s1)) t2).
  { unfold onParticipantDisconnected. rewrite bind_read, Ha1, Nat.eqb_refl.
    unfold cleanupParticipantTracks. rewrite bind_pre, Hrun2.
    unfold write, pre. cbn [outcome final trace]. rewrite app_nil_r. reflexivity. }
  rewrite Hgone. cbn [final trace]. split; [destruct s1; reflexivity|]. split.
  - intros x.
    replace (attachedTracks (set_assistantParticipant None (set_attachedTracks tracks2 s1)))
      with tracks2 by (destruct s1; reflexivity).
    rewrite Hhas2, Ht1, Hhas1.
    destruct (hasTrack x (attachedTracks s)), (publishes x p); reflexivity.
  - intros x Hx. apply Hin2; [exact Hx|]. rewrite Ht1, Hhas1, Hx. apply orb_true_r.
Qed.

Lemma assistant_audio_round_trip_witness :
  assistantParticipant
    (final (onParticipantDisconnected
              (mkParticipant 7 "agent-1" None [Some (mkTrack "TR_a" Audio); None])
              (final (onParticipantConnected
                        (mkParticipant 7 "agent-1" None [Some (mkTrack "TR_a" Audio); None])
                        demo_idle)))) = None
  /\ Do (DetachElement "TR_a")
       ∈ trace (onParticipantDisconnected
                  (mkParticipant 7 "agent-1" None [Some (mkTrack "TR_a" Audio); None])
                  (final (onParticipantConnected
                            (mkParticipant 7 "agent-1" None [Some (mkTrack "TR_a" Audio); None])
                            demo_idle))).
Proof.
  destruct (assistant_audio_round_trip demo_idle
              (mkParticipant 7 "agent-1" None [Some (mkTrack "TR_a" Audio); None])
              eq_refl eq_refl) as (_ & _ & _ & Hnone & _ & Hin).
  split; [exact Hnone | apply Hin; reflexivity].
Defined.

(** ** The transcript of the widget *)










(** A final transcription that carries the id of a message already shown:
    the transcript holds the id twice. *)
Example transcription_repeats_an_id :
  Widget.transcript
    [Widget.MessageEvent (VObj [("id", VStr "m1"); ("role", VStr "assistant");
                                ("content", VStr "Hello")]) 1 2;
     Widget.TranscriptionEvent (VObj [("transcriptionId", VStr "m1");
                                      ("isFinal", VBool true);
                                      ("text", VStr "Hi")]) 3 4]
  = [VObj [("id", VStr "m1"); ("role", VStr "assistant"); ("content", VStr "Hello");
           ("timestamp", VNum 2)];
     VObj [("id", VStr "m1"); ("role", VStr "user"); ("content", VStr "Hi");
           ("timestamp", VNum 4)]].
Proof. reflexivity. Qed.

(** ** The earlier copy: pushes and failed starts *)

Lemma earlier_push_conversation data s :
  conversation data = true ->
  Earlier.handleDataChannelMessage (Some data) s =
    if truthy (optprop data "id") && has (optprop data "id") (seenMessageIds s)
    then mkOut (Returned tt) s []
    else mkOut (Returned tt)
           (if truthy (optprop data "id")
            then set_seenMessageIds (add (optprop data "id") (seenMessageIds s)) s
            else s)
           [Emit (EvMessage (conversationMessageOf data))].
Proof.
  unfold conversation, Earlier.handleDataChannelMessage. intros H.
  unfold field. destruct (prop data "type") as [type|]; [|discriminate].
  unfold try_catch, bind, ret, read, write, emit, when. cbn [outcome final trace].
  rewrite H.
  destruct (truthy (optprop data "id")) eqn:Ht; cbn [andb].
  - destruct (has (optprop data "id") (seenMessageIds s)); reflexivity.
  - reflexivity.
Qed.

Lemma earlier_push_other decoded s :
  match decoded with Some data => conversation data = false | None => True end ->
  messages (trace (Earlier.handleDataChannelMessage decoded s)) = []
  /\ final (Earlier.handleDataChannelMessage decoded s) = s.
Proof.
  unfold conversation, Earlier.handleDataChannelMessage. destruct decoded as [data|].
  - unfold field. destruct (prop data "type") as [type|]; [|intros _; split; reflexivity].
    intros H. unfold try_catch, bind, ret, read, write, emit, when.
    cbn [outcome final trace]. rewrite H.
    repeat match goal with
           | |- context [if ?b then _ else _] => destruct b
           end; split; reflexivity.
  - intros _. split; reflexivity.
Qed.

Lemma ledgeredAt_ret {A} i (a : A) : ledgeredAt i (ret a).
Proof. intros s. cbn. repeat split; try lia; try done. Qed.

Lemma ledgeredAt_bind {A B} i (m : M A) (k : A -> M B) :
  ledgeredAt i m -> (forall a, ledgeredAt i (k a)) -> ledgeredAt i (bind m k).
Proof.
  intros Hm Hk s. specialize (Hm s). unfold bind.
  destruct (m s) as [[a|e] s1 t1]; cbn [outcome final trace] in *; [|exact Hm].
  specialize (Hk a s1). destruct (k a s1) as [r s2 t2]; cbn [outcome final trace] in *.
  destruct Hm as (Hm1 & Hm2 & Hm3 & Hm4). destruct Hk as (Hk1 & Hk2 & Hk3 & Hk4).
  rewrite messages_app, bearing_app.
  assert (Hseen1 : bearing i (messages t1) <> [] -> bearing i (messages t2) = []).
  { intros Hne. apply Hk1, Hm3, Hne. }
  repeat split.
  - intros Hs. rewrite Hm1 by exact Hs. cbn. apply Hk1.
    unfold seenId in *. eapply elem_of_weaken; [exact Hs | exact Hm4].
  - rewrite length_app. destruct (bearing i (messages t1)) as [|x l] eqn:E.
    + cbn. exact Hk2.
    + rewrite Hseen1 by discriminate. cbn in *. lia.
  - intros Hne. destruct (bearing i (messages t1)) as [|x l] eqn:E.
    + apply Hk3. exact Hne.
    + unfold seenId in *. eapply elem_of_weaken; [apply Hm3; discriminate | exact Hk4].
  - etransitivity; eassumption.
Qed.

Lemma ledgeredAt_forEach {A} i (xs : list A) f :
  (forall x, ledgeredAt i (f x)) -> ledgeredAt i (forEach xs f).
Proof.
  intros Hf. induction xs as [|x xs IH]; cbn [forEach].
  - apply ledgeredAt_ret.
  - apply ledgeredAt_bind; [apply Hf | intros _; exact IH].
Qed.

(** In the earlier copy every push with a non-empty id passes through the
    ledger. *)
Lemma ledgeredAt_earlier_push i decoded :
  i <> "" -> ledgeredAt i (Earlier.handleDataChannelMessage decoded).
Proof.
  intros Hi s.
  assert (Hquiet : match decoded with
                   | Some data => conversation data = false
                   | None => True
                   end ->
                   messages (trace (Earlier.handleDataChannelMessage decoded s)) = []
                   /\ final (Earlier.handleDataChannelMessage decoded s) = s)
    by apply earlier_push_other.
  destruct decoded as [data|]; [destruct (conversation data) eqn:Hc|].
  2,3: destruct Hquiet as [-> ->]; [done|]; cbn; repeat split; try lia; done.
  clear Hquiet. rewrite (earlier_push_conversation _ s Hc).
  destruct (is_str (optprop data "id") i) eqn:Hid.
  - assert (Hv : optprop data "id" = VStr i).
    { apply (bears_id i (conversationMessageOf data)). exact Hid. }
    rewrite Hv, has_str. cbn [truthy].
    destruct (String.eqb_spec i "") as [|_]; [contradiction|]. cbn [negb andb].
    destruct (bool_decide_reflect ((inl (inl i) : key) ∈ seenMessageIds s)) as [Hin|Hout];
      cbn [outcome final trace].
    + cbn. repeat split; try lia; done.
    + rewrite messages_one, bearing_one, bears_conversationMessageOf, Hid.
      repeat split.
      * intros Hs. contradiction.
      * cbn. lia.
      * intros _. apply add_str.
      * apply add_subseteq.
  - assert (Hnone : bearing i [conversationMessageOf data] = []).
    { rewrite bearing_one, bears_conversationMessageOf, Hid. reflexivity. }
    destruct (truthy (optprop data "id") && has (optprop data "id") (seenMessageIds s));
      cbn [outcome final trace].
    + cbn. repeat split; try lia; done.
    + rewrite messages_one, Hnone. repeat split; try (cbn; lia); try done.
      destruct (truthy (optprop data "id")); [apply add_subseteq | done].
Qed.

(** X29.  In the earlier copy, in any run of pushes, a message with a
    non-empty id is emitted at most once, and not at all when its id was in
    the ledger: every later version is dropped, the completed one included.
    So of a chunk and the completed message that follows it under the same
    id, subscribers receive the chunk only. *)
Theorem earlier_push_drops_every_repeat (ps : list (option value)) (s : Wespoke)
    (i : string) (partial final_version : value) :
  i <> "" ->
  let o := forEach ps Earlier.handleDataChannelMessage s in
  (length (bearing i (messages (trace o))) <= 1)%nat
  /\ (seenId i s -> bearing i (messages (trace o)) = [])
  /\ seenMessageIds s ⊆ seenMessageIds (final o)
  /\ (conversation partial = true -> conversation final_version = true ->
      optprop partial "id" = VStr i -> optprop final_version "id" = VStr i ->
      ~ seenId i s ->
      messages (trace (forEach [Some partial; Some final_version]
                         Earlier.handleDataChannelMessage s))
      = [conversationMessageOf partial]).
Proof.
  intros Hi. cbv zeta.
  destruct (ledgeredAt_forEach i ps Earlier.handleDataChannelMessage
              (fun d => ledgeredAt_earlier_push i d Hi) s) as (H1 & H2 & _ & H4).
  split; [exact H2|]. split; [exact H1|]. split; [exact H4|].
  intros Hcp Hcf Hidp Hidf Hnew.
  assert (Ht : truthy (VStr i) = true).
  { cbn. destruct (String.eqb_spec i ""); [contradiction | reflexivity]. }
  rewrite forEach_cons, (earlier_push_conversation _ s Hcp), Hidp, Ht, has_str.
  rewrite bool_decide_eq_false_2 by exact Hnew. cbn [andb].
  rewrite forEach_cons, (earlier_push_conversation _ _ Hcf), Hidf, Ht, has_str.
  rewrite bool_decide_eq_true_2 by apply add_str.
  cbn [andb forEach ret outcome final trace app]. reflexivity.
Qed.

Lemma earlier_push_drops_every_repeat_witness :
  messages (trace (forEach [Some (demo_push "m1" "Hel" false); Some (demo_push "m1" "Hello" true)]
                     Earlier.handleDataChannelMessage demo_in_call))
  = [conversationMessageOf (demo_push "m1" "Hel" false)].
Proof.
  apply (earlier_push_drops_every_repeat [] demo_in_call "m1"
           (demo_push "m1" "Hel" false) (demo_push "m1" "Hello" true)).
  - discriminate.
  - reflexivity.
  - reflexivity.
  - reflexivity.
  - reflexivity.
  - unfold seenId. cbn. set_solver.
Defined.

(** X30.  In the earlier copy a [startCall] that fails leaves the state at
    Error, with the error emitted last.  From there every [startCall] is
    refused with CALL_IN_PROGRESS, and [endCall] does nothing unless a call
    id is set: after a token request that failed, neither of them leaves
    the Error state. *)
Theorem earlier_failed_start_blocks_retry (s : Wespoke) (assistantId : string)
    (callMetadata : value) (env : Bootstrap) (e : exn) :
  callState s = IDLE \/ callState s = DISCONNECTED ->
  outcome (Earlier.startCall assistantId callMetadata env s) = Threw e ->
  let o := Earlier.startCall assistantId callMetadata env s in
  callState (final o) = ERROR
  /\ last (trace o) = Some (Emit (EvError e))
  /\ (forall assistantId' callMetadata' env',
        Earlier.startCall assistantId' callMetadata' env' (final o)
        = mkOut (Threw (plainError "A call is already in progress" "CALL_IN_PROGRESS"))
            (final o) [])
  /\ (truthy (currentCallId (final o)) = false ->
      forall r disconnecting,
        endCall r disconnecting (final o) = mkOut (Returned tt) (final o) []).
Proof.
  intros Hfree Hthrew. cbv zeta.
  assert (Hboth : callState (final (Earlier.startCall assistantId callMetadata env s)) = ERROR
                  /\ last (trace (Earlier.startCall assistantId callMetadata env s))
                     = Some (Emit (EvError e))).
  { revert Hthrew.
    change (wp (Earlier.startCall assistantId callMetadata env)
              (fun r s1 t1 => r = Threw e ->
                 callState s1 = ERROR /\ last t1 = Some (Emit (EvError e))) s).
    unfold Earlier.startCall. wp_step. wp_step.
    assert (Hguard : negb (bool_decide (callState s = IDLE))
                     && negb (bool_decide (callState s = DISCONNECTED)) = false).
    { destruct Hfree as [-> | ->]; reflexivity. }
    rewrite Hguard. wp_step. wp_step. wp_step. wp_step. wp_step.
    unfold wp at 1.
    destruct (bootstrap assistantId callMetadata env _) as [[[]|e0] s1 t1];
      cbn [outcome final trace]; [discriminate|].
    unfold Earlier.bootstrapFailed. wp_auto.
    intros [= ->]. split; [reflexivity|]. in_last. }
  destruct Hboth as [Hstate Hlast].
  set (o := Earlier.startCall assistantId callMetadata env s) in *. clearbody o.
  split; [exact Hstate|]. split; [exact Hlast|]. split.
  - intros a' m' env'. unfold Earlier.startCall. rewrite bind_read, Hstate. reflexivity.
  - intros Hid r d. apply endCall_nothing_to_end. right. exact Hid.
Qed.

Lemma earlier_failed_start_blocks_retry_witness :
  callState (final (Earlier.startCall "asst_1" VUndefined
               (demo_bootstrap (Rejected (mkNative "TypeError" "Failed to fetch"))
                  (fun _ => demo_quiet_attempt)) demo_idle)) = ERROR
  /\ endCall demo_success None
       (final (Earlier.startCall "asst_1" VUndefined
                 (demo_bootstrap (Rejected (mkNative "TypeError" "Failed to fetch"))
                    (fun _ => demo_quiet_attempt)) demo_idle))
     = mkOut (Returned tt)
         (final (Earlier.startCall "asst_1" VUndefined
                   (demo_bootstrap (Rejected (mkNative "TypeError" "Failed to fetch"))
                      (fun _ => demo_quiet_attempt)) demo_idle)) [].
Proof.
  destruct (earlier_failed_start_blocks_retry demo_idle "asst_1" VUndefined
              (demo_bootstrap (Rejected (mkNative "TypeError" "Failed to fetch"))
                 (fun _ => demo_quiet_attempt))
              (Native (mkNative "TypeError" "Failed to fetch"))
              (or_introl eq_refl) eq_refl) as (Hstate & _ & _ & Hend).
  split; [exact Hstate | apply Hend; reflexivity].
Defined.
